(** * SODA Player: playback queue, frame source and audio engine

    A shallow embedding of [src/audio/queue.cpp], [src/audio/audio_decoder.cpp],
    [src/audio/audio_engine.cpp], [src/core/event_bus.cpp] and of the
    miniaudio implementation the repository ships
    ([third_party/miniaudio/miniaudio.h]), and the properties of the
    playback core checked against it.

    Conventions.
    - [size_t] and [uint64_t] values are naturals of type [N]; every
      arithmetic step of the source that can wrap is written with [wrap]
      (reduction modulo 2^64).
    - [std::vector] is a [list]; [operator[]] is the checked read [at_], whose
      out-of-range case is the explicit outcome [UB] (undefined behaviour in
      the source).
    - [std::optional<T>] is [option T]; [std::nullopt] is [None].
    - The member mutexes and atomics serialise the operations; every member
      function is modelled as one atomic state transformer.
    - Memory the code writes through a pointer is a list of bytes; a
      [float] is read from it as four little-endian bytes.  A store past
      the room the caller provides, and a read of bytes nothing was stored
      in, are [UB]. *)

From Stdlib Require Import NArith ZArith Ascii String Bool List Lia.
From Stdlib Require Import Strings.Byte.
From Stdlib Require Import Permutation.
From Stdlib Require Import Floats.SpecFloat.
Import ListNotations.

Local Open Scope N_scope.

(** ** Outcomes: a value, or undefined behaviour of the C++ source *)

Inductive res (A : Type) : Type :=
| Ok (a : A)
| UB.
Arguments Ok {A} a.
Arguments UB {A}.

Definition bind {A B : Type} (m : res A) (k : A -> res B) : res B :=
  match m with
  | Ok a => k a
  | UB => UB
  end.

Notation "x <- m ;; k" := (bind m (fun x => k))
  (at level 61, m at next level, right associativity).

(** ** Machine integers *)

Module SizeT.

(** [size_t] / [uint64_t] on the 64-bit targets the player builds for. *)
Definition modulus : N := 2 ^ 64.

Definition wrap (n : N) : N := n mod modulus.

(** [++n] / [n + 1]. *)
Definition inc (n : N) : N := wrap (n + 1).

(** [--n] / [n - 1]. *)
Definition dec (n : N) : N := wrap (n + (modulus - 1)).

End SizeT.

(** ** std::vector operations used by the queue *)

Module Vec.

Definition size {A : Type} (v : list A) : N := N.of_nat (length v).

(** [v[i]]: reading past the end is undefined behaviour. *)
Definition at_ {A : Type} (v : list A) (i : N) : res A :=
  match nth_error v (N.to_nat i) with
  | Some x => Ok x
  | None => UB
  end.

(** [v.erase(v.begin() + i)], for [i < v.size()]. *)
Definition erase {A : Type} (v : list A) (i : nat) : list A :=
  firstn i v ++ skipn (S i) v.

(** [v.insert(v.begin() + i, x)], for [i <= v.size()]. *)
Definition insert {A : Type} (v : list A) (i : nat) (x : A) : list A :=
  firstn i v ++ x :: skipn i v.

(** [v.push_back(x)]. *)
Definition push_back {A : Type} (v : list A) (x : A) : list A := v ++ [x].

(** [v.back()] together with [v.pop_back()]; [None] on the empty vector
    (the source only calls them under [!v.empty()]). *)
Fixpoint pop_back {A : Type} (v : list A) : option (list A * A) :=
  match v with
  | [] => None
  | x :: v' =>
      match pop_back v' with
      | None => Some ([], x)
      | Some (front, last) => Some (x :: front, last)
      end
  end.

(** Assignment [v[i] = x] (no effect outside the vector; the source never
    writes there). *)
Fixpoint set {A : Type} (v : list A) (i : nat) (x : A) : list A :=
  match v, i with
  | [], _ => []
  | _ :: v', O => x :: v'
  | y :: v', S i' => y :: set v' i' x
  end.

(** [std::swap(v[i], v[j])]. *)
Definition swap {A : Type} (v : list A) (i j : nat) : list A :=
  match nth_error v i, nth_error v j with
  | Some a, Some b => set (set v i b) j a
  | _, _ => v
  end.

(** [v.resize(n); std::iota(v.begin(), v.end(), 0)]. *)
Definition iota (n : nat) : list N := map N.of_nat (seq 0 n).

(** [std::find_if(v.begin(), v.end(), p)] as the distance from [begin()];
    [None] stands for [v.end()]. *)
Fixpoint find_if {A : Type} (p : A -> bool) (v : list A) : option nat :=
  match v with
  | [] => None
  | x :: v' =>
      if p x then Some O
      else match find_if p v' with
           | Some k => Some (S k)
           | None => None
           end
  end.

End Vec.

(** ** Tracks *)

(** [struct TrackInfo] of [soda.hpp]; the fields the playback core reads
    ([id], [filePath], [sourceId]) and the ones the tests set. *)
Record TrackInfo : Type := mkTrack {
  id : string;
  title : string;
  artist : string;
  filePath : string;
  sourceId : string
}.

(** ** The random engine

    [std::mt19937 rng_] is seeded from [std::random_device]; its output is
    an input of the program.  The engine state is the tape of raw values it
    will still produce.  [uniform hi g] is one call
    [std::uniform_int_distribution<size_t>(0, hi)(rng_)]: it consumes one
    raw value and yields a number in [0, hi]. *)

Definition Rng : Type := list N.

Definition uniform (hi : N) (g : Rng) : N * Rng :=
  match g with
  | [] => (0, [])
  | r :: g' => (r mod (hi + 1), g')
  end.

(** ** Queue (queue.hpp, queue.cpp) *)

Module Queue.

Import SizeT.

Record t : Type := mk {
  tracks_ : list TrackInfo;
  shuffleOrder_ : list N;
  history_ : list N;
  currentIndex_ : N;
  shuffled_ : bool;
  rng_ : Rng
}.

(** [Queue() = default], with the seed-dependent engine state [g]. *)
Definition empty (g : Rng) : t := mk [] [] [] 0 false g.

Definition set_tracks (q : t) (v : list TrackInfo) : t :=
  mk v (shuffleOrder_ q) (history_ q) (currentIndex_ q) (shuffled_ q) (rng_ q).
Definition set_shuffleOrder (q : t) (v : list N) : t :=
  mk (tracks_ q) v (history_ q) (currentIndex_ q) (shuffled_ q) (rng_ q).
Definition set_history (q : t) (v : list N) : t :=
  mk (tracks_ q) (shuffleOrder_ q) v (currentIndex_ q) (shuffled_ q) (rng_ q).
Definition set_currentIndex (q : t) (i : N) : t :=
  mk (tracks_ q) (shuffleOrder_ q) (history_ q) i (shuffled_ q) (rng_ q).
Definition set_shuffled (q : t) (b : bool) : t :=
  mk (tracks_ q) (shuffleOrder_ q) (history_ q) (currentIndex_ q) b (rng_ q).
Definition set_rng (q : t) (g : Rng) : t :=
  mk (tracks_ q) (shuffleOrder_ q) (history_ q) (currentIndex_ q) (shuffled_ q) g.

Definition isEmpty (q : t) : bool :=
  match tracks_ q with [] => true | _ => false end.
Definition size (q : t) : N := Vec.size (tracks_ q).
Definition currentIndex (q : t) : N := currentIndex_ q.
Definition isShuffled (q : t) : bool := shuffled_ q.

(** The loop of [updateShuffleOrder]:
    [for (i = size - 1; i > 0; --i) swap(order[i], order[dist(0,i)(rng_)])]. *)
Fixpoint reshuffle_loop (i : nat) (order : list N) (g : Rng) : list N * Rng :=
  match i with
  | O => (order, g)
  | S i' =>
      let (j, g') := uniform (N.of_nat i) g in
      reshuffle_loop i' (Vec.swap order i (N.to_nat j)) g'
  end.

Definition updateShuffleOrder (q : t) : t :=
  if isEmpty q then set_shuffleOrder q []
  else
    let n := length (tracks_ q) in
    let (order, g) := reshuffle_loop (n - 1) (Vec.iota n) (rng_ q) in
    set_rng (set_shuffleOrder q order) g.

Definition add (track : TrackInfo) (q : t) : t :=
  let q1 := set_tracks q (Vec.push_back (tracks_ q) track) in
  if shuffled_ q1
  then set_shuffleOrder q1
         (Vec.push_back (shuffleOrder_ q1) (dec (Vec.size (tracks_ q1))))
  else q1.

Definition addAll (tracks : list TrackInfo) (q : t) : t :=
  let startIndex := length (tracks_ q) in
  let q1 := set_tracks q (tracks_ q ++ tracks) in
  if shuffled_ q1
  then set_shuffleOrder q1
         (shuffleOrder_ q1 ++ map N.of_nat (seq startIndex (length tracks)))
  else q1.

Definition addNext (track : TrackInfo) (q : t) : t :=
  let insertPos := inc (currentIndex_ q) in
  let q1 :=
    if Vec.size (tracks_ q) <=? insertPos
    then set_tracks q (Vec.push_back (tracks_ q) track)
    else set_tracks q (Vec.insert (tracks_ q) (N.to_nat insertPos) track) in
  if shuffled_ q1 then updateShuffleOrder q1 else q1.

(** [Queue::remove(size_t index)]. *)
Definition remove (index : N) (q : t) : t :=
  if Vec.size (tracks_ q) <=? index then q
  else
    let q1 := set_tracks q (Vec.erase (tracks_ q) (N.to_nat index)) in
    let q2 :=
      if index <? currentIndex_ q1
      then set_currentIndex q1 (dec (currentIndex_ q1))
      else if (index =? currentIndex_ q1)
              && (Vec.size (tracks_ q1) <=? currentIndex_ q1)
      then set_currentIndex q1
             (if isEmpty q1 then 0 else dec (Vec.size (tracks_ q1)))
      else q1 in
    if shuffled_ q2 then updateShuffleOrder q2 else q2.

(** [Queue::remove(const std::string& trackId)]. *)
Definition remove_id (trackId : string) (q : t) : t :=
  match Vec.find_if (fun tr => String.eqb (id tr) trackId) (tracks_ q) with
  | Some index =>
      let q1 := set_tracks q (Vec.erase (tracks_ q) index) in
      let q2 :=
        if N.of_nat index <? currentIndex_ q1
        then set_currentIndex q1 (dec (currentIndex_ q1))
        else q1 in
      if shuffled_ q2 then updateShuffleOrder q2 else q2
  | None => q
  end.

Definition clear (q : t) : t :=
  mk [] [] [] 0 (shuffled_ q) (rng_ q).

Definition move (fromIndex toIndex : N) (q : t) : t :=
  if (Vec.size (tracks_ q) <=? fromIndex) || (Vec.size (tracks_ q) <=? toIndex)
  then q
  else
    match nth_error (tracks_ q) (N.to_nat fromIndex) with
    | None => q
    | Some track =>
        let erased := Vec.erase (tracks_ q) (N.to_nat fromIndex) in
        let q1 := set_tracks q (Vec.insert erased (N.to_nat toIndex) track) in
        let cur := currentIndex_ q1 in
        let q2 :=
          if fromIndex =? cur then set_currentIndex q1 toIndex
          else if (fromIndex <? cur) && (cur <=? toIndex)
          then set_currentIndex q1 (dec cur)
          else if (cur <? fromIndex) && (toIndex <=? cur)
          then set_currentIndex q1 (inc cur)
          else q1 in
        if shuffled_ q2 then updateShuffleOrder q2 else q2
    end.

(** [shuffled_ ? shuffleOrder_[i] : i], then [tracks_[index]]. *)
Definition resolve (q : t) (i : N) : res TrackInfo :=
  index <- (if shuffled_ q then Vec.at_ (shuffleOrder_ q) i else Ok i) ;;
  Vec.at_ (tracks_ q) index.

Definition current (q : t) : res (option TrackInfo) :=
  if isEmpty q then Ok None
  else tr <- resolve q (currentIndex_ q) ;; Ok (Some tr).

Definition next (q : t) : res (t * option TrackInfo) :=
  if isEmpty q then Ok (q, None)
  else
    let q1 := set_history q (Vec.push_back (history_ q) (currentIndex_ q)) in
    if Vec.size (tracks_ q1) <=? inc (currentIndex_ q1) then Ok (q1, None)
    else
      let q2 := set_currentIndex q1 (inc (currentIndex_ q1)) in
      tr <- resolve q2 (currentIndex_ q2) ;; Ok (q2, Some tr).

Definition previous (q : t) : res (t * option TrackInfo) :=
  if isEmpty q then Ok (q, None)
  else
    match Vec.pop_back (history_ q) with
    | Some (rest, back) =>
        let q1 := set_history (set_currentIndex q back) rest in
        tr <- resolve q1 (currentIndex_ q1) ;; Ok (q1, Some tr)
    | None =>
        if 0 <? currentIndex_ q
        then
          let q1 := set_currentIndex q (dec (currentIndex_ q)) in
          tr <- resolve q1 (currentIndex_ q1) ;; Ok (q1, Some tr)
        else Ok (q, None)
    end.

Definition peekNext (q : t) : res (option TrackInfo) :=
  if isEmpty q || (Vec.size (tracks_ q) <=? inc (currentIndex_ q))
  then Ok None
  else tr <- resolve q (inc (currentIndex_ q)) ;; Ok (Some tr).

Definition peekPrevious (q : t) : res (option TrackInfo) :=
  if isEmpty q || (currentIndex_ q =? 0)
  then Ok None
  else tr <- resolve q (dec (currentIndex_ q)) ;; Ok (Some tr).

Definition jumpTo (index : N) (q : t) : t :=
  if index <? Vec.size (tracks_ q)
  then set_currentIndex
         (set_history q (Vec.push_back (history_ q) (currentIndex_ q))) index
  else q.

(** The scan of [jumpToId], from position [i] over [k] more positions. *)
Fixpoint jumpToId_loop (trackId : string) (q : t) (i : nat) (k : nat) : res t :=
  match k with
  | O => Ok q
  | S k' =>
      tr <- resolve q (N.of_nat i) ;;
      if String.eqb (id tr) trackId
      then Ok (set_currentIndex
                 (set_history q (Vec.push_back (history_ q) (currentIndex_ q)))
                 (N.of_nat i))
      else jumpToId_loop trackId q (S i) k'
  end.

Definition jumpToId (trackId : string) (q : t) : res t :=
  jumpToId_loop trackId q 0 (length (tracks_ q)).

(** The Fisher-Yates loop of [shuffle], which skips the current position:
    [for (i = size - 1; i > 0; --i)]. *)
Fixpoint shuffle_loop (n cur : N) (i : nat) (order : list N) (g : Rng)
  : list N * Rng :=
  match i with
  | O => (order, g)
  | S i' =>
      if N.of_nat i =? cur then shuffle_loop n cur i' order g
      else
        let (j, g') := uniform (N.of_nat i) g in
        let j' :=
          if j =? cur
          then (let j1 := (wrap (j + 1)) mod n in
                if j1 =? cur then 0 else j1)
          else j in
        shuffle_loop n cur i' (Vec.swap order i (N.to_nat j')) g'
  end.

Definition shuffle (q : t) : res t :=
  if isEmpty q then Ok q
  else
    let n := length (tracks_ q) in
    let order0 := Vec.iota n in
    (* shuffleOrder_ has been overwritten by iota when it is read here *)
    currentTrackIndex <-
      (if shuffled_ q then Vec.at_ order0 (currentIndex_ q)
       else Ok (currentIndex_ q)) ;;
    let (order1, g) :=
      shuffle_loop (N.of_nat n) (currentIndex_ q) (n - 1) order0 (rng_ q) in
    let order2 :=
      match Vec.find_if (N.eqb currentTrackIndex) order1 with
      | Some it => Vec.swap order1 it (N.to_nat (currentIndex_ q))
      | None => order1
      end in
    Ok (set_shuffled (set_rng (set_shuffleOrder q order2) g) true).

Definition unshuffle (q : t) : res t :=
  if negb (shuffled_ q) then Ok q
  else
    realIndex <- Vec.at_ (shuffleOrder_ q) (currentIndex_ q) ;;
    Ok (set_shuffled (set_shuffleOrder (set_currentIndex q realIndex) []) false).

(** The public mutating interface, as a command language. *)
Inductive op : Type :=
| Add (track : TrackInfo)
| AddAll (tracks : list TrackInfo)
| AddNext (track : TrackInfo)
| Remove (index : N)
| RemoveId (trackId : string)
| Move (fromIndex toIndex : N)
| Clear
| JumpTo (index : N)
| JumpToId (trackId : string)
| Next
| Previous
| Shuffle
| Unshuffle.

Definition step (o : op) (q : t) : res t :=
  match o with
  | Add tr => Ok (add tr q)
  | AddAll trs => Ok (addAll trs q)
  | AddNext tr => Ok (addNext tr q)
  | Remove i => Ok (remove i q)
  | RemoveId s => Ok (remove_id s q)
  | Move i j => Ok (move i j q)
  | Clear => Ok (clear q)
  | JumpTo i => Ok (jumpTo i q)
  | JumpToId s => jumpToId s q
  | Next => r <- next q ;; Ok (fst r)
  | Previous => r <- previous q ;; Ok (fst r)
  | Shuffle => shuffle q
  | Unshuffle => unshuffle q
  end.

Fixpoint run (ops : list op) (q : t) : res t :=
  match ops with
  | [] => Ok q
  | o :: ops' => q' <- step o q ;; run ops' q'
  end.

(** [n] successive calls of [next()] / [previous()]. *)
Fixpoint nexts (n : nat) (q : t) : res t :=
  match n with
  | O => Ok q
  | S n' => r <- next q ;; nexts n' (fst r)
  end.

Fixpoint previouses (n : nat) (q : t) : res t :=
  match n with
  | O => Ok q
  | S n' => r <- previous q ;; previouses n' (fst r)
  end.

(** The invariants of the data model: the cursor designates an entry and,
    when shuffled, the permutation covers the tracks. *)
Definition order_ok (q : t) : Prop :=
  shuffled_ q = true ->
  length (shuffleOrder_ q) = length (tracks_ q) /\
  Forall (fun k => k < Vec.size (tracks_ q)) (shuffleOrder_ q).

Definition wf (q : t) : Prop :=
  Vec.size (tracks_ q) < modulus /\
  currentIndex_ q < Vec.size (tracks_ q) /\
  order_ok q.

(** The states on which navigation is defined: the empty queue, and
    the queues that satisfy the data-model invariants. *)
Definition navigable (q : t) : Prop :=
  isEmpty q = true \/ wf q.

(** The state invariant behind the data model: the sizes fit [size_t], the
    cursor designates an entry (or is 0 on the empty queue), and the order
    of a shuffled queue is a permutation of the natural indices. *)
Definition inv (q : t) : Prop :=
  Vec.size (tracks_ q) < modulus /\
  (currentIndex_ q < Vec.size (tracks_ q)
   \/ (tracks_ q = [] /\ currentIndex_ q = 0)) /\
  (shuffled_ q = true ->
   Permutation (shuffleOrder_ q) (Vec.iota (length (tracks_ q)))).

(** The number of tracks an operation appends. *)
Definition growth (o : op) : N :=
  match o with
  | Add _ | AddNext _ => 1
  | AddAll trs => Vec.size trs
  | _ => 0
  end.

(** The operations whose effect on [inv] is stated below, with what each
    needs: [remove(trackId)] is left out, [previous()] needs the history
    entries to be in range, [unshuffle()] a non-empty or unshuffled queue. *)
Definition admissible (o : op) (q : t) : Prop :=
  match o with
  | RemoveId _ => False
  | Previous => Forall (fun k => k < Vec.size (tracks_ q)) (history_ q)
  | Unshuffle => isEmpty q = false \/ shuffled_ q = false
  | _ => True
  end.

End Queue.

(** Sample data for the worked examples. *)
Definition track (i n : string) : TrackInfo := mkTrack i n "Test Artist" "" "".
Definition trA : TrackInfo := track "a" "Track A".
Definition trB : TrackInfo := track "b" "Track B".
Definition trC : TrackInfo := track "c" "Track C".

(** ** Single-precision samples

    [float] is IEEE-754 binary32: the specification floats of the standard
    library at precision 24 and maximal exponent 128. *)

Module F32.

Definition prec : Z := 24%Z.
Definition emax : Z := 128%Z.

Definition t : Type := spec_float.

Definition zero : t := S754_zero false.                     (* 0.0f *)
Definition one : t := S754_finite false 8388608 (-23)%Z.    (* 1.0f *)
Definition two : t := S754_finite false 8388608 (-22)%Z.    (* 2.0f *)
Definition minus_one : t := S754_finite true 8388608 (-23)%Z. (* -1.0f *)
Definition half : t := S754_finite false 8388608 (-24)%Z.   (* 0.5f *)
Definition default_volume : t := S754_finite false 13421773 (-24)%Z. (* 0.8f *)

Definition mul (x y : t) : t := SFmul prec emax x y.
Definition ltb (x y : t) : bool := SFltb x y.
Definition leb (x y : t) : bool := SFleb x y.

Definition is_nan (x : t) : bool :=
  match x with S754_nan => true | _ => false end.

(** [std::max(a, b)] and [std::min(a, b)] of <algorithm>. *)
Definition max (a b : t) : t := if ltb a b then b else a.
Definition min (a b : t) : t := if ltb b a then b else a.

(** [std::clamp(v, lo, hi)]: [std::min(std::max(v, lo), hi)]. *)
Definition clamp (v lo hi : t) : t := min (max v lo) hi.

(** The [float] with a given bit pattern: sign, eight exponent bits, 23
    fraction bits. *)
Definition of_bits (bits : N) : t :=
  let sign := N.testbit bits 31 in
  let expo := N.land (N.shiftr bits 23) 255 in
  let frac := N.land bits 8388607 in
  if expo =? 0
  then match frac with
       | N0 => S754_zero sign
       | Npos m => S754_finite sign m (-149)%Z
       end
  else if expo =? 255
  then (if frac =? 0 then S754_infinity sign else S754_nan)
  else match 8388608 + frac with
       | N0 => S754_nan
       | Npos m => S754_finite sign m (Z.of_N expo - 150)%Z
       end.

(** The [float] stored in four consecutive bytes (little-endian, as on the
    x86 and ARM targets of the ALSA back end). *)
Definition of_bytes (b0 b1 b2 b3 : Byte.byte) : t :=
  of_bits (Byte.to_N b0 + 256 * Byte.to_N b1 + 65536 * Byte.to_N b2
           + 16777216 * Byte.to_N b3).

End F32.

(** ** Shared enums and results (soda.hpp) *)

Inductive PlaybackState : Type := Stopped | Playing | Paused | Buffering.
Inductive RepeatMode : Type := Off | One | All.

Inductive AudioFormat : Type := Unknown | MP3 | M4A | FLAC | OGG | OPUS | WAV.

Definition PlaybackState_eqb (a b : PlaybackState) : bool :=
  match a, b with
  | Stopped, Stopped | Playing, Playing | Paused, Paused
  | Buffering, Buffering => true
  | _, _ => false
  end.

(** [Result<void>]: success, or failure with its message. *)
Inductive Result : Type :=
| Success
| Failure (message : string).

Definition ok (r : Result) : bool :=
  match r with Success => true | Failure _ => false end.

(** [Duration = std::chrono::milliseconds]: a signed 64-bit count. *)
Definition Duration : Type := Z.

(** Conversion of a [uint64_t] to the [int64_t] representation. *)
Definition to_int64 (n : N) : Z :=
  let z := Z.of_N (SizeT.wrap n) in
  if (z <? 2 ^ 63)%Z then z else (z - 2 ^ 64)%Z.

(** Unsigned division; a zero divisor is undefined behaviour. *)
Definition udiv (a b : N) : res N :=
  if b =? 0 then UB else Ok (a / b).

(** ** Events (soda.hpp, event_bus.cpp) *)

Inductive EventType : Type :=
| PlaybackStarted | PlaybackPaused | PlaybackStopped | PlaybackProgress
| TrackChanged | QueueChanged | VolumeChanged | ErrorEvent.

Inductive EventData : Type :=
| NoData
| TrackData (track : TrackInfo)
| FloatData (value : F32.t)
| StringData (text : string).

Record Event : Type := mkEvent { type : EventType; data : EventData }.

Module EventBus.

(** What the bus has delivered to its subscribers ([publish]) and what
    waits in [eventQueue_] ([publishAsync]), oldest first. *)
Record t : Type := mk {
  delivered : list Event;
  eventQueue_ : list Event
}.

Definition publish (ev : Event) (b : t) : t :=
  mk (delivered b ++ [ev]) (eventQueue_ b).

Definition publishAsync (ev : Event) (b : t) : t :=
  mk (delivered b) (eventQueue_ b ++ [ev]).

Definition emitPlaybackStarted (tr : TrackInfo) : t -> t :=
  publish (mkEvent PlaybackStarted (TrackData tr)).
Definition emitPlaybackStopped : t -> t :=
  publish (mkEvent PlaybackStopped NoData).
Definition emitTrackChanged (tr : TrackInfo) : t -> t :=
  publish (mkEvent TrackChanged (TrackData tr)).
Definition emitVolumeChanged (volume : F32.t) : t -> t :=
  publish (mkEvent VolumeChanged (FloatData volume)).

Definition emitPlaybackPaused : t -> t :=
  publish (mkEvent PlaybackPaused NoData).

(** [processQueue()]: takes the whole queue, then publishes front to back. *)
Definition processQueue (b : t) : t :=
  fold_left (fun b' ev => publish ev b') (eventQueue_ b) (mk (delivered b) []).

End EventBus.

(** ** EventBus: subscriptions (event_bus.cpp)

    The subscriber table of the bus.  A callback is an external function;
    a subscription is represented by its id and its filter, and a
    [publish] by the ids whose callbacks it calls, in calling order. *)

Definition EventType_eqb (a b : EventType) : bool :=
  match a, b with
  | PlaybackStarted, PlaybackStarted | PlaybackPaused, PlaybackPaused
  | PlaybackStopped, PlaybackStopped | PlaybackProgress, PlaybackProgress
  | TrackChanged, TrackChanged | QueueChanged, QueueChanged
  | VolumeChanged, VolumeChanged | ErrorEvent, ErrorEvent => true
  | _, _ => false
  end.

Module Subscriptions.

Record Subscription : Type := mkSubscription {
  sub_id : N;                        (* SubscriptionId = uint64_t *)
  sub_type : option EventType        (* nullopt means all events *)
}.

Record t : Type := mk {
  subscriptions_ : list Subscription;
  nextId_ : N
}.

(** [nextId_ = 1], no subscriptions. *)
Definition init : t := mk [] 1.

(** [subscribe(type, callback)]: the id returned and the new table. *)
Definition subscribe (ty : EventType) (b : t) : N * t :=
  let id := nextId_ b in
  (id, mk (Vec.push_back (subscriptions_ b) (mkSubscription id (Some ty)))
          (SizeT.inc (nextId_ b))).

Definition subscribeAll (b : t) : N * t :=
  let id := nextId_ b in
  (id, mk (Vec.push_back (subscriptions_ b) (mkSubscription id None))
          (SizeT.inc (nextId_ b))).

(** [erase(remove_if(..., sub.id == id), end())]. *)
Definition unsubscribe (id : N) (b : t) : t :=
  mk (filter (fun sub => negb (sub_id sub =? id)) (subscriptions_ b))
     (nextId_ b).

(** The test of [publish]:
    [!sub.type.has_value() || sub.type.value() == event.type]. *)
Definition accepts (ev : Event) (sub : Subscription) : bool :=
  match sub_type sub with
  | None => true
  | Some ty => EventType_eqb ty (type ev)
  end.

(** [callbacksToCall] of [publish], as subscription ids. *)
Definition callbacksToCall (ev : Event) (b : t) : list N :=
  map sub_id (filter (accepts ev) (subscriptions_ b)).

(** Every id handed out so far is below [nextId_], which has not wrapped. *)
Definition ids_issued (b : t) : Prop :=
  nextId_ b < SizeT.modulus /\
  Forall (fun sub => sub_id sub < nextId_ b) (subscriptions_ b).

End Subscriptions.

(** ** The miniaudio stub (third_party/miniaudio/miniaudio.h)

    The repository carries its own implementation of the miniaudio
    interface.  It reads WAV files itself and hands every other file to
    libsndfile, loaded at run time.  It never looks at the configuration it
    is given ([pConfig]): frames are delivered in the layout of the file,
    not as the interleaved stereo [float] the caller asks for. *)

(** *** C streams *)

Record FILE : Type := mkFILE {
  f_bytes : list Byte.byte;     (* the contents of the file *)
  f_pos : N                     (* the file position indicator *)
}.

(** [fread(ptr, 1, n, f)]: the bytes stored at [ptr], and the stream. *)
Definition fread (n : N) (f : FILE) : list Byte.byte * FILE :=
  let got := firstn (N.to_nat n) (skipn (N.to_nat (f_pos f)) (f_bytes f)) in
  (got, mkFILE (f_bytes f) (f_pos f + N.of_nat (length got))).

(** [fseek(f, offset, SEEK_SET)] with a [long] offset: refused when the
    offset is negative, accepted otherwise, also past the end of the file. *)
Definition fseek (f : FILE) (offset : Z) : option FILE :=
  if (offset <? 0)%Z then None
  else Some (mkFILE (f_bytes f) (Z.to_N offset)).

(** *** libsndfile, as far as the stub calls it

    The library is loaded with [dlopen] and is not part of the repository.
    A handle is represented by the frames the file decodes to (interleaved
    [float]s, [sf_channels] per frame) and the read position in frames;
    [sf_readf_float] and [sf_seek] behave as the library documents them. *)

Record SNDFILE : Type := mkSNDFILE {
  sf_samples : list F32.t;
  sf_channels : N;
  sf_cursor : N
}.

Definition sf_frames (sf : SNDFILE) : N :=
  if sf_channels sf =? 0 then 0
  else N.of_nat (length (sf_samples sf)) / sf_channels sf.

(** [sf_readf_float(sf, ptr, frames)]: the samples stored at [ptr], the
    number of frames read and the handle. *)
Definition sf_readf_float (sf : SNDFILE) (frames : Z)
  : list F32.t * Z * SNDFILE :=
  if (frames <=? 0)%Z then ([], 0%Z, sf)
  else
    let k := N.min (Z.to_N frames) (sf_frames sf - sf_cursor sf) in
    (firstn (N.to_nat (k * sf_channels sf))
            (skipn (N.to_nat (sf_cursor sf * sf_channels sf)) (sf_samples sf)),
     Z.of_N k,
     mkSNDFILE (sf_samples sf) (sf_channels sf) (sf_cursor sf + k)).

(** [sf_seek(sf, frames, SEEK_SET)]: the new position, or -1 when the
    target lies before the start or after the end of the data. *)
Definition sf_seek (sf : SNDFILE) (frames : Z) : Z * SNDFILE :=
  if ((0 <=? frames) && (frames <=? Z.of_N (sf_frames sf)))%Z
  then (frames, mkSNDFILE (sf_samples sf) (sf_channels sf) (Z.to_N frames))
  else ((-1)%Z, sf).

(** What [dlsym] finds in the loaded library. *)
Record sndfile_lib : Type := mk_sndfile_lib {
  sym_sf_readf_float : bool;
  sym_sf_seek : bool
}.

(** *** The decoder *)

(** [ma_decoder_backend].  After a successful [ma_decoder_init_file]
    exactly one of [file] and [sndfile] is set. *)
Record ma_decoder_backend : Type := mk_backend {
  file : option FILE;
  dataOffset : N;
  dataSize : N;
  bytesPerFrame : N;                  (* uint32_t *)
  sndfile : option SNDFILE;
  sndfileLib : sndfile_lib
}.

(** [ma_decoder]; [outputFormat] is written by the stub and read by
    nobody. *)
Record ma_decoder : Type := mk_ma_decoder {
  outputChannels : N;
  outputSampleRate : N;
  pBackend : ma_decoder_backend;
  ma_totalFrameCount : N;
  ma_currentFrame : N;
  ma_atEnd : bool
}.

(** What a read has stored at the start of the caller's buffer: raw bytes
    of the file ([fread]) or samples ([sf_readf_float]). *)
Inductive Written : Type :=
| raw_bytes (bytes : list Byte.byte)
| float_samples (samples : list F32.t).

(** The size of the store, in bytes. *)
Definition written_size (w : Written) : N :=
  match w with
  | raw_bytes bytes => N.of_nat (length bytes)
  | float_samples samples => 4 * N.of_nat (length samples)
  end.

(** The [float]s a byte sequence holds, as [static_cast<float*>] reads them;
    bytes after the last whole [float] are left out. *)
Fixpoint floats_of_bytes (bytes : list Byte.byte) : list F32.t :=
  match bytes with
  | b0 :: ((b1 :: b2 :: b3 :: rest) as tl) =>
      F32.of_bytes b0 b1 b2 b3 :: floats_of_bytes rest
  | _ => []
  end.

(** The [float]s of the buffer after the store, where [output] is what the
    buffer held before: the stored part, then the old contents behind
    it. *)
Definition buffer_view (w : Written) (output : list Byte.byte) : list F32.t :=
  match w with
  | raw_bytes bytes => floats_of_bytes (bytes ++ skipn (length bytes) output)
  | float_samples samples =>
      samples ++ floats_of_bytes (skipn (4 * length samples) output)
  end.

(** The whole [float]s of the store itself. *)
Definition written_floats (w : Written) : list F32.t :=
  match w with
  | raw_bytes bytes => floats_of_bytes bytes
  | float_samples samples => samples
  end.

Definition set_file (b : ma_decoder_backend) (f : option FILE)
  : ma_decoder_backend :=
  mk_backend f (dataOffset b) (dataSize b) (bytesPerFrame b) (sndfile b)
             (sndfileLib b).

Definition set_sndfile (b : ma_decoder_backend) (sf : option SNDFILE)
  : ma_decoder_backend :=
  mk_backend (file b) (dataOffset b) (dataSize b) (bytesPerFrame b) sf
             (sndfileLib b).

(** The two read paths of [ma_decoder_read_pcm_frames]: what is stored at
    [pFramesOut], [framesRead] and the backend.  The WAV path divides by
    [bytesPerFrame]. *)
Definition backend_read (b : ma_decoder_backend) (frameCount : N)
  : res (Written * N * ma_decoder_backend) :=
  match file b with
  | Some f =>
      let bytesToRead := SizeT.wrap (frameCount * bytesPerFrame b) in
      let (got, f') := fread bytesToRead f in
      framesRead <- udiv (N.of_nat (length got)) (bytesPerFrame b) ;;
      Ok (raw_bytes got, framesRead, set_file b (Some f'))
  | None =>
      match sndfile b with
      | Some sf =>
          if sym_sf_readf_float (sndfileLib b)
          then
            let '(samples, n, sf') := sf_readf_float sf (to_int64 frameCount) in
            Ok (float_samples samples, Z.to_N n, set_sndfile b (Some sf'))
          else Ok (float_samples [], 0, b)
      | None => Ok (float_samples [], 0, b)
      end
  end.

(** [ma_decoder_read_pcm_frames(pDecoder, pFramesOut, frameCount,
    &framesRead)]; the result code is not looked at by the caller. *)
Definition ma_decoder_read_pcm_frames (d : ma_decoder) (frameCount : N)
  : res (Written * N * ma_decoder) :=
  r <- backend_read (pBackend d) frameCount ;;
  let '(w, framesRead, b) := r in
  Ok (w, framesRead,
      mk_ma_decoder (outputChannels d) (outputSampleRate d) b
                    (ma_totalFrameCount d)
                    (SizeT.wrap (ma_currentFrame d + framesRead))
                    (ma_atEnd d || (framesRead <? frameCount))).

(** [ma_decoder_seek_to_pcm_frame]: [None] when the result is not
    [MA_SUCCESS].  The WAV path computes the byte offset in [uint64_t] and
    passes it to [fseek] as a [long]. *)
Definition ma_decoder_seek_to_pcm_frame (d : ma_decoder) (frameIndex : N)
  : option ma_decoder :=
  let b := pBackend d in
  let sought (b' : ma_decoder_backend) :=
    Some (mk_ma_decoder (outputChannels d) (outputSampleRate d) b'
                        (ma_totalFrameCount d) frameIndex false) in
  match file b with
  | Some f =>
      let offset :=
        to_int64 (SizeT.wrap (dataOffset b
                              + SizeT.wrap (frameIndex * bytesPerFrame b))) in
      match fseek f offset with
      | Some f' => sought (set_file b (Some f'))
      | None => None
      end
  | None =>
      match sndfile b with
      | Some sf =>
          if sym_sf_seek (sndfileLib b)
          then
            let (pos, sf') := sf_seek sf (to_int64 frameIndex) in
            if (pos <? 0)%Z then None else sought (set_sndfile b (Some sf'))
          else sought b
      | None => sought b
      end
  end.

Definition ma_decoder_get_length_in_pcm_frames (d : ma_decoder) : N :=
  ma_totalFrameCount d.

(** *** The device *)

(** [ma_device]: of the device only the run flag matters to the engine. *)
Record ma_device : Type := mk_ma_device {
  isStarted : bool
}.

(** The environment of the engine: the file system as seen through
    [std::filesystem::exists] and [ma_decoder_init_file] (the decoder a
    successful initialisation leaves, [None] when it fails), whether
    [ma_device_init] can open the sound card, and whether [pthread_create]
    can start the audio thread. *)
Record World : Type := mkWorld {
  exists_ : string -> bool;
  ma_decoder_init_file : string -> option ma_decoder;
  ma_device_init : bool;
  pthread_create : bool
}.

(** [ma_device_start(pDevice)]: the device, and whether the result is
    [MA_SUCCESS].  A null device is refused. *)
Definition ma_device_start (w : World) (pDevice : option ma_device)
  : option ma_device * bool :=
  match pDevice with
  | None => (None, false)
  | Some dev =>
      if isStarted dev then (pDevice, true)
      else if pthread_create w then (Some (mk_ma_device true), true)
      else (pDevice, false)
  end.

(** [ma_device_stop(pDevice)]; the callers ignore the result. *)
Definition ma_device_stop (pDevice : option ma_device) : option ma_device :=
  match pDevice with
  | None => None
  | Some dev =>
      if negb (isStarted dev) then pDevice else Some (mk_ma_device false)
  end.

(** ** AudioDecoder (audio_decoder.hpp, audio_decoder.cpp) *)

Module AudioDecoder.

Import SizeT.

Record t : Type := mk {
  decoder_ : option ma_decoder;       (* nullptr = None *)
  isOpen_ : bool;
  isStreaming_ : bool;
  totalFrames_ : N;
  currentFrame_ : N;
  sampleRate_ : N;                    (* uint32_t *)
  channels_ : N
}.

(** Default member initialisers. *)
Definition init : t := mk None false false 0 0 44100 2.

Definition isOpen (d : t) : bool := isOpen_ d.
Definition totalFrames (d : t) : N := totalFrames_ d.
Definition currentFrame (d : t) : N := currentFrame_ d.
Definition sampleRate (d : t) : N := sampleRate_ d.

Definition close (d : t) : t :=
  mk None false false 0 0 (sampleRate_ d) (channels_ d).

Definition openWithMiniaudio (w : World) (path : string) (d : t) : t * Result :=
  match ma_decoder_init_file w path with
  | None => (mk None (isOpen_ d) (isStreaming_ d) (totalFrames_ d)
                (currentFrame_ d) (sampleRate_ d) (channels_ d),
             Failure "Failed to open audio file")
  | Some dec =>
      (mk (Some dec) true false (ma_decoder_get_length_in_pcm_frames dec) 0
          (outputSampleRate dec) (outputChannels dec),
       Success)
  end.

Definition open (w : World) (path : string) (d : t) : t * Result :=
  let d1 := close d in
  if negb (exists_ w path)
  then (d1, Failure ("File not found: " ++ path))
  else openWithMiniaudio w path d1.

Definition openUrl (url : string) (d : t) : t * Result :=
  (d, Failure "URL streaming not yet implemented").

(** [readFrames(output, frameCount)]: what has been stored at [output],
    the frame count returned and the new state. *)
Definition readFrames (d : t) (frameCount : N) : res (Written * N * t) :=
  match isOpen_ d, decoder_ d with
  | true, Some dec =>
      r <- ma_decoder_read_pcm_frames dec frameCount ;;
      let '(w, framesRead, dec') := r in
      Ok (w, framesRead,
          mk (Some dec') (isOpen_ d) (isStreaming_ d) (totalFrames_ d)
             (wrap (currentFrame_ d + framesRead)) (sampleRate_ d)
             (channels_ d))
  | _, _ => Ok (float_samples [], 0, d)
  end.

Definition seek (d : t) (frameIndex : N) : t * bool :=
  match isOpen_ d, decoder_ d with
  | true, Some dec =>
      match ma_decoder_seek_to_pcm_frame dec frameIndex with
      | Some dec' =>
          (mk (Some dec') (isOpen_ d) (isStreaming_ d) (totalFrames_ d)
              frameIndex (sampleRate_ d) (channels_ d), true)
      | None => (d, false)
      end
  | _, _ => (d, false)
  end.

Definition duration (d : t) : res Duration :=
  if sampleRate_ d =? 0 then Ok 0%Z
  else
    ms <- udiv (wrap (totalFrames_ d * 1000)) (sampleRate_ d) ;;
    Ok (to_int64 ms).

Definition position (d : t) : res Duration :=
  if sampleRate_ d =? 0 then Ok 0%Z
  else
    ms <- udiv (wrap (currentFrame_ d * 1000)) (sampleRate_ d) ;;
    Ok (to_int64 ms).

(** [::tolower] on the characters of a [std::string] (C locale): the
    upper-case ASCII letters are mapped, every other character is kept. *)
Definition tolower (c : ascii) : ascii :=
  let n := N_of_ascii c in
  if (65 <=? n) && (n <=? 90) then ascii_of_N (n + 32) else c.

(** [std::transform(s.begin(), s.end(), s.begin(), ::tolower)]. *)
Fixpoint lowercase (s : string) : string :=
  match s with
  | EmptyString => EmptyString
  | String c s' => String (tolower c) (lowercase s')
  end.

(** [detectFormat(filePath)], as a function of
    [filePath.extension().string()]. *)
Definition detectFormat (extension : string) : AudioFormat :=
  let ext := lowercase extension in
  if String.eqb ext ".mp3" then MP3
  else if String.eqb ext ".m4a" || String.eqb ext ".aac" then M4A
  else if String.eqb ext ".flac" then FLAC
  else if String.eqb ext ".ogg" || String.eqb ext ".oga" then OGG
  else if String.eqb ext ".opus" then OPUS
  else if String.eqb ext ".wav" || String.eqb ext ".wave" then WAV
  else Unknown.

Definition formatToString (format : AudioFormat) : string :=
  match format with
  | MP3 => "MP3"
  | M4A => "M4A"
  | FLAC => "FLAC"
  | OGG => "OGG"
  | OPUS => "OPUS"
  | WAV => "WAV"
  | Unknown => "Unknown"
  end.

Definition stringToFormat (str : string) : AudioFormat :=
  let lower := lowercase str in
  if String.eqb lower "mp3" then MP3
  else if String.eqb lower "m4a" || String.eqb lower "aac" then M4A
  else if String.eqb lower "flac" then FLAC
  else if String.eqb lower "ogg" || String.eqb lower "oga" then OGG
  else if String.eqb lower "opus" then OPUS
  else if String.eqb lower "wav" || String.eqb lower "wave" then WAV
  else Unknown.

End AudioDecoder.

(** ** AudioEngine (audio_engine.hpp, audio_engine.cpp) *)

Module AudioEngine.

Import SizeT.

Record t : Type := mk {
  eventBus_ : EventBus.t;
  queue_ : Queue.t;
  decoder_ : AudioDecoder.t;
  device_ : option ma_device;         (* nullptr = None *)
  state_ : PlaybackState;
  volume_ : F32.t;
  currentFrame_ : N;
  totalFrames_ : N;
  repeatMode_ : RepeatMode;
  shuffle_ : bool;
  currentTrack_ : option TrackInfo;
  audioDataCallback_ : bool;          (* a visualizer tap is installed *)
  tapped : list (list F32.t * N * N); (* what the tap was handed *)
  progressRunning_ : bool;
  initialized_ : bool
}.

(** [AudioEngine(eventBus)], over a queue with engine state [g]. *)
Definition init (g : Rng) : t :=
  mk (EventBus.mk [] []) (Queue.empty g) AudioDecoder.init None Stopped
     F32.default_volume 0 0 Off false None false [] false false.

Definition set_eventBus (e : t) (b : EventBus.t) : t :=
  mk b (queue_ e) (decoder_ e) (device_ e) (state_ e) (volume_ e)
     (currentFrame_ e) (totalFrames_ e) (repeatMode_ e) (shuffle_ e)
     (currentTrack_ e) (audioDataCallback_ e) (tapped e)
     (progressRunning_ e) (initialized_ e).
Definition set_queue (e : t) (q : Queue.t) : t :=
  mk (eventBus_ e) q (decoder_ e) (device_ e) (state_ e) (volume_ e)
     (currentFrame_ e) (totalFrames_ e) (repeatMode_ e) (shuffle_ e)
     (currentTrack_ e) (audioDataCallback_ e) (tapped e)
     (progressRunning_ e) (initialized_ e).
Definition set_decoder (e : t) (d : AudioDecoder.t) : t :=
  mk (eventBus_ e) (queue_ e) d (device_ e) (state_ e) (volume_ e)
     (currentFrame_ e) (totalFrames_ e) (repeatMode_ e) (shuffle_ e)
     (currentTrack_ e) (audioDataCallback_ e) (tapped e)
     (progressRunning_ e) (initialized_ e).
Definition set_device (e : t) (dev : option ma_device) : t :=
  mk (eventBus_ e) (queue_ e) (decoder_ e) dev (state_ e) (volume_ e)
     (currentFrame_ e) (totalFrames_ e) (repeatMode_ e) (shuffle_ e)
     (currentTrack_ e) (audioDataCallback_ e) (tapped e)
     (progressRunning_ e) (initialized_ e).
Definition set_state (e : t) (s : PlaybackState) : t :=
  mk (eventBus_ e) (queue_ e) (decoder_ e) (device_ e) s (volume_ e)
     (currentFrame_ e) (totalFrames_ e) (repeatMode_ e) (shuffle_ e)
     (currentTrack_ e) (audioDataCallback_ e) (tapped e)
     (progressRunning_ e) (initialized_ e).
Definition set_volume (e : t) (v : F32.t) : t :=
  mk (eventBus_ e) (queue_ e) (decoder_ e) (device_ e) (state_ e) v
     (currentFrame_ e) (totalFrames_ e) (repeatMode_ e) (shuffle_ e)
     (currentTrack_ e) (audioDataCallback_ e) (tapped e)
     (progressRunning_ e) (initialized_ e).
Definition set_currentFrame (e : t) (n : N) : t :=
  mk (eventBus_ e) (queue_ e) (decoder_ e) (device_ e) (state_ e)
     (volume_ e) n (totalFrames_ e) (repeatMode_ e) (shuffle_ e)
     (currentTrack_ e) (audioDataCallback_ e) (tapped e)
     (progressRunning_ e) (initialized_ e).
Definition set_totalFrames (e : t) (n : N) : t :=
  mk (eventBus_ e) (queue_ e) (decoder_ e) (device_ e) (state_ e)
     (volume_ e) (currentFrame_ e) n (repeatMode_ e) (shuffle_ e)
     (currentTrack_ e) (audioDataCallback_ e) (tapped e)
     (progressRunning_ e) (initialized_ e).
Definition set_currentTrack (e : t) (tr : option TrackInfo) : t :=
  mk (eventBus_ e) (queue_ e) (decoder_ e) (device_ e) (state_ e)
     (volume_ e) (currentFrame_ e) (totalFrames_ e) (repeatMode_ e)
     (shuffle_ e) tr (audioDataCallback_ e) (tapped e)
     (progressRunning_ e) (initialized_ e).
Definition set_tapped (e : t) (l : list (list F32.t * N * N)) : t :=
  mk (eventBus_ e) (queue_ e) (decoder_ e) (device_ e) (state_ e)
     (volume_ e) (currentFrame_ e) (totalFrames_ e) (repeatMode_ e)
     (shuffle_ e) (currentTrack_ e) (audioDataCallback_ e) l
     (progressRunning_ e) (initialized_ e).
Definition set_progressRunning (e : t) (b : bool) : t :=
  mk (eventBus_ e) (queue_ e) (decoder_ e) (device_ e) (state_ e)
     (volume_ e) (currentFrame_ e) (totalFrames_ e) (repeatMode_ e)
     (shuffle_ e) (currentTrack_ e) (audioDataCallback_ e) (tapped e)
     b (initialized_ e).
Definition set_initialized (e : t) (b : bool) : t :=
  mk (eventBus_ e) (queue_ e) (decoder_ e) (device_ e) (state_ e)
     (volume_ e) (currentFrame_ e) (totalFrames_ e) (repeatMode_ e)
     (shuffle_ e) (currentTrack_ e) (audioDataCallback_ e) (tapped e)
     (progressRunning_ e) b.

(** [setRepeatMode(mode)]. *)
Definition setRepeatMode (mode : RepeatMode) (e : t) : t :=
  mk (eventBus_ e) (queue_ e) (decoder_ e) (device_ e) (state_ e)
     (volume_ e) (currentFrame_ e) (totalFrames_ e) mode (shuffle_ e)
     (currentTrack_ e) (audioDataCallback_ e) (tapped e)
     (progressRunning_ e) (initialized_ e).

Definition state (e : t) : PlaybackState := state_ e.

(** Whether the audio thread of the device runs. *)
Definition deviceStarted (e : t) : bool :=
  match device_ e with
  | Some dev => isStarted dev
  | None => false
  end.
Definition volume (e : t) : F32.t := volume_ e.

(** The progress thread is represented by its run flag. *)
Definition startProgressTimer (e : t) : t :=
  if progressRunning_ e then e else set_progressRunning e true.
Definition stopProgressTimer (e : t) : t :=
  if negb (progressRunning_ e) then e else set_progressRunning e false.

(** [std::memset(p, 0, bytes)] over [float]s: the zero samples written. *)
Definition memset_zero (bytes : N) : list F32.t :=
  repeat F32.zero (N.to_nat (bytes / 4)).

Definition stop (e : t) : t * Result :=
  if PlaybackState_eqb (state_ e) Stopped then (e, Success)
  else
    let e1 := set_device e (ma_device_stop (device_ e)) in
    let e2 := set_decoder e1 (AudioDecoder.close (decoder_ e1)) in
    let e3 := set_state e2 Stopped in
    let e4 := set_totalFrames (set_currentFrame e3 0) 0 in
    let e5 := stopProgressTimer e4 in
    let e6 := set_currentTrack e5 None in
    (set_eventBus e6 (EventBus.emitPlaybackStopped (eventBus_ e6)), Success).

Definition playTrack (w : World) (tr : TrackInfo) (e : t) : t * Result :=
  let e1 := set_device e (ma_device_stop (device_ e)) in
  let e2 := set_decoder e1 (AudioDecoder.close (decoder_ e1)) in
  let (d1, r1) := AudioDecoder.open w (filePath tr) (decoder_ e2) in
  let (d2, r2) :=
    if negb (ok r1)
    then (if negb (String.eqb (sourceId tr) "")
          then AudioDecoder.openUrl (sourceId tr) d1
          else (d1, r1))
    else (d1, r1) in
  let e3 := set_decoder e2 d2 in
  if negb (ok r2) then (e3, r2)
  else
    let e4 := set_totalFrames e3 (AudioDecoder.totalFrames (decoder_ e3)) in
    let e5 := set_currentFrame e4 0 in
    let e6 := set_currentTrack e5 (Some tr) in
    let (dev, started) := ma_device_start w (device_ e6) in
    if negb started
    then (set_device e6 dev, Failure "Failed to start audio device")
    else
      let e7 := set_state (set_device e6 dev) Playing in
      let e8 := startProgressTimer e7 in
      let b1 := EventBus.emitTrackChanged tr (eventBus_ e8) in
      (set_eventBus e8 (EventBus.emitPlaybackStarted tr b1), Success).

Definition playNext (w : World) (e : t) : res (t * Result) :=
  r <- Queue.next (queue_ e) ;;
  let e1 := set_queue e (fst r) in
  match snd r with
  | Some tr => Ok (playTrack w tr e1)
  | None => Ok (fst (stop e1), Success)
  end.

Definition playPrevious (w : World) (e : t) : res (t * Result) :=
  r <- Queue.previous (queue_ e) ;;
  let e1 := set_queue e (fst r) in
  match snd r with
  | Some tr => Ok (playTrack w tr e1)
  | None => Ok (e1, Success)
  end.

Definition position (e : t) : res Duration :=
  if AudioDecoder.sampleRate (decoder_ e) =? 0 then Ok 0%Z
  else
    ms <- udiv (wrap (currentFrame_ e * 1000))
               (AudioDecoder.sampleRate (decoder_ e)) ;;
    Ok (to_int64 ms).

Definition duration (e : t) : res Duration :=
  if AudioDecoder.sampleRate (decoder_ e) =? 0 then Ok 0%Z
  else
    ms <- udiv (wrap (totalFrames_ e * 1000))
               (AudioDecoder.sampleRate (decoder_ e)) ;;
    Ok (to_int64 ms).

Definition setVolume (v : F32.t) (e : t) : t :=
  let e1 := set_volume e (F32.clamp v F32.zero F32.one) in
  set_eventBus e1 (EventBus.emitVolumeChanged (volume_ e1) (eventBus_ e1)).

Definition onTrackEnded (e : t) : res t :=
  match repeatMode_ e with
  | One =>
      let e1 := set_decoder e (fst (AudioDecoder.seek (decoder_ e) 0)) in
      Ok (set_currentFrame e1 0)
  | mode =>
      r <- Queue.next (queue_ e) ;;
      let e1 := set_queue e (fst r) in
      match snd r with
      | Some tr =>
          Ok (set_eventBus e1
                (EventBus.publishAsync (mkEvent TrackChanged (TrackData tr))
                                       (eventBus_ e1)))
      | None =>
          match mode, Queue.isEmpty (queue_ e1) with
          | All, false =>
              let e2 := set_queue e1 (Queue.jumpTo 0 (queue_ e1)) in
              cur <- Queue.current (queue_ e2) ;;
              match cur with
              | Some tr =>
                  Ok (set_eventBus e2
                        (EventBus.publishAsync
                           (mkEvent TrackChanged (TrackData tr))
                           (eventBus_ e2)))
              | None => Ok e2
              end
          | _, _ =>
              let e2 := set_state e1 Stopped in
              Ok (set_eventBus e2
                    (EventBus.publishAsync (mkEvent PlaybackStopped NoData)
                                           (eventBus_ e2)))
          end
      end
  end.

(** The output buffer of the callback.  [output] points to room for
    [frameCount] stereo [float] frames (the audio thread of the stub
    allocates [1024 * channels * sizeof(float)] bytes for 1024 frames); the
    argument [output] of the model is what that room holds on entry, from
    its first byte on.  Storing more than the room takes, and reading a
    [float] that neither this call nor an earlier one has stored, are
    undefined behaviour. *)
Definition capacity (frameCount : N) : N := 8 * frameCount.

(** [out[0 .. count)] after the store [w]. *)
Definition load_samples (w : Written) (output : list Byte.byte) (count : N)
  : res (list F32.t) :=
  let view := buffer_view w output in
  if count <=? N.of_nat (length view)
  then Ok (firstn (N.to_nat count) view)
  else UB.

(** The part of [audioCallback] that runs while playing, up to the
    end-of-track test: read, count, scale, zero-fill, tap.  Returns the new
    state and the samples [out[0 .. 2 * frameCount)] it leaves. *)
Definition render (e : t) (output : list Byte.byte) (frameCount : N)
  : res (t * list F32.t) :=
  r <- AudioDecoder.readFrames (decoder_ e) frameCount ;;
  let '(w, framesRead, d1) := r in
  if capacity frameCount <? written_size w then UB
  else
    let e1 := set_decoder e d1 in
    let e2 := set_currentFrame e1 (wrap (currentFrame_ e1 + framesRead)) in
    let vol := volume_ e2 in
    samples <- load_samples w output (wrap (framesRead * 2)) ;;
    let scaled := map (fun s => F32.mul s vol) samples in
    let out :=
      if framesRead <? frameCount
      then scaled
           ++ memset_zero (wrap (wrap ((frameCount - framesRead) * 2) * 4))
      else scaled in
    let e3 :=
      if audioDataCallback_ e2
      then set_tapped e2 (tapped e2 ++ [(out, framesRead, 2)])
      else e2 in
    Ok (e3, out).

(** [audioCallback(output, frameCount)]: the new state and the samples
    [out[0 .. 2 * frameCount)] left in the buffer. *)
Definition audioCallback (e : t) (output : list Byte.byte) (frameCount : N)
  : res (t * list F32.t) :=
  if negb (PlaybackState_eqb (state_ e) Playing)
     || negb (AudioDecoder.isOpen (decoder_ e))
  then Ok (e, memset_zero (wrap (wrap (frameCount * 2) * 4)))
  else
    r <- render e output frameCount ;;
    let (e1, out) := r in
    if AudioDecoder.totalFrames (decoder_ e1)
       <=? AudioDecoder.currentFrame (decoder_ e1)
    then e2 <- onTrackEnded e1 ;; Ok (e2, out)
    else Ok (e1, out).

(** [initialize()]: allocates and opens the device. *)
Definition initialize (w : World) (e : t) : t * Result :=
  if initialized_ e then (e, Success)
  else if negb (ma_device_init w)
  then (set_device e None, Failure "Failed to initialize audio device")
  else (set_initialized (set_device e (Some (mk_ma_device false))) true,
        Success).

(** [shutdown()]. *)
Definition shutdown (e : t) : t :=
  let e1 := stopProgressTimer (fst (stop e)) in
  let e2 := set_device e1 None in
  let e3 := set_decoder e2 (AudioDecoder.close (decoder_ e2)) in
  set_initialized e3 false.

(** The tail of [play()]: start the device, enter [Playing], start the
    timer, announce the current track. *)
Definition play_start (w : World) (e : t) : t * Result :=
  let (dev, started) := ma_device_start w (device_ e) in
  if negb started
  then (set_device e dev, Failure "Failed to start audio device")
  else
    let e1 := set_state (set_device e dev) Playing in
    let e2 := startProgressTimer e1 in
    match currentTrack_ e2 with
    | Some tr =>
        (set_eventBus e2 (EventBus.emitPlaybackStarted tr (eventBus_ e2)),
         Success)
    | None => (e2, Success)
    end.

Definition play (w : World) (e : t) : res (t * Result) :=
  if negb (initialized_ e)
  then Ok (e, Failure "Audio engine not initialized")
  else if PlaybackState_eqb (state_ e) Playing then Ok (e, Success)
  else if PlaybackState_eqb (state_ e) Stopped
  then
    cur <- Queue.current (queue_ e) ;;
    match cur with
    | Some tr =>
        let (e1, result) := playTrack w tr e in
        if negb (ok result) then Ok (e1, result) else Ok (play_start w e1)
    | None => Ok (e, Failure "Queue is empty")
    end
  else Ok (play_start w e).

Definition pause (e : t) : t * Result :=
  if negb (PlaybackState_eqb (state_ e) Playing) then (e, Success)
  else
    let e1 := set_device e (ma_device_stop (device_ e)) in
    let e2 := set_state e1 Paused in
    let e3 := stopProgressTimer e2 in
    (set_eventBus e3 (EventBus.emitPlaybackPaused (eventBus_ e3)), Success).

Definition togglePlayPause (w : World) (e : t) : res (t * Result) :=
  if PlaybackState_eqb (state_ e) Playing then Ok (pause e) else play w e.

(** [seek(position)].  [position.count()] is an [int64_t]; its product with
    the [uint32_t] sample rate is computed in [int64_t], where overflow is
    undefined behaviour; the quotient is converted to [uint64_t]. *)
Definition seek (position : Duration) (e : t) : res (t * Result) :=
  if negb (AudioDecoder.isOpen (decoder_ e))
  then Ok (e, Failure "No track loaded")
  else
    let product :=
      (position * Z.of_N (AudioDecoder.sampleRate (decoder_ e)))%Z in
    if ((product <? - 2 ^ 63) || (2 ^ 63 <=? product))%Z then UB
    else
      let frame := Z.to_N ((Z.quot product 1000) mod 2 ^ 64)%Z in
      let (d1, done) := AudioDecoder.seek (decoder_ e) frame in
      if done
      then Ok (set_currentFrame (set_decoder e d1) frame, Success)
      else Ok (set_decoder e d1, Failure "Seek failed").

Definition playUrl (w : World) (url : string) (e : t) : t * Result :=
  let e1 := set_device e (ma_device_stop (device_ e)) in
  let e2 := set_decoder e1 (AudioDecoder.close (decoder_ e1)) in
  let (d1, result) := AudioDecoder.openUrl url (decoder_ e2) in
  let e3 := set_decoder e2 d1 in
  if negb (ok result) then (e3, result)
  else
    let e4 := set_totalFrames e3 (AudioDecoder.totalFrames (decoder_ e3)) in
    let e5 := set_currentFrame e4 0 in
    let (dev, started) := ma_device_start w (device_ e5) in
    if negb started
    then (set_device e5 dev, Failure "Failed to start audio device")
    else (startProgressTimer (set_state (set_device e5 dev) Playing),
          Success).

End AudioEngine.

(** ** Worked states and the statements under test *)

(** Three tracks added to a fresh queue: the fixture of [test_queue.cpp]. *)
Definition three (t0 t1 t2 : TrackInfo) (g : Rng) : Queue.t :=
  Queue.add t2 (Queue.add t1 (Queue.add t0 (Queue.empty g))).

(** A shuffled three-track queue reached through the public interface; the
    tape makes the first shuffle produce the order [0; 2; 1] and leaves the
    raw value [0] for the next draw. *)
Definition shuffled_abc : res Queue.t :=
  Queue.run [Queue.Add trA; Queue.Add trB; Queue.Add trC; Queue.Shuffle]
            (Queue.empty [1; 1; 0]).

Definition shuffled_abc_state : Queue.t :=
  Queue.mk [trA; trB; trC] [0; 2; 1] [] 0 true [0].

(** "Removing the entry at [index], which is not the current track (by id),
    leaves [current()] naming the same track." *)
Definition removal_keeps_current (q : Queue.t) (index : N) : Prop :=
  forall cur removed,
    Queue.current q = Ok (Some cur) ->
    Vec.at_ (Queue.tracks_ q) index = Ok removed ->
    id removed <> id cur ->
    exists cur', Queue.current (Queue.remove index q) = Ok (Some cur')
                 /\ id cur' = id cur.

(** "[next()] at the last position returns [nullopt] and leaves the whole
    queue state unchanged." *)
Definition next_at_end_is_noop (q : Queue.t) : Prop :=
  Queue.isEmpty q = false ->
  Vec.size (Queue.tracks_ q) <= SizeT.inc (Queue.currentIndex_ q) ->
  Queue.next q = Ok (q, None).

(** The bytes of [0.5f] and of [1.0f]. *)
Definition bytes_half : list Byte.byte := [x00; x00; x00; x3f].
Definition bytes_one : list Byte.byte := [x00; x00; x80; x3f].

Definition no_sndfile : sndfile_lib := mk_sndfile_lib false false.

(** The decoder [ma_decoder_init_file] leaves on a WAV file at 44.1 kHz
    with a 44-byte header: [channels] and [frameBytes] as its format chunk
    gives them, [size] as its data chunk announces, [data] behind the
    header. *)
Definition wav_decoder (channels frameBytes size : N) (data : list Byte.byte)
  : ma_decoder :=
  mk_ma_decoder channels 44100
    (mk_backend (Some (mkFILE (repeat x00 44 ++ data) 44)) 44 size frameBytes
                None no_sndfile)
    (size / frameBytes) 0 false.

(** Two frames of stereo [float] in a file whose data chunk announces no
    length (as a streaming encoder writes it): the decoder reports 0
    frames. *)
Definition two_frames : ma_decoder :=
  wav_decoder 2 8 0 (bytes_half ++ bytes_one ++ bytes_one ++ bytes_half).

(** Two frames of mono [float]: 0.5 and 1.0. *)
Definition mono_frames : ma_decoder :=
  wav_decoder 1 4 8 (bytes_half ++ bytes_one).

(** A world in which every locator opens [two_frames] and the device
    works, the engine [initialize()] gives there, and the engine obtained
    from it by [playTrack] on the three-track queue. *)
Definition streaming_world : World :=
  mkWorld (fun _ => true) (fun _ => Some two_frames) true true.

Definition initialized_engine (g : Rng) : AudioEngine.t :=
  fst (AudioEngine.initialize streaming_world (AudioEngine.init g)).

Definition streaming_engine : AudioEngine.t :=
  fst (AudioEngine.playTrack streaming_world trA
         (AudioEngine.set_queue (initialized_engine [])
                                (three trA trB trC []))).

(** A world with two files beside: two frames of mono [float], and one
    frame of four-channel [float]; the engines playing them. *)
Definition mono_track : TrackInfo :=
  mkTrack "m" "Mono" "Test Artist" "mono.wav" "".

Definition quad_track : TrackInfo :=
  mkTrack "q" "Quad" "Test Artist" "quad.wav" "".

Definition quad_frames : ma_decoder :=
  wav_decoder 4 16 16 (bytes_half ++ bytes_one ++ bytes_one ++ bytes_half).

Definition files_world : World :=
  mkWorld (fun path => String.eqb path "mono.wav"
                       || String.eqb path "quad.wav")
          (fun path => if String.eqb path "mono.wav" then Some mono_frames
                       else if String.eqb path "quad.wav" then Some quad_frames
                       else None)
          true true.

Definition mono_engine : AudioEngine.t :=
  fst (AudioEngine.playTrack files_world mono_track
         (AudioEngine.set_queue (initialized_engine [])
                                (Queue.add mono_track (Queue.empty [])))).

Definition quad_engine : AudioEngine.t :=
  fst (AudioEngine.playTrack files_world quad_track
         (AudioEngine.set_queue (initialized_engine [])
                                (Queue.add quad_track (Queue.empty [])))).

(** A world without files. *)
Definition empty_world : World :=
  mkWorld (fun _ => false) (fun _ => None) true true.

(** An open session on a WAV file that announces two seconds of stereo
    [float] at 44.1 kHz, one second in, and the same session reporting an
    unknown sample rate. *)
Definition two_seconds_file (rate : N) : ma_decoder :=
  mk_ma_decoder 2 rate
    (mk_backend (Some (mkFILE (repeat x00 44) 352844)) 44 705600 8
                None no_sndfile)
    88200 44100 false.

Definition two_seconds : AudioDecoder.t :=
  AudioDecoder.mk (Some (two_seconds_file 44100))
                  true false 88200 44100 44100 2.

Definition unknown_rate : AudioDecoder.t :=
  AudioDecoder.mk (Some (two_seconds_file 0))
                  true false 88200 44100 0 2.

(** The width in bytes of the frames a decoder stores: the frame size of
    the WAV file, or [sf_channels] [float]s. *)
Definition frame_bytes (d : ma_decoder) : N :=
  match file (pBackend d), sndfile (pBackend d) with
  | Some _, _ => bytesPerFrame (pBackend d)
  | None, Some sf => 4 * sf_channels sf
  | None, None => 0
  end.

(** The frames of the open session are between 1 and 8 bytes wide. *)
Definition frames_fit (d : AudioDecoder.t) : Prop :=
  forall dec, AudioDecoder.decoder_ d = Some dec ->
              1 <= frame_bytes dec <= 8.

(** The frames of the open session are 8 bytes wide: the size of a stereo
    [float] frame. *)
Definition frames_fill (d : AudioDecoder.t) : Prop :=
  forall dec, AudioDecoder.decoder_ d = Some dec -> frame_bytes dec = 8.

(** What [readFrames] stores for the callback, and its frame count. *)
Definition stored (e : AudioEngine.t) (frameCount : N) : res Written :=
  r <- AudioDecoder.readFrames (AudioEngine.decoder_ e) frameCount ;;
  Ok (fst (fst r)).

Definition framesRead (e : AudioEngine.t) (frameCount : N) : res N :=
  r <- AudioDecoder.readFrames (AudioEngine.decoder_ e) frameCount ;;
  Ok (snd (fst r)).

(** The range of [ma_uint32], the type in which the device passes
    [frameCount] to the callback wrapper. *)
Definition uint32_max : N := 2 ^ 32.

(** * Properties *)

(** ** Machine arithmetic *)

Lemma modulus_value : SizeT.modulus = 18446744073709551616.
Proof. reflexivity. Qed.

Lemma uint32_max_value : uint32_max = 4294967296.
Proof. reflexivity. Qed.

Lemma wrap_small (n : N) : n < SizeT.modulus -> SizeT.wrap n = n.
Proof. intro H. unfold SizeT.wrap. now apply N.mod_small. Qed.

Lemma inc_small (n : N) : n + 1 < SizeT.modulus -> SizeT.inc n = n + 1.
Proof. intro H. unfold SizeT.inc. now apply wrap_small. Qed.

Lemma dec_small (n : N) :
  0 < n -> n < SizeT.modulus -> SizeT.dec n = n - 1.
Proof.
  intros Hpos Hlt. unfold SizeT.dec, SizeT.wrap.
  replace (n + (SizeT.modulus - 1)) with ((n - 1) + 1 * SizeT.modulus).
  - rewrite N.Div0.mod_add. apply N.mod_small. lia.
  - unfold SizeT.modulus in *. lia.
Qed.

(** ** Vectors *)

Section VecFacts.

Context {A : Type}.
Implicit Types (v : list A) (i j k : nat) (x : A).

Lemma at_Ok v (n : N) x :
  nth_error v (N.to_nat n) = Some x -> Vec.at_ v n = Ok x.
Proof. unfold Vec.at_. now intros ->. Qed.

Lemma at_in_range v (n : N) :
  n < Vec.size v -> exists x, Vec.at_ v n = Ok x.
Proof.
  unfold Vec.size, Vec.at_. intro H.
  destruct (nth_error v (N.to_nat n)) eqn:E; eauto.
  apply nth_error_None in E. lia.
Qed.

Lemma pop_back_push v x : Vec.pop_back (Vec.push_back v x) = Some (v, x).
Proof.
  unfold Vec.push_back. induction v as [|y v IH]; simpl; [reflexivity|].
  now rewrite IH.
Qed.

Lemma nth_error_erase v i k :
  nth_error (Vec.erase v i) k =
  if (k <? i)%nat then nth_error v k else nth_error v (S k).
Proof.
  unfold Vec.erase. revert i k.
  induction v as [|y v IH]; intros i k.
  - rewrite firstn_nil, skipn_nil. simpl.
    destruct (k <? i)%nat; now destruct k.
  - destruct i as [|i]; simpl.
    + reflexivity.
    + destruct k as [|k]; simpl; [reflexivity|].
      rewrite IH. reflexivity.
Qed.

Lemma length_erase v i :
  (i < length v)%nat -> length (Vec.erase v i) = (length v - 1)%nat.
Proof.
  intro H. unfold Vec.erase.
  rewrite length_app, length_firstn, length_skipn. lia.
Qed.

Lemma length_set v i x : length (Vec.set v i x) = length v.
Proof.
  revert i; induction v as [|y v IH]; intros [|i]; simpl; auto.
Qed.

Lemma nth_error_set_same v i x :
  (i < length v)%nat -> nth_error (Vec.set v i x) i = Some x.
Proof.
  revert i; induction v as [|y v IH]; intros [|i] H; simpl in *;
    try lia; auto. apply IH. lia.
Qed.

Lemma nth_error_set_other v i k x :
  k <> i -> nth_error (Vec.set v i x) k = nth_error v k.
Proof.
  revert i k; induction v as [|y v IH]; intros [|i] [|k] H; simpl;
    auto; try congruence.
Qed.

Lemma length_swap v i j : length (Vec.swap v i j) = length v.
Proof.
  unfold Vec.swap.
  destruct (nth_error v i), (nth_error v j); auto.
  now rewrite !length_set.
Qed.

Lemma nth_error_swap_other v i j k :
  k <> i -> k <> j -> nth_error (Vec.swap v i j) k = nth_error v k.
Proof.
  intros Hi Hj. unfold Vec.swap.
  destruct (nth_error v i), (nth_error v j); auto.
  now rewrite !nth_error_set_other.
Qed.

Lemma nth_error_swap_right v i j x :
  nth_error v i = Some x -> (j < length v)%nat ->
  nth_error (Vec.swap v i j) j = Some x.
Proof.
  intros Hi Hj. unfold Vec.swap. rewrite Hi.
  destruct (nth_error v j) eqn:Ej.
  - apply nth_error_set_same. now rewrite length_set.
  - apply nth_error_None in Ej. lia.
Qed.

Lemma find_if_Some (p : A -> bool) v k :
  Vec.find_if p v = Some k ->
  exists x, nth_error v k = Some x /\ p x = true.
Proof.
  revert k; induction v as [|y v IH]; intros k; simpl; [discriminate|].
  destruct (p y) eqn:Ey.
  - intros [= <-]. exists y. now split.
  - destruct (Vec.find_if p v) as [k'|]; [|discriminate].
    intros [= <-]. simpl. now apply IH.
Qed.

Lemma find_if_exists (p : A -> bool) v k x :
  nth_error v k = Some x -> p x = true ->
  exists k', Vec.find_if p v = Some k'.
Proof.
  revert k; induction v as [|y v IH]; intros k; simpl.
  - now destruct k.
  - intros Hk Hp. destruct (p y) eqn:Ey; [eauto|].
    destruct k as [|k]; simpl in Hk.
    + congruence.
    + destruct (IH _ Hk Hp) as [k' ->]. eauto.
Qed.

End VecFacts.

Lemma length_iota (n : nat) : length (Vec.iota n) = n.
Proof. unfold Vec.iota. now rewrite length_map, length_seq. Qed.

Lemma nth_error_iota (n k : nat) :
  (k < n)%nat -> nth_error (Vec.iota n) k = Some (N.of_nat k).
Proof.
  intro H. unfold Vec.iota.
  rewrite nth_error_map, nth_error_seq.
  destruct (Nat.ltb_spec k n); [reflexivity | lia].
Qed.

(** Unfolds the field updates of a queue and reduces the projections. *)
Ltac qsimpl :=
  unfold Queue.set_tracks, Queue.set_shuffleOrder, Queue.set_history,
    Queue.set_currentIndex, Queue.set_shuffled, Queue.set_rng in *;
  cbn [Queue.tracks_ Queue.shuffleOrder_ Queue.history_ Queue.currentIndex_
       Queue.shuffled_ Queue.rng_] in *.

(** ** Queue: the cursor bound *)

(** [remove(index)] of the current, last entry clamps the cursor to the new
    last entry, or to 0 when the queue becomes empty. *)
Lemma remove_last_current_clamps (q : Queue.t) :
  Vec.size (Queue.tracks_ q) < SizeT.modulus ->
  Queue.shuffled_ q = false ->
  Queue.currentIndex_ q + 1 = Vec.size (Queue.tracks_ q) ->
  Queue.currentIndex_ (Queue.remove (Queue.currentIndex_ q) q)
  = Queue.currentIndex_ q - 1.
Proof.
  intros Hmax Hsh Hlast. unfold Queue.remove.
  destruct (N.leb_spec (Vec.size (Queue.tracks_ q)) (Queue.currentIndex_ q));
    [lia|].
  cbn [Queue.set_tracks Queue.currentIndex_ Queue.tracks_ Queue.shuffled_].
  rewrite N.ltb_irrefl, N.eqb_refl. cbn [andb].
  assert (Hlen : length (Vec.erase (Queue.tracks_ q)
                                   (N.to_nat (Queue.currentIndex_ q)))
                 = (length (Queue.tracks_ q) - 1)%nat).
  { apply length_erase. unfold Vec.size in *. lia. }
  unfold Vec.size in *. rewrite Hlen.
  destruct (N.leb_spec (N.of_nat (length (Queue.tracks_ q) - 1))
                       (Queue.currentIndex_ q)); [|lia].
  unfold Queue.isEmpty, Queue.set_currentIndex, Queue.set_tracks.
  cbn [Queue.tracks_ Queue.shuffled_ Queue.currentIndex_].
  rewrite Hsh.
  destruct (Vec.erase (Queue.tracks_ q) (N.to_nat (Queue.currentIndex_ q)))
    eqn:E; cbn [Queue.currentIndex_].
  - simpl in Hlen. lia.
  - simpl in Hlen. rewrite dec_small; lia.
Qed.

(** C1 (defect).  Starting from the empty queue, [add a; add b; jumpTo(1);
    remove("b")] ends in a non-empty queue whose cursor is past the end:
    [currentIndex = 1 = tracks.size()], and [current()] then reads
    [tracks_[1]] out of range.  The same sequence with [remove(1)] instead,
    the by-index sibling, clamps the cursor to 0. *)
Theorem remove_by_id_leaves_cursor_past_end (g : Rng) :
  (exists q,
      Queue.run [Queue.Add trA; Queue.Add trB; Queue.JumpTo 1;
                 Queue.RemoveId "b"] (Queue.empty g) = Ok q
      /\ Queue.isEmpty q = false
      /\ Queue.size q = 1
      /\ Queue.currentIndex q = 1
      /\ ~ Queue.currentIndex q < Queue.size q
      /\ Queue.current q = UB)
  /\ (exists q,
      Queue.run [Queue.Add trA; Queue.Add trB; Queue.JumpTo 1;
                 Queue.Remove 1] (Queue.empty g) = Ok q
      /\ Queue.size q = 1
      /\ Queue.currentIndex q = 0
      /\ Queue.current q = Ok (Some trA)).
Proof.
  split.
  - eexists. split; [vm_compute; reflexivity|].
    repeat split; try reflexivity. vm_compute. discriminate.
  - eexists. split; [vm_compute; reflexivity|].
    repeat split; reflexivity.
Qed.

(** ** Queue: reading the current entry *)

Lemma current_unshuffled (q : Queue.t) (x : TrackInfo) :
  Queue.shuffled_ q = false ->
  nth_error (Queue.tracks_ q) (N.to_nat (Queue.currentIndex_ q)) = Some x ->
  Queue.current q = Ok (Some x).
Proof.
  intros Hsh Hx. unfold Queue.current, Queue.isEmpty, Queue.resolve.
  destruct (Queue.tracks_ q) eqn:E.
  - now destruct (N.to_nat (Queue.currentIndex_ q)).
  - rewrite Hsh. cbn [bind]. rewrite (at_Ok _ _ _ Hx). reflexivity.
Qed.

Lemma wf_current_entry (q : Queue.t) :
  Queue.wf q ->
  exists x,
    nth_error (Queue.tracks_ q) (N.to_nat (Queue.currentIndex_ q)) = Some x.
Proof.
  intros (_ & Hcur & _). unfold Vec.size in Hcur.
  destruct (nth_error (Queue.tracks_ q) (N.to_nat (Queue.currentIndex_ q)))
    eqn:E; eauto.
  apply nth_error_None in E. lia.
Qed.

(** ** Queue: shuffle *)

(** C3 (defect).  On an already shuffled three-track queue, reached from the
    empty queue by [add a; add b; add c; shuffle(); next()], [current()]
    names track c at [currentIndex = 1]; a second [shuffle()] keeps
    [currentIndex = 1] but [current()] then names track b: the permutation
    is overwritten by [iota] before the current track is looked up in it. *)
Theorem reshuffle_changes_current :
  exists q q',
    Queue.run [Queue.Add trA; Queue.Add trB; Queue.Add trC;
               Queue.Shuffle; Queue.Next] (Queue.empty [1; 1; 0]) = Ok q
    /\ Queue.isShuffled q = true
    /\ Queue.currentIndex q = 1
    /\ Queue.current q = Ok (Some trC)
    /\ Queue.shuffle q = Ok q'
    /\ Queue.currentIndex q' = 1
    /\ Queue.current q' = Ok (Some trB)
    /\ id trB <> id trC.
Proof.
  do 2 eexists. split; [vm_compute; reflexivity|].
  repeat split; try (vm_compute; reflexivity).
  vm_compute. discriminate.
Qed.

(** The Fisher-Yates loop of [shuffle] never touches the cursor position. *)
Lemma shuffle_loop_keeps_cursor (n cur : N) (i : nat) :
  forall (order : list N) (g : Rng) (x : N),
    n < SizeT.modulus -> cur < n -> N.of_nat i < n ->
    nth_error order (N.to_nat cur) = Some x ->
    nth_error (fst (Queue.shuffle_loop n cur i order g)) (N.to_nat cur) = Some x
    /\ length (fst (Queue.shuffle_loop n cur i order g)) = length order.
Proof.
  induction i as [|i IH]; intros order g x Hmax Hcur Hi Hx.
  - simpl. auto.
  - cbn [Queue.shuffle_loop].
    destruct (N.eqb_spec (N.of_nat (S i)) cur) as [Heq | Hne].
    + apply IH; auto. lia.
    + destruct (uniform (N.of_nat (S i)) g) as [j g'].
      set (j' := if j =? cur
                 then (let j1 := SizeT.wrap (j + 1) mod n in
                       if j1 =? cur then 0 else j1)
                 else j).
      assert (Hj' : j' <> cur).
      { subst j'. destruct (N.eqb_spec j cur) as [-> | ]; [|assumption].
        cbv zeta. rewrite wrap_small by lia.
        destruct (N.eq_dec (cur + 1) n) as [Hlast | Hmid].
        - rewrite Hlast, N.Div0.mod_same.
          destruct (N.eqb_spec 0 cur); lia.
        - rewrite N.mod_small by lia.
          destruct (N.eqb_spec (cur + 1) cur); lia. }
      destruct (IH (Vec.swap order (S i) (N.to_nat j')) g' x) as [H1 H2];
        auto; try lia.
      * rewrite nth_error_swap_other; auto; lia.
      * split; [exact H1|]. rewrite H2. apply length_swap.
Qed.

(** After [shuffle()] on a queue with a valid cursor, the permutation maps
    the cursor to itself: [current()] is the track at natural position
    [currentIndex], whatever the queue resolved the cursor to before. *)
Lemma shuffle_resolves_cursor_naturally (q : Queue.t) (x : TrackInfo) :
  Vec.size (Queue.tracks_ q) < SizeT.modulus ->
  nth_error (Queue.tracks_ q) (N.to_nat (Queue.currentIndex_ q)) = Some x ->
  exists q',
    Queue.shuffle q = Ok q'
    /\ Queue.tracks_ q' = Queue.tracks_ q
    /\ Queue.currentIndex_ q' = Queue.currentIndex_ q
    /\ Queue.shuffled_ q' = true
    /\ Vec.at_ (Queue.shuffleOrder_ q') (Queue.currentIndex_ q)
       = Ok (Queue.currentIndex_ q)
    /\ Queue.current q' = Ok (Some x).
Proof.
  intros Hmax Hx.
  assert (Hlt : (N.to_nat (Queue.currentIndex_ q) < length (Queue.tracks_ q))%nat).
  { apply nth_error_Some. congruence. }
  assert (Hne : Queue.isEmpty q = false).
  { unfold Queue.isEmpty. destruct (Queue.tracks_ q); simpl in *; [lia|auto]. }
  unfold Queue.shuffle. rewrite Hne.
  set (n := length (Queue.tracks_ q)) in *.
  set (cur := Queue.currentIndex_ q) in *.
  assert (Hiota : nth_error (Vec.iota n) (N.to_nat cur) = Some cur).
  { rewrite nth_error_iota by assumption. now rewrite N2Nat.id. }
  assert (Hcti : (if Queue.shuffled_ q then Vec.at_ (Vec.iota n) cur else Ok cur)
                 = Ok cur).
  { destruct (Queue.shuffled_ q); [|reflexivity]. now apply at_Ok. }
  rewrite Hcti. cbn [bind].
  destruct (shuffle_loop_keeps_cursor (N.of_nat n) cur (n - 1) (Vec.iota n)
              (Queue.rng_ q) cur) as [Hkeep Hlen]; auto; try lia.
  destruct (Queue.shuffle_loop (N.of_nat n) cur (n - 1) (Vec.iota n)
                               (Queue.rng_ q)) as [order1 g] eqn:Eloop.
  cbn [fst] in Hkeep, Hlen. rewrite length_iota in Hlen.
  set (order2 := match Vec.find_if (N.eqb cur) order1 with
                 | Some it => Vec.swap order1 it (N.to_nat cur)
                 | None => order1
                 end).
  assert (Hpin : nth_error order2 (N.to_nat cur) = Some cur).
  { subst order2.
    destruct (Vec.find_if (N.eqb cur) order1) as [it|] eqn:Efind;
      [|assumption].
    destruct (find_if_Some _ _ _ Efind) as (y & Hy & Heq).
    apply N.eqb_eq in Heq. subst y.
    apply nth_error_swap_right; [assumption | lia]. }
  eexists. split; [reflexivity|]. qsimpl.
  repeat split.
  - now apply at_Ok.
  - unfold Queue.current, Queue.isEmpty, Queue.resolve in *. qsimpl.
    rewrite Hne. fold cur. rewrite (at_Ok _ _ _ Hpin). cbn [bind].
    rewrite (at_Ok _ _ _ Hx). reflexivity.
Qed.

(** On an unshuffled queue with a valid cursor, [shuffle()] keeps both the
    cursor and the track [current()] returns. *)
Lemma shuffle_pins_current_when_unshuffled (q : Queue.t) :
  Queue.wf q -> Queue.shuffled_ q = false ->
  exists q',
    Queue.shuffle q = Ok q'
    /\ Queue.currentIndex q' = Queue.currentIndex q
    /\ Queue.current q' = Queue.current q.
Proof.
  intros Hwf Hsh.
  destruct (wf_current_entry q Hwf) as [x Hx].
  destruct Hwf as (Hmax & _ & _).
  destruct (shuffle_resolves_cursor_naturally q x Hmax Hx)
    as (q' & Hq' & _ & Hcur & _ & _ & Hnow).
  exists q'. repeat split; try assumption.
  rewrite Hnow. symmetry. now apply current_unshuffled.
Qed.

(** ** Queue: [next()] at the end *)

Lemma shuffled_abc_reached : shuffled_abc = Ok shuffled_abc_state.
Proof. vm_compute. reflexivity. Qed.

(** C4 (counterexample).  On the one-track queue [next()] returns
    [nullopt] but the history stack has grown: the state is not unchanged. *)
Lemma next_at_end_mutates_history :
  ~ next_at_end_is_noop (Queue.add trA (Queue.empty [])).
Proof.
  intro H. unfold next_at_end_is_noop in H.
  assert (E : Queue.next (Queue.add trA (Queue.empty []))
              = Ok (Queue.add trA (Queue.empty []), None)).
  { apply H; [reflexivity | vm_compute; discriminate]. }
  vm_compute in E. discriminate E.
Qed.

(** C4 (amended).  On a non-empty queue whose cursor is at the last position
    ([currentIndex + 1 >= tracks.size()]), [next()] returns [nullopt], leaves
    tracks, cursor, shuffle order, shuffle flag and random engine unchanged,
    and pushes [currentIndex] onto the history stack. *)
Theorem next_at_end_pushes_history (q : Queue.t) :
  Queue.isEmpty q = false ->
  Vec.size (Queue.tracks_ q) <= SizeT.inc (Queue.currentIndex_ q) ->
  Queue.next q
  = Ok (Queue.set_history q
          (Vec.push_back (Queue.history_ q) (Queue.currentIndex_ q)),
        None).
Proof.
  intros Hne Hend. unfold Queue.next. rewrite Hne.
  cbn [Queue.set_history Queue.tracks_ Queue.currentIndex_].
  destruct (N.leb_spec (Vec.size (Queue.tracks_ q))
                       (SizeT.inc (Queue.currentIndex_ q))); [reflexivity|lia].
Qed.

Lemma next_at_end_pushes_history_witness :
  Queue.next (Queue.jumpTo 2 (three trA trB trC []))
  = Ok (Queue.set_history (Queue.jumpTo 2 (three trA trB trC []))
          (Vec.push_back [0] 2), None).
Proof.
  apply (next_at_end_pushes_history (Queue.jumpTo 2 (three trA trB trC []))).
  - reflexivity.
  - vm_compute. discriminate.
Defined.

(** ** Queue: removal of a track other than the current one *)

Lemma erase_keeps_entry {A : Type} (v : list A) (i c : nat) (x : A) :
  nth_error v c = Some x -> i <> c ->
  nth_error (Vec.erase v i) (if (i <? c)%nat then (c - 1)%nat else c) = Some x.
Proof.
  intros Hx Hne. rewrite nth_error_erase.
  destruct (Nat.ltb_spec i c).
  - destruct (Nat.ltb_spec (c - 1) i); [lia|].
    now replace (S (c - 1)) with c by lia.
  - destruct (Nat.ltb_spec c i); [assumption | lia].
Qed.

(** C2.  The claim fails on a shuffled queue.  The queue [a; b; c],
    shuffled through the public interface into the order [0; 2; 1] with
    the cursor on 0, has track a current.  [remove(1)] deletes track b, which
    is not the current track; [updateShuffleOrder()] then draws a new
    permutation, [1; 0], without pinning the current track as [shuffle()]
    does, and [current()] becomes track c. *)
Theorem shuffled_removal_changes_current :
  shuffled_abc = Ok shuffled_abc_state
  /\ Queue.current shuffled_abc_state = Ok (Some trA)
  /\ Vec.at_ (Queue.tracks_ shuffled_abc_state) 1 = Ok trB
  /\ Queue.tracks_ (Queue.remove 1 shuffled_abc_state) = [trA; trC]
  /\ Queue.shuffleOrder_ (Queue.remove 1 shuffled_abc_state) = [1; 0]
  /\ Queue.currentIndex (Queue.remove 1 shuffled_abc_state) = 0
  /\ Queue.current (Queue.remove 1 shuffled_abc_state) = Ok (Some trC)
  /\ ~ removal_keeps_current shuffled_abc_state 1.
Proof.
  split; [exact shuffled_abc_reached|].
  do 6 (split; [vm_compute; reflexivity|]).
  intro H.
  destruct (H trA trB) as (cur' & Hcur & Hid).
  - reflexivity.
  - reflexivity.
  - vm_compute. discriminate.
  - vm_compute in Hcur. injection Hcur as <-. vm_compute in Hid. discriminate.
Qed.

(** In every unshuffled queue with a valid cursor, removing an entry other
    than the current one, by index or by the id of a track other than the
    current track, leaves [current()] returning the same track. *)
Theorem unshuffled_removal_keeps_current (q : Queue.t) :
  Queue.wf q ->
  Queue.shuffled_ q = false ->
  (forall index, index <> Queue.currentIndex_ q ->
     Queue.current (Queue.remove index q) = Queue.current q)
  /\ (forall trackId cur,
        Queue.current q = Ok (Some cur) -> id cur <> trackId ->
        Queue.current (Queue.remove_id trackId q) = Ok (Some cur)).
Proof.
  intros Hwf Hsh.
  destruct (wf_current_entry q Hwf) as [x Hx].
  destruct Hwf as (Hmax & Hcur & _).
  pose proof (current_unshuffled q x Hsh Hx) as Hnow.
  split.
  - intros index Hne. rewrite Hnow. unfold Queue.remove.
    destruct (N.leb_spec (Vec.size (Queue.tracks_ q)) index) as [|Hin];
      [assumption|].
    qsimpl.
    pose proof (erase_keeps_entry (Queue.tracks_ q) (N.to_nat index)
                  (N.to_nat (Queue.currentIndex_ q)) x Hx) as Hkeep.
    destruct (N.ltb_spec index (Queue.currentIndex_ q)) as [Hlt|Hge].
    + rewrite Hsh. cbn [Queue.shuffled_].
      apply current_unshuffled; [reflexivity|].
      qsimpl.
      rewrite dec_small by lia.
      destruct (Nat.ltb_spec (N.to_nat index)
                             (N.to_nat (Queue.currentIndex_ q))); [|lia].
      replace (N.to_nat (Queue.currentIndex_ q - 1))
        with (N.to_nat (Queue.currentIndex_ q) - 1)%nat by lia.
      apply Hkeep. lia.
    + destruct (N.eqb_spec index (Queue.currentIndex_ q)); [contradiction|].
      cbn [andb]. rewrite Hsh. cbn [Queue.shuffled_].
      apply current_unshuffled; [reflexivity|].
      qsimpl.
      destruct (Nat.ltb_spec (N.to_nat index)
                             (N.to_nat (Queue.currentIndex_ q))); [lia|].
      apply Hkeep. lia.
  - intros trackId cur Hc Hid. rewrite Hnow in Hc. injection Hc as ->.
    unfold Queue.remove_id.
    destruct (Vec.find_if (fun tr => String.eqb (id tr) trackId)
                          (Queue.tracks_ q)) as [index|] eqn:Efind;
      [|assumption].
    destruct (find_if_Some _ _ _ Efind) as (y & Hy & Heq).
    apply String.eqb_eq in Heq.
    assert (Hne : index <> N.to_nat (Queue.currentIndex_ q)).
    { intros ->. rewrite Hx in Hy. injection Hy as <-. contradiction. }
    qsimpl.
    pose proof (erase_keeps_entry (Queue.tracks_ q) index
                  (N.to_nat (Queue.currentIndex_ q)) cur Hx Hne) as Hkeep.
    destruct (N.ltb_spec (N.of_nat index) (Queue.currentIndex_ q)) as [Hlt|Hge].
    + rewrite Hsh. cbn [Queue.shuffled_].
      apply current_unshuffled; [reflexivity|].
      qsimpl.
      rewrite dec_small by lia.
      destruct (Nat.ltb_spec index (N.to_nat (Queue.currentIndex_ q))); [|lia].
      now replace (N.to_nat (Queue.currentIndex_ q - 1))
        with (N.to_nat (Queue.currentIndex_ q) - 1)%nat by lia.
    + rewrite Hsh. cbn [Queue.shuffled_].
      apply current_unshuffled; [reflexivity|].
      qsimpl.
      destruct (Nat.ltb_spec index (N.to_nat (Queue.currentIndex_ q))); [lia|].
      assumption.
Qed.

Lemma unshuffled_removal_keeps_current_witness :
  (forall index, index <> 0 ->
     Queue.current (Queue.remove index (three trA trB trC []))
     = Queue.current (three trA trB trC []))
  /\ (forall trackId cur,
        Queue.current (three trA trB trC []) = Ok (Some cur) ->
        id cur <> trackId ->
        Queue.current (Queue.remove_id trackId (three trA trB trC []))
        = Ok (Some cur)).
Proof.
  apply (unshuffled_removal_keeps_current (three trA trB trC [])).
  - unfold Queue.wf, Queue.order_ok. simpl.
    repeat split; try reflexivity; discriminate.
  - reflexivity.
Defined.

(** ** Queue: history *)

Lemma isEmpty_false_of_cursor (q : Queue.t) :
  Queue.currentIndex_ q < Vec.size (Queue.tracks_ q) -> Queue.isEmpty q = false.
Proof.
  unfold Queue.isEmpty, Vec.size. destruct (Queue.tracks_ q); simpl; [lia|auto].
Qed.

(** Under the data-model invariants every cursor position resolves. *)
Lemma resolve_total (q : Queue.t) (c : N) :
  Queue.order_ok q -> c < Vec.size (Queue.tracks_ q) ->
  exists tr, Queue.resolve q c = Ok tr.
Proof.
  intros Hord Hc. unfold Queue.resolve.
  destruct (Queue.shuffled_ q) eqn:Hsh.
  - destruct (Hord Hsh) as [Hlen Hall].
    assert (Hc' : c < Vec.size (Queue.shuffleOrder_ q)).
    { unfold Vec.size in *. rewrite Hlen. exact Hc. }
    destruct (at_in_range _ _ Hc') as [k Hk]. rewrite Hk. cbn [bind].
    apply at_in_range.
    unfold Vec.at_ in Hk.
    destruct (nth_error (Queue.shuffleOrder_ q) (N.to_nat c)) eqn:E;
      [|discriminate].
    injection Hk as ->.
    rewrite Forall_forall in Hall. apply Hall.
    eapply nth_error_In; eassumption.
  - cbn [bind]. now apply at_in_range.
Qed.

(** One [next()] is undone by one [previous()]: the history entry pushed by
    [next()], also when it does not advance, is the one [previous()] pops. *)
Lemma previous_undoes_next (q : Queue.t) :
  Queue.navigable q ->
  exists q' r r',
    Queue.next q = Ok (q', r) /\ Queue.navigable q'
    /\ Queue.previous q' = Ok (q, r').
Proof.
  intros [Hemp | Hwf].
  - exists q, None, None. unfold Queue.next, Queue.previous. rewrite Hemp.
    repeat split. now left.
  - destruct Hwf as (Hmax & Hcur & Hord).
    pose proof (isEmpty_false_of_cursor q Hcur) as Hne.
    destruct q as [tracks order hist cur sh g].
    unfold Queue.next. rewrite Hne. qsimpl.
    destruct (N.leb_spec (Vec.size tracks) (SizeT.inc cur)) as [Hend | Hadv].
    + destruct (resolve_total (Queue.mk tracks order hist cur sh g) cur Hord Hcur)
        as [tr Htr].
      do 3 eexists. split; [reflexivity|]. split.
      * right. unfold Queue.wf, Queue.order_ok in *. qsimpl. auto.
      * unfold Queue.previous. unfold Queue.isEmpty in *. qsimpl. rewrite Hne.
        rewrite pop_back_push. qsimpl.
        unfold Queue.resolve in *. qsimpl. rewrite Htr. reflexivity.
    + rewrite inc_small in * by lia.
      destruct (resolve_total (Queue.mk tracks order hist cur sh g)
                              (cur + 1) Hord Hadv) as [tr' Htr'].
      destruct (resolve_total (Queue.mk tracks order hist cur sh g) cur Hord Hcur)
        as [tr Htr].
      unfold Queue.resolve in *. qsimpl. rewrite Htr'. cbn [bind].
      do 3 eexists. split; [reflexivity|]. split.
      * right. unfold Queue.wf, Queue.order_ok in *. qsimpl. auto.
      * unfold Queue.previous. unfold Queue.isEmpty in *. qsimpl. rewrite Hne.
        rewrite pop_back_push. qsimpl.
        unfold Queue.resolve. qsimpl. rewrite Htr. reflexivity.
Qed.

Lemma nexts_snoc (n : nat) (q : Queue.t) :
  Queue.nexts (S n) q = (q' <- Queue.nexts n q ;; r <- Queue.next q' ;; Ok (fst r)).
Proof.
  revert q; induction n as [|n IH]; intro q.
  - simpl. destruct (Queue.next q) as [[q' r]|]; reflexivity.
  - cbn [Queue.nexts].
    destruct (Queue.next q) as [[q' r]|]; cbn [bind fst]; [|reflexivity].
    exact (IH q').
Qed.

(** C6.  From every navigable queue state (empty, or with a valid cursor and
    permutation), [n] calls of [next()] succeed and [n] calls of
    [previous()] after them restore the very state they started from:
    tracks, cursor (the natural-order position), permutation and history,
    hence the same [current()] track. *)
Theorem previouses_undo_nexts (n : nat) (q : Queue.t) :
  Queue.navigable q ->
  exists q1 q2,
    Queue.nexts n q = Ok q1
    /\ Queue.previouses n q1 = Ok q2
    /\ q2 = q
    /\ Queue.currentIndex q2 = Queue.currentIndex q
    /\ Queue.current q2 = Queue.current q.
Proof.
  intro Hnav.
  assert (H : exists q1, Queue.nexts n q = Ok q1 /\ Queue.navigable q1
                         /\ Queue.previouses n q1 = Ok q).
  { induction n as [|n IH].
    - exists q. repeat split; auto.
    - destruct IH as (qn & Hn & Hnavn & Hback).
      destruct (previous_undoes_next qn Hnavn)
        as (q' & r & r' & Hnx & Hnav' & Hpv).
      exists q'. rewrite nexts_snoc, Hn. cbn [bind]. rewrite Hnx. cbn [bind fst].
      repeat split; [assumption|].
      cbn [Queue.previouses]. rewrite Hpv. cbn [bind fst]. exact Hback. }
  destruct H as (q1 & Hn & _ & Hback).
  exists q1, q. repeat split; assumption.
Qed.

Lemma previouses_undo_nexts_witness :
  exists q1 q2,
    Queue.nexts 5 (three trA trB trC []) = Ok q1
    /\ Queue.previouses 5 q1 = Ok q2
    /\ q2 = three trA trB trC []
    /\ Queue.currentIndex q2 = Queue.currentIndex (three trA trB trC [])
    /\ Queue.current q2 = Queue.current (three trA trB trC []).
Proof.
  apply (previouses_undo_nexts 5 (three trA trB trC [])).
  right. unfold Queue.wf, Queue.order_ok. simpl.
  repeat split; try reflexivity; discriminate.
Defined.

(** ** Engine: tactics *)

(** Unfolds the field updates of an engine and reduces its projections. *)
Ltac esimpl :=
  unfold AudioEngine.set_eventBus, AudioEngine.set_queue,
    AudioEngine.set_decoder, AudioEngine.set_device,
    AudioEngine.set_state, AudioEngine.set_volume,
    AudioEngine.set_currentFrame, AudioEngine.set_totalFrames,
    AudioEngine.set_currentTrack, AudioEngine.set_tapped,
    AudioEngine.set_progressRunning, AudioEngine.set_initialized,
    AudioEngine.setRepeatMode in *;
  cbn [AudioEngine.eventBus_ AudioEngine.queue_ AudioEngine.decoder_
       AudioEngine.device_ AudioEngine.state_ AudioEngine.volume_
       AudioEngine.currentFrame_ AudioEngine.totalFrames_
       AudioEngine.repeatMode_ AudioEngine.shuffle_
       AudioEngine.currentTrack_ AudioEngine.audioDataCallback_
       AudioEngine.tapped AudioEngine.progressRunning_
       AudioEngine.initialized_] in *.

(** Evaluates the engine operations on an engine given by its fields.
    Arguments are reduced before the field updates are unfolded, so that
    nested updates are not copied. *)
Ltac ecompute :=
  cbv beta iota zeta delta
    [AudioEngine.stop AudioEngine.playTrack AudioEngine.play
     AudioEngine.play_start AudioEngine.pause AudioEngine.togglePlayPause
     AudioEngine.playUrl AudioEngine.startProgressTimer
     AudioEngine.stopProgressTimer AudioEngine.initialize
     AudioEngine.shutdown AudioEngine.set_eventBus
     AudioEngine.set_queue AudioEngine.set_decoder
     AudioEngine.set_device AudioEngine.set_state
     AudioEngine.set_volume AudioEngine.set_currentFrame
     AudioEngine.set_totalFrames AudioEngine.set_currentTrack
     AudioEngine.set_tapped AudioEngine.set_progressRunning
     AudioEngine.set_initialized
     AudioEngine.setRepeatMode AudioEngine.state AudioEngine.volume
     AudioEngine.deviceStarted
     AudioEngine.eventBus_ AudioEngine.queue_ AudioEngine.decoder_
     AudioEngine.device_ AudioEngine.state_ AudioEngine.volume_
     AudioEngine.currentFrame_ AudioEngine.totalFrames_
     AudioEngine.repeatMode_ AudioEngine.shuffle_ AudioEngine.currentTrack_
     AudioEngine.audioDataCallback_ AudioEngine.tapped
     AudioEngine.progressRunning_ AudioEngine.initialized_
     AudioDecoder.open AudioDecoder.openWithMiniaudio AudioDecoder.openUrl
     AudioDecoder.close AudioDecoder.isOpen AudioDecoder.totalFrames
     AudioDecoder.currentFrame AudioDecoder.sampleRate
     AudioDecoder.decoder_ AudioDecoder.isOpen_ AudioDecoder.isStreaming_
     AudioDecoder.totalFrames_ AudioDecoder.currentFrame_
     AudioDecoder.sampleRate_ AudioDecoder.channels_
     ma_device_start ma_device_stop isStarted
     EventBus.emitPlaybackStarted EventBus.emitPlaybackStopped
     EventBus.emitPlaybackPaused EventBus.emitTrackChanged
     EventBus.emitVolumeChanged EventBus.publish EventBus.publishAsync
     EventBus.delivered EventBus.eventQueue_
     PlaybackState_eqb negb ok fst snd bind].

(** ** Engine: end of queue *)

Lemma stop_state (e : AudioEngine.t) :
  AudioEngine.state (fst (AudioEngine.stop e)) = Stopped.
Proof.
  destruct e as [bus q d dev st vol cf tf rm sh ct cb tap pr ini].
  destruct st, pr; ecompute; reflexivity.
Qed.

Lemma stop_queue (e : AudioEngine.t) :
  AudioEngine.queue_ (fst (AudioEngine.stop e)) = AudioEngine.queue_ e.
Proof.
  destruct e as [bus q d dev st vol cf tf rm sh ct cb tap pr ini].
  destruct st, pr; ecompute; reflexivity.
Qed.

(** [stop()] leaves no session and no current track behind, unless the
    engine was [Stopped] already. *)
Lemma stop_session (e : AudioEngine.t) :
  AudioEngine.state_ e <> Stopped ->
  AudioDecoder.isOpen (AudioEngine.decoder_ (fst (AudioEngine.stop e))) = false
  /\ AudioEngine.currentTrack_ (fst (AudioEngine.stop e)) = None.
Proof.
  destruct e as [bus q d dev st vol cf tf rm sh ct cb tap pr ini].
  cbn [AudioEngine.state_]. intro Hst.
  destruct st; try contradiction; destruct pr; ecompute; split; reflexivity.
Qed.

(** C5.  On the three-track queue with the cursor at 0, two [next()] calls
    reach index 2 and a third yields [nullopt], whatever the repeat mode.
    With [repeatMode = Off] that third advance leaves the engine in
    [Stopped], through [playNext] (which calls [stop()]) and through
    [onTrackEnded] alike.  With [repeatMode = All] the claim fails:
    [playNext] never looks at the repeat mode and stops the engine just the
    same, with the cursor still on the last track and the session closed;
    [onTrackEnded] moves the cursor to 0 and queues a track-changed event
    for track 0, but keeps the session, the current track and the state as
    they are and delivers nothing: track 0 is not played. *)
Theorem end_of_queue_policy
  (w : World) (g : Rng) (t0 t1 t2 : TrackInfo) (e : AudioEngine.t) :
  exists q1 q2 q3,
    Queue.currentIndex (three t0 t1 t2 g) = 0
    /\ Queue.next (three t0 t1 t2 g) = Ok (q1, Some t1)
    /\ Queue.currentIndex q1 = 1
    /\ Queue.next q1 = Ok (q2, Some t2)
    /\ Queue.currentIndex q2 = 2
    /\ Queue.next q2 = Ok (q3, None)
    /\ Queue.currentIndex q3 = 2
    /\ (exists e',
          AudioEngine.playNext w
            (AudioEngine.setRepeatMode Off (AudioEngine.set_queue e q2))
          = Ok (e', Success)
          /\ AudioEngine.state e' = Stopped)
    /\ (exists e',
          AudioEngine.onTrackEnded
            (AudioEngine.setRepeatMode Off (AudioEngine.set_queue e q2))
          = Ok e'
          /\ AudioEngine.state e' = Stopped)
    /\ (exists e',
          AudioEngine.playNext w
            (AudioEngine.setRepeatMode All (AudioEngine.set_queue e q2))
          = Ok (e', Success)
          /\ AudioEngine.state e' = Stopped
          /\ Queue.currentIndex (AudioEngine.queue_ e') = 2
          /\ Queue.current (AudioEngine.queue_ e') = Ok (Some t2)
          /\ (AudioEngine.state_ e <> Stopped ->
              AudioDecoder.isOpen (AudioEngine.decoder_ e') = false
              /\ AudioEngine.currentTrack_ e' = None))
    /\ (exists e',
          AudioEngine.onTrackEnded
            (AudioEngine.setRepeatMode All (AudioEngine.set_queue e q2))
          = Ok e'
          /\ Queue.currentIndex (AudioEngine.queue_ e') = 0
          /\ Queue.current (AudioEngine.queue_ e') = Ok (Some t0)
          /\ EventBus.eventQueue_ (AudioEngine.eventBus_ e')
             = EventBus.eventQueue_ (AudioEngine.eventBus_ e)
               ++ [mkEvent TrackChanged (TrackData t0)]
          /\ EventBus.delivered (AudioEngine.eventBus_ e')
             = EventBus.delivered (AudioEngine.eventBus_ e)
          /\ AudioEngine.decoder_ e' = AudioEngine.decoder_ e
          /\ AudioEngine.currentTrack_ e' = AudioEngine.currentTrack_ e
          /\ AudioEngine.state_ e' = AudioEngine.state_ e
          /\ AudioEngine.device_ e' = AudioEngine.device_ e).
Proof.
  do 3 eexists.
  split; [reflexivity|].
  split; [vm_compute; reflexivity|].
  split; [reflexivity|].
  split; [vm_compute; reflexivity|].
  split; [reflexivity|].
  split; [vm_compute; reflexivity|].
  split; [reflexivity|].
  split; [|split; [|split]].
  - eexists. split.
    + unfold AudioEngine.playNext.
      match goal with
      | |- context [Queue.next ?q] =>
          let r := eval vm_compute in (Queue.next q) in
          change (Queue.next q) with r
      end.
      cbn [bind fst snd]. reflexivity.
    + apply stop_state.
  - eexists. split.
    + unfold AudioEngine.onTrackEnded, AudioEngine.setRepeatMode.
      cbn [AudioEngine.repeatMode_ AudioEngine.queue_ AudioEngine.set_queue].
      match goal with
      | |- context [Queue.next ?q] =>
          let r := eval vm_compute in (Queue.next q) in
          change (Queue.next q) with r
      end.
      cbn [bind fst snd]. reflexivity.
    + reflexivity.
  - eexists. split.
    + unfold AudioEngine.playNext.
      match goal with
      | |- context [Queue.next ?q] =>
          let r := eval vm_compute in (Queue.next q) in
          change (Queue.next q) with r
      end.
      cbn [bind fst snd]. reflexivity.
    + split; [apply stop_state|].
      rewrite stop_queue.
      split; [reflexivity|]. split; [reflexivity|].
      intro Hst. apply stop_session.
      destruct e as [bus q d dev st vol cf tf rm sh ct cb tap pr ini].
      exact Hst.
  - eexists. split.
    + unfold AudioEngine.onTrackEnded, AudioEngine.setRepeatMode.
      cbn [AudioEngine.repeatMode_ AudioEngine.queue_ AudioEngine.set_queue].
      match goal with
      | |- context [Queue.next ?q] =>
          let r := eval vm_compute in (Queue.next q) in
          change (Queue.next q) with r
      end.
      cbn [bind fst snd]. reflexivity.
    + destruct e as [bus q d dev st vol cf tf rm sh ct cb tap pr ini].
      repeat split; reflexivity.
Qed.

(** ** Engine: the audio callback *)

Lemma readFrames_totalFrames (d : AudioDecoder.t) (n : N)
      (r : Written * N * AudioDecoder.t) :
  AudioDecoder.readFrames d n = Ok r ->
  AudioDecoder.totalFrames (snd r) = AudioDecoder.totalFrames d.
Proof.
  unfold AudioDecoder.readFrames.
  destruct (AudioDecoder.isOpen_ d); [|intros [= <-]; reflexivity].
  destruct (AudioDecoder.decoder_ d) as [dec|]; [|intros [= <-]; reflexivity].
  destruct (ma_decoder_read_pcm_frames dec n) as [[[w fr] dec']|];
    [|discriminate].
  intros [= <-]. reflexivity.
Qed.

(** [render] hands the session on as [readFrames] leaves it and does not
    touch the queue. *)
Lemma render_decoder (e e1 : AudioEngine.t) (output : list Byte.byte) (n : N)
      (out : list F32.t) :
  AudioEngine.render e output n = Ok (e1, out) ->
  exists w fr,
    AudioDecoder.readFrames (AudioEngine.decoder_ e) n
    = Ok (w, fr, AudioEngine.decoder_ e1)
    /\ AudioEngine.queue_ e1 = AudioEngine.queue_ e.
Proof.
  unfold AudioEngine.render.
  destruct (AudioDecoder.readFrames (AudioEngine.decoder_ e) n)
    as [[[w fr] d1]|]; [|discriminate].
  cbn [bind].
  destruct (AudioEngine.capacity n <? written_size w); [discriminate|].
  match goal with
  | |- context [AudioEngine.load_samples ?a ?b ?c] =>
      destruct (AudioEngine.load_samples a b c) as [samples|];
        [|discriminate]
  end.
  cbn [bind]. intros [= <- _]. exists w, fr.
  destruct e as [bus q d dev st vol cf tf rm sh ct cb tap pr ini].
  destruct cb; split; reflexivity.
Qed.

(** While playing with an open session the callback is [render] followed by
    the end-of-track test. *)
Lemma audioCallback_playing (e : AudioEngine.t) (output : list Byte.byte)
      (n : N) :
  AudioEngine.state_ e = Playing ->
  AudioDecoder.isOpen (AudioEngine.decoder_ e) = true ->
  AudioEngine.audioCallback e output n
  = (r <- AudioEngine.render e output n ;;
     if AudioDecoder.totalFrames (AudioEngine.decoder_ (fst r))
        <=? AudioDecoder.currentFrame (AudioEngine.decoder_ (fst r))
     then e2 <- AudioEngine.onTrackEnded (fst r) ;; Ok (e2, snd r)
     else Ok (fst r, snd r)).
Proof.
  intros Hst Hop. unfold AudioEngine.audioCallback.
  rewrite Hst, Hop. cbn [PlaybackState_eqb negb orb].
  destruct (AudioEngine.render e output n) as [[e1 out]|]; reflexivity.
Qed.

(** C7.  While playing an open session whose total frame count is 0
    (length unknown), every invocation of the audio callback runs the
    end-of-track handler on the state it has just rendered, whatever the
    decoder delivered. *)
Theorem unknown_length_ends_track_at_every_callback
  (e : AudioEngine.t) (output : list Byte.byte) (frameCount : N) :
  AudioEngine.state_ e = Playing ->
  AudioDecoder.isOpen (AudioEngine.decoder_ e) = true ->
  AudioDecoder.totalFrames (AudioEngine.decoder_ e) = 0 ->
  AudioEngine.audioCallback e output frameCount
  = (r <- AudioEngine.render e output frameCount ;;
     e' <- AudioEngine.onTrackEnded (fst r) ;;
     Ok (e', snd r)).
Proof.
  intros Hst Hop Htot.
  rewrite audioCallback_playing by assumption.
  destruct (AudioEngine.render e output frameCount) as [[e1 out]|] eqn:Hr;
    [|reflexivity].
  cbn [bind fst snd].
  destruct (render_decoder _ _ _ _ _ Hr) as (w & fr & Hread & _).
  apply readFrames_totalFrames in Hread. cbn [snd] in Hread.
  rewrite Hread, Htot.
  destruct (N.leb_spec 0
              (AudioDecoder.currentFrame (AudioEngine.decoder_ e1)));
    [reflexivity | lia].
Qed.

Lemma unknown_length_ends_track_at_every_callback_witness :
  AudioEngine.audioCallback streaming_engine [] 1
  = (r <- AudioEngine.render streaming_engine [] 1 ;;
     e' <- AudioEngine.onTrackEnded (fst r) ;;
     Ok (e', snd r)).
Proof.
  apply (unknown_length_ends_track_at_every_callback streaming_engine [] 1);
    reflexivity.
Defined.

(** On the two-frame stream of unknown length the first callback, asked for
    one frame, already requests the next track although a frame is left. *)
Example streaming_engine_first_callback :
  exists e' out,
    AudioEngine.audioCallback streaming_engine [] 1 = Ok (e', out)
    /\ framesRead streaming_engine 1 = Ok 1
    /\ Queue.currentIndex (AudioEngine.queue_ e') = 1
    /\ EventBus.eventQueue_ (AudioEngine.eventBus_ e')
       = [mkEvent TrackChanged (TrackData trB)].
Proof.
  do 2 eexists. split; [vm_compute; reflexivity|].
  repeat split; reflexivity.
Qed.

(** C9.  When the state is not [Playing], or no session is open, the
    callback writes [2 * frameCount] zero samples, the whole stereo output
    buffer, and leaves the engine, its decoder included, untouched. *)
Theorem idle_callback_writes_silence
  (e : AudioEngine.t) (output : list Byte.byte) (frameCount : N) :
  frameCount < uint32_max ->
  AudioEngine.state_ e <> Playing
  \/ AudioDecoder.isOpen (AudioEngine.decoder_ e) = false ->
  AudioEngine.audioCallback e output frameCount
  = Ok (e, repeat F32.zero (2 * N.to_nat frameCount)).
Proof.
  intros Hn Hidle. unfold AudioEngine.audioCallback.
  assert (Hc : negb (PlaybackState_eqb (AudioEngine.state_ e) Playing)
               || negb (AudioDecoder.isOpen (AudioEngine.decoder_ e)) = true).
  { destruct Hidle as [Hst | Hop].
    - destruct (AudioEngine.state_ e); try reflexivity. contradiction.
    - rewrite Hop. apply orb_true_r. }
  rewrite Hc. unfold AudioEngine.memset_zero.
  rewrite uint32_max_value in Hn.
  rewrite (wrap_small (frameCount * 2)) by (rewrite modulus_value; lia).
  rewrite wrap_small by (rewrite modulus_value; lia).
  rewrite N.div_mul by discriminate.
  do 3 f_equal. lia.
Qed.

Lemma idle_callback_writes_silence_witness :
  AudioEngine.audioCallback (AudioEngine.init []) bytes_one 4
  = Ok (AudioEngine.init [], repeat F32.zero (2 * N.to_nat 4)).
Proof.
  apply (idle_callback_writes_silence (AudioEngine.init []) bytes_one 4).
  - reflexivity.
  - right. reflexivity.
Defined.

(** ** Engine: volume *)

Lemma SFcompare_antisym (x y : spec_float) :
  SFcompare y x = option_map CompOpp (SFcompare x y).
Proof.
  destruct x as [sx|sx| |sx mx ex], y as [sy|sy| |sy my ey]; simpl;
    try destruct sx; try destruct sy; try reflexivity;
    rewrite (Z.compare_antisym ey ex);
    destruct (ey ?= ex)%Z; simpl; try reflexivity;
    rewrite (Pos.compare_cont_antisym mx my Eq); reflexivity.
Qed.

Lemma compare_zero_total (v : F32.t) :
  F32.is_nan v = false -> exists c, SFcompare v F32.zero = Some c.
Proof. destruct v as [s|s| |s m e]; simpl; try discriminate; eauto. Qed.

Lemma compare_one_total (v : F32.t) :
  F32.is_nan v = false -> exists c, SFcompare F32.one v = Some c.
Proof. destruct v as [s|s| |s m e]; simpl; try discriminate; eauto. Qed.

(** What [std::clamp(v, 0.0f, 1.0f)] returns, case by case. *)
Lemma clamp_unit_cases (v : F32.t) :
  (F32.ltb v F32.zero = true -> F32.clamp v F32.zero F32.one = F32.zero)
  /\ (F32.ltb F32.one v = true -> F32.clamp v F32.zero F32.one = F32.one)
  /\ (F32.ltb v F32.zero = false -> F32.ltb F32.one v = false ->
      F32.clamp v F32.zero F32.one = v).
Proof.
  unfold F32.clamp, F32.min, F32.max. repeat split.
  - intros ->. reflexivity.
  - intro H1. assert (H0 : F32.ltb v F32.zero = false).
    { destruct v as [s|s| |s m e]; try reflexivity; destruct s;
        try reflexivity; discriminate H1. }
    rewrite H0, H1. reflexivity.
  - intros -> ->. reflexivity.
Qed.

Lemma clamp_unit_range (v : F32.t) :
  F32.is_nan v = false ->
  F32.leb F32.zero (F32.clamp v F32.zero F32.one) = true
  /\ F32.leb (F32.clamp v F32.zero F32.one) F32.one = true.
Proof.
  intro Hnan.
  destruct (clamp_unit_cases v) as (Hlo & Hhi & Hmid).
  destruct (F32.ltb v F32.zero) eqn:E0.
  - rewrite (Hlo eq_refl). split; reflexivity.
  - destruct (F32.ltb F32.one v) eqn:E1.
    + rewrite (Hhi eq_refl). split; reflexivity.
    + rewrite (Hmid eq_refl eq_refl). split.
      * unfold F32.leb, F32.ltb, SFleb, SFltb in *.
        rewrite (SFcompare_antisym v F32.zero).
        destruct (compare_zero_total v Hnan) as [c Hc].
        rewrite Hc in *. now destruct c.
      * unfold F32.leb, F32.ltb, SFleb, SFltb in *.
        rewrite (SFcompare_antisym F32.one v).
        destruct (compare_one_total v Hnan) as [c Hc].
        rewrite Hc in *. now destruct c.
Qed.

(** The end-of-track handler is defined on every engine whose queue
    satisfies the data-model invariants. *)
Lemma onTrackEnded_total (e : AudioEngine.t) :
  Queue.navigable (AudioEngine.queue_ e) ->
  exists e', AudioEngine.onTrackEnded e = Ok e'.
Proof.
  intro Hnav. unfold AudioEngine.onTrackEnded.
  destruct (previous_undoes_next _ Hnav) as (q' & r & _ & Hnx & Hnav' & _).
  assert (Hgen :
    forall mode, exists e',
      (r0 <- Queue.next (AudioEngine.queue_ e) ;;
       let e1 := AudioEngine.set_queue e (fst r0) in
       match snd r0 with
       | Some tr =>
           Ok (AudioEngine.set_eventBus e1
                 (EventBus.publishAsync (mkEvent TrackChanged (TrackData tr))
                                        (AudioEngine.eventBus_ e1)))
       | None =>
           match mode, Queue.isEmpty (AudioEngine.queue_ e1) with
           | All, false =>
               let e2 := AudioEngine.set_queue e1
                           (Queue.jumpTo 0 (AudioEngine.queue_ e1)) in
               cur <- Queue.current (AudioEngine.queue_ e2) ;;
               match cur with
               | Some tr =>
                   Ok (AudioEngine.set_eventBus e2
                         (EventBus.publishAsync
                            (mkEvent TrackChanged (TrackData tr))
                            (AudioEngine.eventBus_ e2)))
               | None => Ok e2
               end
           | _, _ =>
               let e2 := AudioEngine.set_state e1 Stopped in
               Ok (AudioEngine.set_eventBus e2
                     (EventBus.publishAsync (mkEvent PlaybackStopped NoData)
                                            (AudioEngine.eventBus_ e2)))
           end
       end) = Ok e').
  { intro mode. rewrite Hnx. cbn [bind fst snd].
    destruct r as [tr|]; [eauto|].
    esimpl.
    destruct mode; eauto.
    destruct (Queue.isEmpty q') eqn:Hne; [eauto|].
    destruct Hnav' as [Hemp | (Hmax & Hcur & Hord)]; [congruence|].
    assert (H0 : 0 < Vec.size (Queue.tracks_ q')) by lia.
    unfold Queue.jumpTo.
    destruct (N.ltb_spec 0 (Vec.size (Queue.tracks_ q'))); [|lia].
    unfold Queue.current. unfold Queue.isEmpty in *. qsimpl. rewrite Hne.
    destruct (resolve_total q' 0 Hord H0) as [tr Htr].
    unfold Queue.resolve in *. qsimpl. rewrite Htr. cbn [bind]. eauto. }
  destruct (AudioEngine.repeatMode_ e);
    [exact (Hgen Off) | eauto | exact (Hgen All)].
Qed.

(** *** What the decoder stores *)

Lemma to_int64_le (n : N) : (to_int64 n <= Z.of_N n)%Z.
Proof.
  unfold to_int64, SizeT.wrap.
  pose proof (N.Div0.mod_le n SizeT.modulus) as Hle.
  assert (H64 : (0 < 2 ^ 64)%Z) by reflexivity.
  destruct (Z.of_N (n mod SizeT.modulus) <? 2 ^ 63)%Z; lia.
Qed.

Lemma length_floats_of_bytes (bytes : list Byte.byte) :
  length (floats_of_bytes bytes) = (length bytes / 4)%nat.
Proof.
  assert (H : forall n bs, (length bs <= n)%nat ->
                           length (floats_of_bytes bs) = (length bs / 4)%nat).
  { induction n as [|n IH]; intros bs Hl.
    - destruct bs; [reflexivity | simpl in Hl; lia].
    - destruct bs as [|b0 [|b1 [|b2 [|b3 rest]]]]; try reflexivity.
      cbn [floats_of_bytes length]. rewrite IH by (simpl in Hl; lia).
      change (S (S (S (S (length rest))))) with (1 * 4 + length rest)%nat.
      rewrite Nat.div_add_l by discriminate. reflexivity. }
  now apply (H (length bytes)).
Qed.

(** The whole [float]s at the start of a byte sequence do not depend on
    what follows it. *)
Lemma floats_of_bytes_app (bytes rest : list Byte.byte) (k : nat) :
  (k <= length bytes / 4)%nat ->
  firstn k (floats_of_bytes (bytes ++ rest))
  = firstn k (floats_of_bytes bytes).
Proof.
  assert (H : forall n bs k,
             (length bs <= n)%nat -> (k <= length bs / 4)%nat ->
             firstn k (floats_of_bytes (bs ++ rest))
             = firstn k (floats_of_bytes bs)).
  { induction n as [|n IH]; intros bs j Hl Hj.
    - destruct bs; [|simpl in Hl; lia].
      simpl in Hj. replace j with 0%nat by lia. reflexivity.
    - destruct bs as [|b0 [|b1 [|b2 [|b3 tl]]]];
        try (simpl in Hj; replace j with 0%nat by lia; reflexivity).
      destruct j as [|j]; [reflexivity|].
      cbn [app floats_of_bytes firstn]. f_equal.
      apply IH; [simpl in Hl; lia|].
      cbn [length] in Hj.
      change (S (S (S (S (length tl))))) with (1 * 4 + length tl)%nat in Hj.
      rewrite Nat.div_add_l in Hj by discriminate. lia. }
  intro Hk. now apply (H (length bytes)).
Qed.

(** A read delivers at most the frames asked for, and stores between
    [framesRead] and [frameCount] frames of the width of the session. *)
Lemma read_pcm_frames_bounds (dec dec' : ma_decoder) (n fr : N) (w : Written) :
  ma_decoder_read_pcm_frames dec n = Ok (w, fr, dec') ->
  fr <= n
  /\ fr * frame_bytes dec <= written_size w
  /\ written_size w <= n * frame_bytes dec.
Proof.
  unfold ma_decoder_read_pcm_frames, backend_read, frame_bytes.
  destruct (file (pBackend dec)) as [f|].
  - unfold fread, udiv.
    set (got := firstn _ _).
    destruct (N.eqb_spec (bytesPerFrame (pBackend dec)) 0) as [|Hbpf];
      [discriminate|].
    cbn [bind]. intros [= <- <- _]. cbn [written_size].
    set (bpf := bytesPerFrame (pBackend dec)) in *.
    assert (Hgot : N.of_nat (length got) <= n * bpf).
    { pose proof (firstn_le_length (N.to_nat (SizeT.wrap (n * bpf)))
                    (skipn (N.to_nat (f_pos f)) (f_bytes f))) as Hl.
      fold got in Hl.
      pose proof (N.Div0.mod_le (n * bpf) SizeT.modulus) as Hw.
      unfold SizeT.wrap in Hl. lia. }
    split; [|split; [|exact Hgot]].
    + apply N.Div0.div_le_upper_bound. lia.
    + rewrite N.mul_comm. apply N.Div0.mul_div_le.
  - destruct (sndfile (pBackend dec)) as [sf|].
    + destruct (sym_sf_readf_float (sndfileLib (pBackend dec))).
      * unfold sf_readf_float.
        pose proof (to_int64_le n) as Hn.
        destruct (Z.leb_spec (to_int64 n) 0) as [Hneg | Hpos].
        { cbn [bind]. intros [= <- <- _]. cbn [written_size length].
          change (Z.to_N 0) with 0. lia. }
        cbn [bind].
        set (k := N.min (Z.to_N (to_int64 n)) (sf_frames sf - sf_cursor sf)).
        set (ch := sf_channels sf).
        set (samples := firstn _ _).
        intros [= <- <- _]. cbn [written_size].
        rewrite N2Z.id.
        assert (Hk : k <= n) by lia.
        assert (Hroom : k * ch
                        <= N.of_nat (length (sf_samples sf)) - sf_cursor sf * ch).
        { unfold sf_frames in k. fold ch in k.
          destruct (N.eqb_spec ch 0) as [Hz | Hnz].
          - rewrite Hz. lia.
          - pose proof (N.Div0.mul_div_le (N.of_nat (length (sf_samples sf))) ch)
              as Hdiv.
            assert (k <= N.of_nat (length (sf_samples sf)) / ch - sf_cursor sf)
              by lia.
            nia. }
        assert (Hlen : N.of_nat (length samples) = k * ch).
        { unfold samples. rewrite length_firstn, length_skipn. lia. }
        rewrite Hlen. split; [exact Hk|]. split; nia.
      * cbn [bind]. intros [= <- <- _]. cbn [written_size length]. lia.
    + cbn [bind]. intros [= <- <- _]. cbn [written_size length]. lia.
Qed.

(** With frames of 1 to 8 bytes a read returns, and what it stores fits
    the room for [frameCount] stereo frames. *)
Lemma readFrames_fit (d : AudioDecoder.t) (n : N) :
  frames_fit d ->
  exists w fr d1,
    AudioDecoder.readFrames d n = Ok (w, fr, d1)
    /\ fr <= n
    /\ written_size w <= AudioEngine.capacity n
    /\ (frames_fill d -> 8 * fr <= written_size w).
Proof.
  intro Hfit. unfold AudioDecoder.readFrames.
  destruct (AudioDecoder.isOpen_ d);
    [|do 3 eexists; split; [reflexivity|]; cbn; repeat split; lia].
  destruct (AudioDecoder.decoder_ d) as [dec|] eqn:Hdec;
    [|do 3 eexists; split; [reflexivity|]; cbn; repeat split; lia].
  specialize (Hfit dec Hdec).
  destruct (ma_decoder_read_pcm_frames dec n) as [[[w fr] dec']|] eqn:Hread.
  - destruct (read_pcm_frames_bounds _ _ _ _ _ Hread) as (Hfr & Hlo & Hhi).
    cbn [bind]. do 3 eexists. split; [reflexivity|].
    unfold AudioEngine.capacity.
    split; [exact Hfr|]. split; [nia|].
    intro Hfill. specialize (Hfill dec Hdec). rewrite Hfill in Hlo. lia.
  - exfalso. revert Hread.
    unfold ma_decoder_read_pcm_frames, backend_read, frame_bytes in *.
    destruct (file (pBackend dec)) as [f|].
    + unfold fread, udiv.
      destruct (N.eqb_spec (bytesPerFrame (pBackend dec)) 0) as [Hz|];
        [lia | discriminate].
    + destruct (sndfile (pBackend dec)) as [sf|]; [|discriminate].
      destruct (sym_sf_readf_float (sndfileLib (pBackend dec)));
        [|discriminate].
      destruct (sf_readf_float sf (to_int64 n)) as [[samples k] sf'].
      discriminate.
Qed.

(** The [float]s in the buffer after a store: at least those stored, and
    at least those the buffer held. *)
Lemma length_buffer_view (w : Written) (output : list Byte.byte) :
  (N.to_nat (written_size w) / 4 <= length (buffer_view w output))%nat
  /\ (length output / 4 <= length (buffer_view w output))%nat.
Proof.
  destruct w as [bytes | samples]; cbn [buffer_view written_size].
  - rewrite length_floats_of_bytes, length_app, length_skipn, Nat2N.id.
    split; apply Nat.Div0.div_le_mono; lia.
  - rewrite length_app, length_floats_of_bytes, length_skipn.
    replace (N.to_nat (4 * N.of_nat (length samples)))
      with (length samples * 4)%nat by lia.
    rewrite Nat.div_mul by discriminate.
    split; [lia|].
    destruct (Nat.le_gt_cases (4 * length samples) (length output)) as [Hle | Hgt].
    + replace (length output)
        with (length samples * 4 + (length output - 4 * length samples))%nat
        at 1 by lia.
      rewrite Nat.div_add_l by discriminate. lia.
    + assert (length output / 4 <= length samples * 4 / 4)%nat
        by (apply Nat.Div0.div_le_mono; lia).
      rewrite Nat.div_mul in H by discriminate. lia.
Qed.

(** *** What the callback writes *)

(** What [render] leaves in the buffer: the first [2 * framesRead]
    [float]s of the buffer as the decoder left it, each multiplied by the
    stored volume, then zeros up to [2 * frameCount]. *)
Lemma render_output (e : AudioEngine.t) (output : list Byte.byte) (n fr : N)
      (w : Written) (d1 : AudioDecoder.t) :
  n < uint32_max ->
  AudioDecoder.readFrames (AudioEngine.decoder_ e) n = Ok (w, fr, d1) ->
  fr <= n ->
  written_size w <= AudioEngine.capacity n ->
  (2 * N.to_nat fr <= length (buffer_view w output))%nat ->
  exists e1,
    AudioEngine.render e output n
    = Ok (e1,
          map (fun s => F32.mul s (AudioEngine.volume_ e))
              (firstn (2 * N.to_nat fr) (buffer_view w output))
          ++ repeat F32.zero (2 * N.to_nat (n - fr))).
Proof.
  intros Hn Hread Hfr Hsize Hview. rewrite uint32_max_value in Hn.
  unfold AudioEngine.render. rewrite Hread. cbn [bind].
  destruct (N.ltb_spec (AudioEngine.capacity n) (written_size w)); [lia|].
  unfold AudioEngine.load_samples.
  rewrite (wrap_small (fr * 2)) by (rewrite modulus_value; lia).
  destruct (N.leb_spec (fr * 2) (N.of_nat (length (buffer_view w output))));
    [|lia].
  cbn [bind].
  replace (N.to_nat (fr * 2)) with (2 * N.to_nat fr)%nat by lia.
  destruct e as [bus q d dev st vol cf tf rm sh ct cb tap pr ini].
  cbn [AudioEngine.set_decoder AudioEngine.set_currentFrame
       AudioEngine.volume_ AudioEngine.audioDataCallback_
       AudioEngine.decoder_ AudioEngine.currentFrame_].
  destruct (N.ltb_spec fr n) as [Hlt | Hge].
  - unfold AudioEngine.memset_zero.
    rewrite (wrap_small ((n - fr) * 2)) by (rewrite modulus_value; lia).
    rewrite (wrap_small ((n - fr) * 2 * 4)) by (rewrite modulus_value; lia).
    rewrite N.div_mul by discriminate.
    replace (N.to_nat ((n - fr) * 2)) with (2 * N.to_nat (n - fr))%nat by lia.
    eexists. reflexivity.
  - replace (n - fr) with 0 by lia. cbn [N.to_nat Nat.mul repeat].
    rewrite app_nil_r. eexists. reflexivity.
Qed.

(** While playing an open session over a navigable queue the callback
    returns whenever [render] does, with what [render] wrote. *)
Lemma audioCallback_output (e e1 : AudioEngine.t) (output : list Byte.byte)
      (n : N) (out : list F32.t) :
  AudioEngine.state_ e = Playing ->
  AudioDecoder.isOpen (AudioEngine.decoder_ e) = true ->
  Queue.navigable (AudioEngine.queue_ e) ->
  AudioEngine.render e output n = Ok (e1, out) ->
  exists e', AudioEngine.audioCallback e output n = Ok (e', out).
Proof.
  intros Hst Hop Hnav Hr. rewrite audioCallback_playing by assumption.
  rewrite Hr. cbn [bind fst snd].
  match goal with |- context [if ?c then _ else _] => destruct c end;
    [|eauto].
  destruct (onTrackEnded_total e1) as [e' He'].
  - destruct (render_decoder _ _ _ _ _ Hr) as (w & fr & _ & Hq).
    now rewrite Hq.
  - rewrite He'. cbn [bind]. eauto.
Qed.

Lemma frames_fill_fit (d : AudioDecoder.t) : frames_fill d -> frames_fit d.
Proof. intros H dec Hdec. rewrite (H dec Hdec). lia. Qed.

(** When the store covers [2 * framesRead] [float]s, the callback scales
    what the decoder stored and nothing else. *)
Lemma buffer_view_stored (w : Written) (output : list Byte.byte) (fr : N) :
  8 * fr <= written_size w ->
  firstn (2 * N.to_nat fr) (buffer_view w output)
  = firstn (2 * N.to_nat fr) (written_floats w)
  /\ (2 * N.to_nat fr <= length (written_floats w))%nat.
Proof.
  intro Hsize.
  assert (Hdiv : forall m, (8 * N.to_nat fr <= m)%nat ->
                           (2 * N.to_nat fr <= m / 4)%nat).
  { intros m Hm.
    replace (2 * N.to_nat fr)%nat with ((2 * N.to_nat fr) * 4 / 4)%nat
      by (apply Nat.div_mul; discriminate).
    apply Nat.Div0.div_le_mono. lia. }
  destruct w as [bytes | samples];
    cbn [buffer_view written_floats written_size] in *.
  - assert (Hk : (2 * N.to_nat fr <= length bytes / 4)%nat)
      by (apply Hdiv; lia).
    split; [now apply floats_of_bytes_app|].
    now rewrite length_floats_of_bytes.
  - assert (Hk : (2 * N.to_nat fr <= length samples)%nat) by lia.
    split; [|exact Hk].
    rewrite firstn_app.
    replace (2 * N.to_nat fr - length samples)%nat with 0%nat by lia.
    cbn [firstn]. apply app_nil_r.
Qed.

(** [setVolume(v)] stores [v] clamped into [0.0, 1.0]: 0.0 below the
    range, 1.0 above it, [v] itself otherwise, and for every [v] other than
    NaN a value between 0.0 and 1.0; [setVolume(-1.0)] stores 0.0 and
    [setVolume(2.0)] stores 1.0.  On a session whose frames are 8 bytes
    wide (stereo [float]) the callback then writes every sample the decoder
    stored multiplied by the stored volume, followed by zeros for the
    frames the decoder did not deliver. *)
Lemma volume_is_clamped_and_scales_samples
  (v : F32.t) (e : AudioEngine.t) (output : list Byte.byte) (frameCount : N) :
  AudioEngine.state_ e = Playing ->
  AudioDecoder.isOpen (AudioEngine.decoder_ e) = true ->
  Queue.navigable (AudioEngine.queue_ e) ->
  frameCount < uint32_max ->
  frames_fill (AudioEngine.decoder_ e) ->
  (F32.ltb v F32.zero = true ->
     AudioEngine.volume (AudioEngine.setVolume v e) = F32.zero)
  /\ (F32.ltb F32.one v = true ->
        AudioEngine.volume (AudioEngine.setVolume v e) = F32.one)
  /\ (F32.ltb v F32.zero = false -> F32.ltb F32.one v = false ->
        AudioEngine.volume (AudioEngine.setVolume v e) = v)
  /\ (F32.is_nan v = false ->
        F32.leb F32.zero (AudioEngine.volume (AudioEngine.setVolume v e)) = true
        /\ F32.leb (AudioEngine.volume (AudioEngine.setVolume v e)) F32.one
           = true)
  /\ AudioEngine.volume (AudioEngine.setVolume F32.minus_one e) = F32.zero
  /\ AudioEngine.volume (AudioEngine.setVolume F32.two e) = F32.one
  /\ exists e' w fr,
       stored e frameCount = Ok w
       /\ framesRead e frameCount = Ok fr
       /\ AudioEngine.audioCallback (AudioEngine.setVolume v e) output
                                    frameCount
          = Ok (e',
                map (fun s =>
                       F32.mul s
                         (AudioEngine.volume (AudioEngine.setVolume v e)))
                    (firstn (2 * N.to_nat fr) (written_floats w))
                ++ repeat F32.zero (2 * N.to_nat (frameCount - fr)))
       /\ (2 * N.to_nat fr <= length (written_floats w))%nat.
Proof.
  intros Hst Hop Hnav Hn Hfill.
  assert (Hvol : AudioEngine.volume (AudioEngine.setVolume v e)
                 = F32.clamp v F32.zero F32.one) by reflexivity.
  rewrite Hvol.
  destruct (clamp_unit_cases v) as (Hlo & Hhi & Hmid).
  repeat (split; [assumption|]).
  split; [apply clamp_unit_range|].
  split; [reflexivity|]. split; [reflexivity|].
  destruct (readFrames_fit (AudioEngine.decoder_ e) frameCount
              (frames_fill_fit _ Hfill))
    as (w & fr & d1 & Hread & Hfr & Hsize & Hfull).
  specialize (Hfull Hfill).
  destruct (buffer_view_stored w output fr Hfull) as [Hview Hlen].
  destruct (render_output (AudioEngine.setVolume v e) output frameCount fr w d1)
    as [e1 Hr]; try assumption.
  { rewrite <- (firstn_all (buffer_view w output)) at 1.
    assert (Hl : length (firstn (2 * N.to_nat fr) (buffer_view w output))
                 = (2 * N.to_nat fr)%nat).
    { rewrite Hview. apply firstn_length_le. exact Hlen. }
    rewrite length_firstn in Hl. rewrite firstn_all. lia. }
  destruct (audioCallback_output (AudioEngine.setVolume v e) e1 output
              frameCount _ Hst Hop Hnav Hr) as [e' He'].
  exists e', w, fr.
  unfold stored, framesRead. rewrite Hread. cbn [bind fst snd].
  split; [reflexivity|]. split; [reflexivity|].
  split; [|exact Hlen].
  rewrite He'. rewrite Hview. reflexivity.
Qed.

(** The callback on the two-frame stereo stream at volume 0.5, asked for
    four frames: the four samples of the file halved, then four zeros. *)
Example half_volume_output :
  exists e',
    AudioEngine.audioCallback
      (AudioEngine.setVolume F32.half streaming_engine) [] 4
    = Ok (e',
          [S754_finite false 8388608 (-25); F32.half; F32.half;
           S754_finite false 8388608 (-25);
           F32.zero; F32.zero; F32.zero; F32.zero]).
Proof. eexists. vm_compute. reflexivity. Qed.

(** C8.  The claim fails on a session that is not stereo [float].  The
    decoder of the repository stores the frames as the file has them: on
    the two-frame mono file it stores two [float]s (0.5 and 1.0) and
    reports two frames.  The callback, asked for two frames at volume 0.5,
    takes them for two stereo frames and scales four [float]s: the two of
    the file and the two the buffer held before (here 1.0 and 1.0), so the
    third and fourth sample written are no decoded samples.  On a buffer
    nothing was stored in before, it reads [float]s without a value. *)
Theorem mono_session_scales_stale_samples :
  AudioEngine.volume (AudioEngine.setVolume F32.half mono_engine) = F32.half
  /\ stored mono_engine 2 = Ok (raw_bytes (bytes_half ++ bytes_one))
  /\ framesRead mono_engine 2 = Ok 2
  /\ (exists e',
        AudioEngine.audioCallback
          (AudioEngine.setVolume F32.half mono_engine)
          (bytes_one ++ bytes_one ++ bytes_one ++ bytes_one) 2
        = Ok (e', [S754_finite false 8388608 (-25); F32.half;
                   F32.half; F32.half]))
  /\ AudioEngine.audioCallback
       (AudioEngine.setVolume F32.half mono_engine) [] 2 = UB.
Proof.
  split; [reflexivity|]. split; [vm_compute; reflexivity|].
  split; [vm_compute; reflexivity|].
  split; [eexists; vm_compute; reflexivity | vm_compute; reflexivity].
Qed.

(** Frames wider than a stereo [float] frame do not fit the room the
    callback has: on the four-channel file one frame of 16 bytes is read
    into the 8 bytes of [output] for one frame. *)
Example wide_frames_overrun_the_buffer (output : list Byte.byte) :
  stored quad_engine 1
  = Ok (raw_bytes (bytes_half ++ bytes_one ++ bytes_one ++ bytes_half))
  /\ AudioEngine.audioCallback quad_engine output 1 = UB.
Proof. split; vm_compute; reflexivity. Qed.

(** ** Durations *)

Lemma to_int64_small (n : N) :
  n < 2 ^ 63 -> to_int64 n = Z.of_N n.
Proof.
  intro H. unfold to_int64.
  change (2 ^ 63) with 9223372036854775808 in H.
  rewrite wrap_small by (rewrite modulus_value; lia).
  change (2 ^ 63)%Z with 9223372036854775808%Z.
  destruct (Z.ltb_spec (Z.of_N n) 9223372036854775808); [reflexivity | lia].
Qed.

(** The millisecond count [frames * 1000 / rate] of the source, as the
    [uint64_t] expression it is and, when the product stays below 2^63, as
    the exact integer quotient. *)
Lemma millis_value (frames rate : N) :
  rate <> 0 ->
  (ms <- udiv (SizeT.wrap (frames * 1000)) rate ;; Ok (to_int64 ms))
  = Ok (to_int64 (SizeT.wrap (frames * 1000) / rate))
  /\ (frames * 1000 < 2 ^ 63 ->
      (ms <- udiv (SizeT.wrap (frames * 1000)) rate ;; Ok (to_int64 ms))
      = Ok (Z.of_N frames * 1000 / Z.of_N rate)%Z).
Proof.
  intro Hrate. unfold udiv.
  destruct (N.eqb_spec rate 0); [contradiction|]. cbn [bind].
  split; [reflexivity|].
  intro Hsmall. change (2 ^ 63) with 9223372036854775808 in Hsmall.
  rewrite wrap_small by (rewrite modulus_value; lia).
  rewrite to_int64_small.
  - rewrite N2Z.inj_div, N2Z.inj_mul. reflexivity.
  - change (2 ^ 63) with 9223372036854775808.
    pose proof (N.Div0.div_le_upper_bound (frames * 1000) rate (frames * 1000)).
    assert (frames * 1000 / rate <= frames * 1000); [|lia].
    apply N.Div0.div_le_upper_bound. nia.
Qed.

(** C10.  [duration()] and [position()], of the decoder and of the engine,
    return zero when the sample rate is 0 and otherwise the frame count
    times 1000 divided by the sample rate (the [uint64_t] expression of the
    source; the exact quotient whenever the product stays below 2^63); in
    no state is the division performed with a zero divisor. *)
Theorem durations_guard_the_division (d : AudioDecoder.t) (e : AudioEngine.t) :
  (AudioDecoder.sampleRate d = 0 ->
     AudioDecoder.duration d = Ok 0%Z /\ AudioDecoder.position d = Ok 0%Z)
  /\ (AudioDecoder.sampleRate (AudioEngine.decoder_ e) = 0 ->
        AudioEngine.duration e = Ok 0%Z /\ AudioEngine.position e = Ok 0%Z)
  /\ (AudioDecoder.sampleRate d <> 0 ->
        AudioDecoder.duration d
        = Ok (to_int64 (SizeT.wrap (AudioDecoder.totalFrames d * 1000)
                        / AudioDecoder.sampleRate d))
        /\ AudioDecoder.position d
           = Ok (to_int64 (SizeT.wrap (AudioDecoder.currentFrame d * 1000)
                           / AudioDecoder.sampleRate d)))
  /\ (AudioDecoder.sampleRate (AudioEngine.decoder_ e) <> 0 ->
        AudioEngine.duration e
        = Ok (to_int64 (SizeT.wrap (AudioEngine.totalFrames_ e * 1000)
                        / AudioDecoder.sampleRate (AudioEngine.decoder_ e)))
        /\ AudioEngine.position e
           = Ok (to_int64 (SizeT.wrap (AudioEngine.currentFrame_ e * 1000)
                           / AudioDecoder.sampleRate (AudioEngine.decoder_ e))))
  /\ (AudioDecoder.sampleRate d <> 0 ->
      AudioDecoder.totalFrames d * 1000 < 2 ^ 63 ->
      AudioDecoder.currentFrame d * 1000 < 2 ^ 63 ->
        AudioDecoder.duration d
        = Ok (Z.of_N (AudioDecoder.totalFrames d) * 1000
              / Z.of_N (AudioDecoder.sampleRate d))%Z
        /\ AudioDecoder.position d
           = Ok (Z.of_N (AudioDecoder.currentFrame d) * 1000
                 / Z.of_N (AudioDecoder.sampleRate d))%Z)
  /\ (AudioDecoder.sampleRate (AudioEngine.decoder_ e) <> 0 ->
      AudioEngine.totalFrames_ e * 1000 < 2 ^ 63 ->
      AudioEngine.currentFrame_ e * 1000 < 2 ^ 63 ->
        AudioEngine.duration e
        = Ok (Z.of_N (AudioEngine.totalFrames_ e) * 1000
              / Z.of_N (AudioDecoder.sampleRate (AudioEngine.decoder_ e)))%Z
        /\ AudioEngine.position e
           = Ok (Z.of_N (AudioEngine.currentFrame_ e) * 1000
                 / Z.of_N (AudioDecoder.sampleRate (AudioEngine.decoder_ e)))%Z)
  /\ AudioDecoder.duration d <> UB /\ AudioDecoder.position d <> UB
  /\ AudioEngine.duration e <> UB /\ AudioEngine.position e <> UB.
Proof.
  unfold AudioDecoder.duration, AudioDecoder.position, AudioEngine.duration,
    AudioEngine.position, AudioDecoder.sampleRate, AudioDecoder.totalFrames,
    AudioDecoder.currentFrame.
  split; [intros ->; split; reflexivity|].
  split; [intros ->; split; reflexivity|].
  split.
  { intro H. apply N.eqb_neq in H as H'. rewrite H'.
    split; apply millis_value; assumption. }
  split.
  { intro H. apply N.eqb_neq in H as H'. rewrite H'.
    split; apply millis_value; assumption. }
  split.
  { intros H Ht Hc. apply N.eqb_neq in H as H'. rewrite H'.
    split; apply millis_value; assumption. }
  split.
  { intros H Ht Hc. apply N.eqb_neq in H as H'. rewrite H'.
    split; apply millis_value; assumption. }
  repeat split.
  - destruct (N.eqb_spec (AudioDecoder.sampleRate_ d) 0) as [|H];
      [discriminate|].
    rewrite (proj1 (millis_value _ _ H)). discriminate.
  - destruct (N.eqb_spec (AudioDecoder.sampleRate_ d) 0) as [|H];
      [discriminate|].
    rewrite (proj1 (millis_value _ _ H)). discriminate.
  - destruct (N.eqb_spec (AudioDecoder.sampleRate_ (AudioEngine.decoder_ e)) 0)
      as [|H]; [discriminate|].
    rewrite (proj1 (millis_value _ _ H)). discriminate.
  - destruct (N.eqb_spec (AudioDecoder.sampleRate_ (AudioEngine.decoder_ e)) 0)
      as [|H]; [discriminate|].
    rewrite (proj1 (millis_value _ _ H)). discriminate.
Qed.

Lemma durations_guard_the_division_witness :
  (AudioDecoder.duration two_seconds = Ok 2000%Z
   /\ AudioDecoder.position two_seconds = Ok 1000%Z)
  /\ (AudioDecoder.duration unknown_rate = Ok 0%Z
      /\ AudioDecoder.position unknown_rate = Ok 0%Z)
  /\ (AudioEngine.duration streaming_engine = Ok 0%Z
      /\ AudioEngine.position streaming_engine = Ok 0%Z).
Proof.
  split; [|split].
  - apply (durations_guard_the_division two_seconds streaming_engine);
      solve [discriminate | reflexivity].
  - apply (durations_guard_the_division unknown_rate streaming_engine);
      solve [discriminate | reflexivity].
  - apply (durations_guard_the_division unknown_rate streaming_engine);
      solve [discriminate | reflexivity].
Defined.

(** * Further properties of the queue *)

(** ** Permutations produced by the shuffles *)

Lemma set_permutation {A : Type} (v : list A) (i : nat) (a x : A) :
  nth_error v i = Some a -> Permutation (a :: Vec.set v i x) (x :: v).
Proof.
  revert i; induction v as [|y v IH]; intros [|i] H; simpl in *;
    try discriminate.
  - injection H as ->. apply perm_swap.
  - eapply perm_trans; [apply perm_swap|].
    eapply perm_trans; [|apply perm_swap].
    apply perm_skip. now apply IH.
Qed.

Lemma nth_error_set {A : Type} (v : list A) (i k : nat) (x : A) :
  (i < length v)%nat ->
  nth_error (Vec.set v i x) k = if (k =? i)%nat then Some x else nth_error v k.
Proof.
  intro H. destruct (Nat.eqb_spec k i) as [->|Hne].
  - now apply nth_error_set_same.
  - now apply nth_error_set_other.
Qed.

Lemma swap_permutation {A : Type} (v : list A) (i j : nat) :
  Permutation (Vec.swap v i j) v.
Proof.
  unfold Vec.swap.
  destruct (nth_error v i) as [a|] eqn:Ei; [|reflexivity].
  destruct (nth_error v j) as [b|] eqn:Ej; [|reflexivity].
  assert (Hi : (i < length v)%nat) by (apply nth_error_Some; congruence).
  assert (Hj : nth_error (Vec.set v i b) j = Some b).
  { rewrite nth_error_set by assumption.
    destruct (Nat.eqb_spec j i); [reflexivity | assumption]. }
  apply (Permutation_cons_inv (a := b)).
  eapply perm_trans; [apply (set_permutation _ _ _ _ Hj)|].
  apply (set_permutation _ _ _ _ Ei).
Qed.

Lemma reshuffle_loop_permutation (i : nat) :
  forall (order : list N) (g : Rng),
    Permutation (fst (Queue.reshuffle_loop i order g)) order.
Proof.
  induction i as [|i IH]; intros order g; [reflexivity|].
  cbn [Queue.reshuffle_loop].
  destruct (uniform (N.of_nat (S i)) g) as [j g'].
  eapply perm_trans; [apply IH | apply swap_permutation].
Qed.

Lemma shuffle_loop_permutation (n cur : N) (i : nat) :
  forall (order : list N) (g : Rng),
    Permutation (fst (Queue.shuffle_loop n cur i order g)) order.
Proof.
  induction i as [|i IH]; intros order g; [reflexivity|].
  cbn [Queue.shuffle_loop].
  destruct (N.of_nat (S i) =? cur); [apply IH|].
  destruct (uniform (N.of_nat (S i)) g) as [j g'].
  eapply perm_trans; [apply IH | apply swap_permutation].
Qed.

Lemma iota_bounded (n : nat) :
  Forall (fun k => k < N.of_nat n) (Vec.iota n).
Proof.
  unfold Vec.iota. apply Forall_forall. intros k Hk.
  apply in_map_iff in Hk as (m & <- & Hm). apply in_seq in Hm. lia.
Qed.

Lemma permutation_order_ok (tracks : list TrackInfo) (order : list N) :
  Permutation order (Vec.iota (length tracks)) ->
  length order = length tracks
  /\ Forall (fun k => k < Vec.size tracks) order.
Proof.
  intro Hp. split.
  - rewrite (Permutation_length Hp). apply length_iota.
  - eapply Permutation_Forall; [symmetry; exact Hp | apply iota_bounded].
Qed.

(** [updateShuffleOrder()] replaces the permutation and nothing else. *)
Lemma updateShuffleOrder_fields (q : Queue.t) :
  Queue.tracks_ (Queue.updateShuffleOrder q) = Queue.tracks_ q
  /\ Queue.currentIndex_ (Queue.updateShuffleOrder q) = Queue.currentIndex_ q
  /\ Queue.shuffled_ (Queue.updateShuffleOrder q) = Queue.shuffled_ q
  /\ Queue.history_ (Queue.updateShuffleOrder q) = Queue.history_ q
  /\ Permutation (Queue.shuffleOrder_ (Queue.updateShuffleOrder q))
                 (Vec.iota (length (Queue.tracks_ q))).
Proof.
  unfold Queue.updateShuffleOrder.
  destruct (Queue.isEmpty q) eqn:He.
  - qsimpl. repeat split.
    unfold Queue.isEmpty in He. destruct (Queue.tracks_ q); [|discriminate].
    reflexivity.
  - pose proof (reshuffle_loop_permutation (length (Queue.tracks_ q) - 1)
                  (Vec.iota (length (Queue.tracks_ q))) (Queue.rng_ q)) as Hp.
    destruct (Queue.reshuffle_loop (length (Queue.tracks_ q) - 1)
                (Vec.iota (length (Queue.tracks_ q))) (Queue.rng_ q))
      as [order g].
    qsimpl. repeat split. exact Hp.
Qed.

Lemma shuffle_fields (q q' : Queue.t) :
  Queue.isEmpty q = false ->
  Queue.shuffle q = Ok q' ->
  Queue.tracks_ q' = Queue.tracks_ q
  /\ Queue.currentIndex_ q' = Queue.currentIndex_ q
  /\ Queue.history_ q' = Queue.history_ q
  /\ Queue.shuffled_ q' = true
  /\ Permutation (Queue.shuffleOrder_ q') (Vec.iota (length (Queue.tracks_ q))).
Proof.
  intros Hne. unfold Queue.shuffle. rewrite Hne.
  destruct (if Queue.shuffled_ q
            then Vec.at_ (Vec.iota (length (Queue.tracks_ q)))
                         (Queue.currentIndex_ q)
            else Ok (Queue.currentIndex_ q)) as [cti|]; [|discriminate].
  cbn [bind].
  pose proof (shuffle_loop_permutation
                (N.of_nat (length (Queue.tracks_ q))) (Queue.currentIndex_ q)
                (length (Queue.tracks_ q) - 1)
                (Vec.iota (length (Queue.tracks_ q))) (Queue.rng_ q)) as Hp.
  destruct (Queue.shuffle_loop (N.of_nat (length (Queue.tracks_ q)))
              (Queue.currentIndex_ q) (length (Queue.tracks_ q) - 1)
              (Vec.iota (length (Queue.tracks_ q))) (Queue.rng_ q))
    as [order1 g].
  cbn [fst] in Hp. intros [= <-]. qsimpl. repeat split.
  destruct (Vec.find_if (N.eqb cti) order1); [|exact Hp].
  eapply perm_trans; [apply swap_permutation | exact Hp].
Qed.

(** ** The state invariant, operation by operation *)

Ltac vsize :=
  unfold Vec.size, Vec.push_back in *;
  rewrite ?length_app in *; cbn [length] in *.

Lemma length_insert {A : Type} (v : list A) (i : nat) (x : A) :
  length (Vec.insert v i x) = S (length v).
Proof.
  unfold Vec.insert. rewrite length_app. cbn [length].
  rewrite length_firstn, length_skipn. lia.
Qed.

Lemma isEmpty_true_iff (q : Queue.t) :
  Queue.isEmpty q = true <-> Queue.tracks_ q = [].
Proof.
  unfold Queue.isEmpty. destruct (Queue.tracks_ q); split; congruence.
Qed.

Lemma iota_app (n m : nat) :
  Vec.iota (n + m) = Vec.iota n ++ map N.of_nat (seq n m).
Proof. unfold Vec.iota. now rewrite seq_app, map_app. Qed.

Lemma inv_order_ok (q : Queue.t) : Queue.inv q -> Queue.order_ok q.
Proof.
  intros (_ & _ & Hperm) Hsh. now apply permutation_order_ok, Hperm.
Qed.

(** The tail shared by [addNext], [remove] and [move]: the permutation is
    regenerated when the queue is shuffled. *)
Lemma regenerated_inv (q : Queue.t) :
  Vec.size (Queue.tracks_ q) < SizeT.modulus ->
  (Queue.currentIndex_ q < Vec.size (Queue.tracks_ q)
   \/ (Queue.tracks_ q = [] /\ Queue.currentIndex_ q = 0)) ->
  Queue.inv (if Queue.shuffled_ q then Queue.updateShuffleOrder q else q).
Proof.
  intros Hmax Hcur.
  destruct (Queue.shuffled_ q) eqn:Hsh.
  - destruct (updateShuffleOrder_fields q) as (Ht & Hc & Hs & _ & Hp).
    unfold Queue.inv. rewrite Ht, Hc.
    split; [assumption|]. split; [assumption|]. intros _. exact Hp.
  - unfold Queue.inv. rewrite Hsh.
    split; [assumption|]. split; [assumption|discriminate].
Qed.

Lemma add_inv (tr : TrackInfo) (q : Queue.t) :
  Queue.inv q -> Vec.size (Queue.tracks_ q) + 1 < SizeT.modulus ->
  Queue.inv (Queue.add tr q).
Proof.
  intros (Hmax & Hcur & Hord) Hroom.
  destruct q as [tracks order hist cur sh g].
  unfold Queue.add, Queue.inv in *. qsimpl.
  assert (Hc : cur < Vec.size (Vec.push_back tracks tr)
               \/ (Vec.push_back tracks tr = [] /\ cur = 0)).
  { destruct Hcur as [Hc | [-> ->]]; left; vsize; lia. }
  destruct sh; qsimpl.
  - split; [vsize; lia|]. split; [exact Hc|].
    intros _. unfold Vec.push_back. rewrite length_app. cbn [length].
    rewrite iota_app. cbn [seq map].
    apply Permutation_app; [now apply Hord|].
    rewrite dec_small by (vsize; lia).
    replace (Vec.size (tracks ++ [tr]) - 1) with (N.of_nat (length tracks))
      by (vsize; lia).
    reflexivity.
  - split; [vsize; lia|]. split; [exact Hc|discriminate].
Qed.

Lemma addAll_inv (trs : list TrackInfo) (q : Queue.t) :
  Queue.inv q -> Vec.size (Queue.tracks_ q) + Vec.size trs < SizeT.modulus ->
  Queue.inv (Queue.addAll trs q).
Proof.
  intros (Hmax & Hcur & Hord) Hroom.
  destruct q as [tracks order hist cur sh g].
  unfold Queue.addAll, Queue.inv in *. qsimpl.
  assert (Hc : cur < Vec.size (tracks ++ trs)
               \/ (tracks ++ trs = [] /\ cur = 0)).
  { destruct Hcur as [Hc | [-> ->]].
    - left. vsize. lia.
    - destruct trs; [right; auto | left; vsize; lia]. }
  destruct sh; qsimpl.
  - split; [vsize; lia|]. split; [exact Hc|].
    intros _. rewrite length_app, iota_app.
    apply Permutation_app; [now apply Hord | reflexivity].
  - split; [vsize; lia|]. split; [exact Hc|discriminate].
Qed.

Lemma addNext_inv (tr : TrackInfo) (q : Queue.t) :
  Queue.inv q -> Vec.size (Queue.tracks_ q) + 1 < SizeT.modulus ->
  Queue.inv (Queue.addNext tr q).
Proof.
  intros (Hmax & Hcur & Hord) Hroom. unfold Queue.addNext. cbv zeta.
  match goal with
  | |- Queue.inv (if Queue.shuffled_ ?b then _ else _) => set (body := b)
  end.
  assert (Hlen : length (Queue.tracks_ body) = S (length (Queue.tracks_ q))
                 /\ Queue.currentIndex_ body = Queue.currentIndex_ q).
  { subst body.
    destruct (Vec.size (Queue.tracks_ q) <=? SizeT.inc (Queue.currentIndex_ q));
      qsimpl; split; auto.
    - vsize. lia.
    - apply length_insert. }
  destruct Hlen as [Hlen Hc].
  apply regenerated_inv.
  - unfold Vec.size in *. rewrite Hlen. lia.
  - left. rewrite Hc. unfold Vec.size in *. rewrite Hlen.
    destruct Hcur as [H | [H ->]]; lia.
Qed.

Lemma remove_inv (index : N) (q : Queue.t) :
  Queue.inv q -> Queue.inv (Queue.remove index q).
Proof.
  intros Hinv. pose proof Hinv as (Hmax & Hcur & Hord). unfold Queue.remove.
  destruct (N.leb_spec (Vec.size (Queue.tracks_ q)) index) as [|Hin];
    [assumption|].
  assert (Hlen : length (Vec.erase (Queue.tracks_ q) (N.to_nat index))
                 = (length (Queue.tracks_ q) - 1)%nat).
  { apply length_erase. unfold Vec.size in Hin. lia. }
  assert (Hc : Queue.currentIndex_ q < Vec.size (Queue.tracks_ q)).
  { destruct Hcur as [H | [H _]]; [assumption|].
    rewrite H in Hin. unfold Vec.size in Hin. simpl in Hin. lia. }
  cbv zeta. apply regenerated_inv.
  - destruct (index <? _); [|destruct (_ && _)]; qsimpl;
      unfold Vec.size in *; rewrite Hlen; lia.
  - qsimpl. unfold Vec.size in *.
    destruct (N.ltb_spec index (Queue.currentIndex_ q)) as [Hlt | Hge]; qsimpl.
    + left. rewrite Hlen, dec_small by lia. lia.
    + destruct (N.eqb_spec index (Queue.currentIndex_ q)) as [Heq | Hne];
        cbn [andb].
      * rewrite Hlen.
        destruct (N.leb_spec (N.of_nat (length (Queue.tracks_ q) - 1))
                             (Queue.currentIndex_ q)) as [Hlast | Hmid]; qsimpl.
        -- unfold Queue.isEmpty. qsimpl.
           destruct (Vec.erase (Queue.tracks_ q) (N.to_nat index)) eqn:E;
             qsimpl.
           ++ right. split; reflexivity.
           ++ left. rewrite Hlen. simpl in Hlen. rewrite dec_small by lia. lia.
        -- left. rewrite Hlen. lia.
      * qsimpl. left. rewrite Hlen. lia.
Qed.

Lemma move_inv (fromIndex toIndex : N) (q : Queue.t) :
  Queue.inv q -> Queue.inv (Queue.move fromIndex toIndex q).
Proof.
  intros Hinv. pose proof Hinv as (Hmax & Hcur & Hord). unfold Queue.move.
  destruct (N.leb_spec (Vec.size (Queue.tracks_ q)) fromIndex) as [|Hfrom];
    [assumption|].
  destruct (N.leb_spec (Vec.size (Queue.tracks_ q)) toIndex) as [|Hto];
    [assumption|]. cbn [orb].
  destruct (nth_error (Queue.tracks_ q) (N.to_nat fromIndex)) as [tr|];
    [|assumption].
  assert (Hc : Queue.currentIndex_ q < Vec.size (Queue.tracks_ q)).
  { destruct Hcur as [H | [H _]]; [assumption|].
    rewrite H in Hfrom. unfold Vec.size in Hfrom. simpl in Hfrom. lia. }
  assert (Hlen : length (Vec.insert (Vec.erase (Queue.tracks_ q)
                                               (N.to_nat fromIndex))
                                    (N.to_nat toIndex) tr)
                 = length (Queue.tracks_ q)).
  { rewrite length_insert, length_erase; unfold Vec.size in *; lia. }
  cbv zeta. apply regenerated_inv.
  - destruct (fromIndex =? _); [|destruct (_ && _); [|destruct (_ && _)]];
      qsimpl; unfold Vec.size in *; rewrite Hlen; lia.
  - left. qsimpl. unfold Vec.size in *.
    destruct (N.eqb_spec fromIndex (Queue.currentIndex_ q)); qsimpl;
      [rewrite Hlen; lia|].
    destruct (N.ltb_spec fromIndex (Queue.currentIndex_ q));
      destruct (N.leb_spec (Queue.currentIndex_ q) toIndex);
      cbn [andb]; qsimpl;
      try (rewrite Hlen, dec_small by lia; lia);
      destruct (N.ltb_spec (Queue.currentIndex_ q) fromIndex);
      destruct (N.leb_spec toIndex (Queue.currentIndex_ q));
      cbn [andb]; qsimpl; rewrite Hlen;
      try rewrite inc_small by lia; lia.
Qed.

Lemma clear_inv (q : Queue.t) : Queue.inv (Queue.clear q).
Proof.
  unfold Queue.inv, Queue.clear. qsimpl.
  split; [reflexivity|]. split; [right; auto|]. intros _. reflexivity.
Qed.

(** Moving the cursor or the history keeps the invariant. *)
Lemma cursor_inv (q : Queue.t) (hist : list N) (c : N) :
  Queue.inv q -> c < Vec.size (Queue.tracks_ q) ->
  Queue.inv (Queue.set_currentIndex (Queue.set_history q hist) c)
  /\ Queue.inv (Queue.set_history (Queue.set_currentIndex q c) hist)
  /\ Queue.inv (Queue.set_history q hist).
Proof.
  intros (Hmax & Hcur & Hord) Hc. unfold Queue.inv in *. qsimpl. auto 10.
Qed.

Lemma jumpTo_inv (index : N) (q : Queue.t) :
  Queue.inv q -> Queue.inv (Queue.jumpTo index q).
Proof.
  intros Hinv. unfold Queue.jumpTo.
  destruct (N.ltb_spec index (Vec.size (Queue.tracks_ q))); [|assumption].
  now apply cursor_inv.
Qed.

Lemma jumpToId_loop_inv (trackId : string) (q : Queue.t) (k : nat) :
  forall i : nat,
    Queue.inv q -> (i + k = length (Queue.tracks_ q))%nat ->
    exists q', Queue.jumpToId_loop trackId q i k = Ok q' /\ Queue.inv q'.
Proof.
  induction k as [|k IH]; intros i Hinv Hik.
  - exists q. split; [reflexivity | assumption].
  - cbn [Queue.jumpToId_loop].
    assert (Hi : N.of_nat i < Vec.size (Queue.tracks_ q))
      by (unfold Vec.size; lia).
    destruct (resolve_total q (N.of_nat i) (inv_order_ok q Hinv) Hi)
      as [tr Htr].
    rewrite Htr. cbn [bind].
    destruct (String.eqb (id tr) trackId).
    + eexists. split; [reflexivity|]. now apply cursor_inv.
    + apply IH; [assumption | lia].
Qed.

Lemma jumpToId_inv (trackId : string) (q : Queue.t) :
  Queue.inv q ->
  exists q', Queue.jumpToId trackId q = Ok q' /\ Queue.inv q'.
Proof. intro H. now apply jumpToId_loop_inv. Qed.

Lemma inv_nonempty_wf (q : Queue.t) :
  Queue.inv q -> Queue.isEmpty q = false -> Queue.wf q.
Proof.
  intros Hinv Hne. pose proof Hinv as (Hmax & Hcur & _).
  split; [assumption|]. split; [|now apply inv_order_ok].
  destruct Hcur as [H | [H _]]; [assumption|].
  apply isEmpty_true_iff in H. congruence.
Qed.

Lemma next_inv (q : Queue.t) :
  Queue.inv q ->
  exists q' r, Queue.next q = Ok (q', r) /\ Queue.inv q'.
Proof.
  intro Hinv. unfold Queue.next.
  destruct (Queue.isEmpty q) eqn:Hne; [eauto|].
  destruct (inv_nonempty_wf q Hinv Hne) as (Hmax & Hcur & Hord).
  destruct (N.leb_spec
              (Vec.size (Queue.tracks_
                 (Queue.set_history q
                    (Vec.push_back (Queue.history_ q) (Queue.currentIndex_ q)))))
              (SizeT.inc (Queue.currentIndex_
                 (Queue.set_history q
                    (Vec.push_back (Queue.history_ q) (Queue.currentIndex_ q))))))
    as [Hend | Hadv].
  - do 2 eexists. split; [reflexivity|]. now apply cursor_inv.
  - unfold Queue.set_history in Hadv.
    cbn [Queue.tracks_ Queue.currentIndex_] in Hadv.
    rewrite inc_small in Hadv by lia.
    destruct (resolve_total q (Queue.currentIndex_ q + 1) Hord Hadv)
      as [tr Htr].
    cbv zeta.
    replace (Queue.resolve _ _) with (Ok tr).
    + cbn [bind]. do 2 eexists. split; [reflexivity|].
      apply cursor_inv; [assumption|].
      change (SizeT.inc (Queue.currentIndex_ q) < Vec.size (Queue.tracks_ q)).
      rewrite inc_small by lia. exact Hadv.
    + rewrite <- Htr. unfold Queue.resolve. qsimpl.
      rewrite inc_small by lia. reflexivity.
Qed.

Lemma pop_back_Some {A : Type} (v rest : list A) (back : A) :
  Vec.pop_back v = Some (rest, back) -> v = rest ++ [back].
Proof.
  revert rest; induction v as [|x v IH]; intros rest; simpl; [discriminate|].
  destruct (Vec.pop_back v) as [[front last]|] eqn:E.
  - intros [= <- <-]. simpl. f_equal. now apply IH.
  - intros [= <- <-]. destruct v as [|y v']; [reflexivity|].
    simpl in E. destruct (Vec.pop_back v') as [[? ?]|]; discriminate.
Qed.

Lemma previous_inv (q : Queue.t) :
  Queue.inv q ->
  Forall (fun k => k < Vec.size (Queue.tracks_ q)) (Queue.history_ q) ->
  exists q' r, Queue.previous q = Ok (q', r) /\ Queue.inv q'.
Proof.
  intros Hinv Hhist. unfold Queue.previous.
  destruct (Queue.isEmpty q) eqn:Hne; [eauto|].
  destruct (inv_nonempty_wf q Hinv Hne) as (Hmax & Hcur & Hord).
  destruct (Vec.pop_back (Queue.history_ q)) as [[rest back]|] eqn:Epop.
  - apply pop_back_Some in Epop. rewrite Epop in Hhist.
    apply Forall_app in Hhist as [_ Hback].
    inversion Hback as [|? ? Hb _]; subst.
    destruct (resolve_total q back Hord Hb) as [tr Htr].
    cbv zeta.
    replace (Queue.resolve _ _) with (Ok tr) by (rewrite <- Htr; reflexivity).
    cbn [bind]. do 2 eexists. split; [reflexivity|]. now apply cursor_inv.
  - destruct (N.ltb_spec 0 (Queue.currentIndex_ q)) as [Hpos|]; [|eauto].
    assert (Hd : SizeT.dec (Queue.currentIndex_ q)
                 < Vec.size (Queue.tracks_ q))
      by (rewrite dec_small; lia).
    destruct (resolve_total q _ Hord Hd) as [tr Htr].
    cbv zeta.
    replace (Queue.resolve _ _) with (Ok tr) by (rewrite <- Htr; reflexivity).
    cbn [bind]. do 2 eexists. split; [reflexivity|].
    destruct (cursor_inv q (Queue.history_ q) _ Hinv Hd) as (_ & H & _).
    destruct q. exact H.
Qed.

Lemma shuffle_inv (q : Queue.t) :
  Queue.inv q ->
  exists q', Queue.shuffle q = Ok q' /\ Queue.inv q'.
Proof.
  intro Hinv.
  destruct (Queue.isEmpty q) eqn:Hne.
  - exists q. unfold Queue.shuffle. now rewrite Hne.
  - pose proof (inv_nonempty_wf q Hinv Hne) as Hwf.
    destruct (wf_current_entry q Hwf) as [x Hx].
    destruct Hwf as (Hmax & Hcur & _).
    destruct (shuffle_resolves_cursor_naturally q x Hmax Hx)
      as (q' & Hq' & _).
    exists q'. split; [assumption|].
    destruct (shuffle_fields q q' Hne Hq') as (Ht & Hc & _ & Hs & Hp).
    unfold Queue.inv. rewrite Ht, Hc.
    split; [assumption|]. split; [auto|]. intros _. exact Hp.
Qed.

Lemma unshuffle_inv (q : Queue.t) :
  Queue.inv q ->
  Queue.isEmpty q = false \/ Queue.shuffled_ q = false ->
  exists q', Queue.unshuffle q = Ok q' /\ Queue.inv q'.
Proof.
  intros Hinv Hadm. unfold Queue.unshuffle.
  destruct (Queue.shuffled_ q) eqn:Hsh; cbn [negb]; [|eauto].
  destruct Hadm as [Hne | ?]; [|discriminate].
  destruct (inv_nonempty_wf q Hinv Hne) as (Hmax & Hcur & Hord).
  destruct (Hord Hsh) as [Hlen Hall].
  assert (Hc : Queue.currentIndex_ q < Vec.size (Queue.shuffleOrder_ q))
    by (unfold Vec.size in *; rewrite Hlen; exact Hcur).
  destruct (at_in_range _ _ Hc) as [k Hk]. rewrite Hk. cbn [bind].
  eexists. split; [reflexivity|].
  unfold Queue.inv. qsimpl.
  split; [assumption|]. split; [|discriminate].
  left. unfold Vec.at_ in Hk.
  destruct (nth_error (Queue.shuffleOrder_ q)
                      (N.to_nat (Queue.currentIndex_ q))) eqn:E;
    [|discriminate].
  injection Hk as ->. rewrite Forall_forall in Hall. apply Hall.
  eapply nth_error_In; eassumption.
Qed.

(** Every operation of the queue other than [remove(trackId)] returns
    without undefined behaviour and re-establishes the state invariant
    (sizes below 2^64; cursor on an entry, or 0 on the empty queue; when
    shuffled, an order that is a permutation of the natural indices),
    provided the appended tracks fit, [previous()] finds only in-range
    history entries and [unshuffle()] is not called on an empty shuffled
    queue. *)
Theorem step_keeps_inv (o : Queue.op) (q : Queue.t) :
  Queue.inv q ->
  Vec.size (Queue.tracks_ q) + Queue.growth o < SizeT.modulus ->
  Queue.admissible o q ->
  exists q', Queue.step o q = Ok q' /\ Queue.inv q'.
Proof.
  intros Hinv Hroom Hadm.
  destruct o; cbn [Queue.step Queue.growth Queue.admissible] in *.
  - eexists; split; [reflexivity | now apply add_inv].
  - eexists; split; [reflexivity | now apply addAll_inv].
  - eexists; split; [reflexivity | now apply addNext_inv].
  - eexists; split; [reflexivity | now apply remove_inv].
  - contradiction.
  - eexists; split; [reflexivity | now apply move_inv].
  - eexists; split; [reflexivity | apply clear_inv].
  - eexists; split; [reflexivity | now apply jumpTo_inv].
  - now apply jumpToId_inv.
  - destruct (next_inv q Hinv) as (q' & r & Hn & Hq'). rewrite Hn.
    cbn [bind fst]. eauto.
  - destruct (previous_inv q Hinv Hadm) as (q' & r & Hn & Hq').
    rewrite Hn. cbn [bind fst]. eauto.
  - now apply shuffle_inv.
  - now apply unshuffle_inv.
Qed.

Lemma step_keeps_inv_witness :
  exists q',
    Queue.step Queue.Shuffle (three trA trB trC [1; 1; 0]) = Ok q'
    /\ Queue.inv q'.
Proof.
  apply (step_keeps_inv Queue.Shuffle (three trA trB trC [1; 1; 0])).
  - unfold Queue.inv. simpl.
    split; [reflexivity|]. split; [left; reflexivity | discriminate].
  - reflexivity.
  - exact I.
Defined.

(** ** The current track across insertions and moves *)

Lemma nth_error_insert {A : Type} (v : list A) (i k : nat) (x : A) :
  (i <= length v)%nat ->
  nth_error (Vec.insert v i x) k =
  if (k <? i)%nat then nth_error v k
  else if (k =? i)%nat then Some x else nth_error v (k - 1).
Proof.
  unfold Vec.insert. revert i k.
  induction v as [|y v IH]; intros i k Hi.
  - simpl in Hi. assert (i = 0)%nat by lia. subst i. simpl.
    destruct k as [|k]; simpl; [reflexivity|]. now destruct k.
  - destruct i as [|i].
    + simpl. destruct k as [|k]; simpl; [reflexivity|].
      now rewrite Nat.sub_0_r.
    + destruct k as [|k]; [reflexivity|].
      cbn [firstn skipn app nth_error].
      rewrite IH by (simpl in Hi; lia).
      change (S k <? S i)%nat with (k <? i)%nat.
      change (S k =? S i)%nat with (k =? i)%nat.
      destruct (Nat.ltb_spec k i); [reflexivity|].
      destruct (Nat.eqb_spec k i); [reflexivity|].
      destruct k as [|k]; [lia|]. simpl. now rewrite Nat.sub_0_r.
Qed.

(** Where an entry ends up when another entry is moved from [f] to [t]:
    the three cursor adjustments of [move]. *)
Lemma moved_entry {A : Type} (v : list A) (f t c : nat) (x moved : A) :
  nth_error v c = Some x -> nth_error v f = Some moved ->
  (t < length v)%nat ->
  nth_error (Vec.insert (Vec.erase v f) t moved)
            (if (f =? c)%nat then t
             else if ((f <? c) && (c <=? t))%nat then (c - 1)%nat
             else if ((c <? f) && (t <=? c))%nat then (c + 1)%nat
             else c)
  = Some x.
Proof.
  intros Hx Hm Ht.
  assert (Hf : (f < length v)%nat) by (apply nth_error_Some; congruence).
  assert (Hc : (c < length v)%nat) by (apply nth_error_Some; congruence).
  rewrite nth_error_insert by (rewrite length_erase; lia).
  destruct (Nat.eqb_spec f c) as [-> | Hfc].
  - rewrite Nat.ltb_irrefl, Nat.eqb_refl. congruence.
  - destruct (Nat.ltb_spec f c); destruct (Nat.leb_spec c t); cbn [andb].
    + destruct (Nat.ltb_spec (c - 1) t); [|lia].
      rewrite nth_error_erase.
      destruct (Nat.ltb_spec (c - 1) f); [lia|].
      now replace (S (c - 1)) with c by lia.
    + destruct (Nat.ltb_spec c f); [lia|]. cbn [andb].
      destruct (Nat.ltb_spec c t); [lia|].
      destruct (Nat.eqb_spec c t); [lia|].
      rewrite nth_error_erase.
      destruct (Nat.ltb_spec (c - 1) f); [lia|].
      now replace (S (c - 1)) with c by lia.
    + destruct (Nat.ltb_spec c f); [|lia]. cbn [andb].
      destruct (Nat.leb_spec t c).
      * destruct (Nat.ltb_spec (c + 1) t); [lia|].
        destruct (Nat.eqb_spec (c + 1) t); [lia|].
        rewrite nth_error_erase.
        replace (c + 1 - 1)%nat with c by lia.
        destruct (Nat.ltb_spec c f); [assumption | lia].
      * destruct (Nat.ltb_spec c t); [|lia].
        rewrite nth_error_erase.
        destruct (Nat.ltb_spec c f); [assumption | lia].
    + destruct (Nat.ltb_spec c f); [|lia]. cbn [andb].
      destruct (Nat.leb_spec t c); [|lia].
      destruct (Nat.ltb_spec (c + 1) t); [lia|].
      destruct (Nat.eqb_spec (c + 1) t); [lia|].
      rewrite nth_error_erase.
      replace (c + 1 - 1)%nat with c by lia.
      destruct (Nat.ltb_spec c f); [assumption | lia].
Qed.

(** The cursor after [move(from, to)], in [size_t] arithmetic and as a
    position in the vector. *)
Lemma moved_cursor (f t c : N) :
  c < SizeT.modulus - 1 ->
  N.to_nat (if f =? c then t
            else if (f <? c) && (c <=? t) then SizeT.dec c
            else if (c <? f) && (t <=? c) then SizeT.inc c
            else c)
  = (if (N.to_nat f =? N.to_nat c)%nat then N.to_nat t
     else if ((N.to_nat f <? N.to_nat c) && (N.to_nat c <=? N.to_nat t))%nat
     then (N.to_nat c - 1)%nat
     else if ((N.to_nat c <? N.to_nat f) && (N.to_nat t <=? N.to_nat c))%nat
     then (N.to_nat c + 1)%nat
     else N.to_nat c).
Proof.
  intro Hc.
  destruct (N.eqb_spec f c); destruct (Nat.eqb_spec (N.to_nat f) (N.to_nat c));
    try lia.
  destruct (N.ltb_spec f c); destruct (Nat.ltb_spec (N.to_nat f) (N.to_nat c));
    try lia;
    destruct (N.leb_spec c t);
    destruct (Nat.leb_spec (N.to_nat c) (N.to_nat t));
    try lia; cbn [andb];
    try (rewrite dec_small by lia; lia);
    destruct (N.ltb_spec c f);
    destruct (Nat.ltb_spec (N.to_nat c) (N.to_nat f));
    try lia;
    destruct (N.leb_spec t c);
    destruct (Nat.leb_spec (N.to_nat t) (N.to_nat c));
    try lia; cbn [andb];
    try (rewrite inc_small by lia; lia); reflexivity.
Qed.

(** [move(from, to)] on an unshuffled queue with a valid cursor keeps the
    track [current()] returns, whichever entry is moved: the cursor follows
    the current track through the move. *)
Theorem move_keeps_current (fromIndex toIndex : N) (q : Queue.t) :
  Queue.wf q -> Queue.shuffled_ q = false ->
  Queue.current (Queue.move fromIndex toIndex q) = Queue.current q.
Proof.
  intros Hwf Hsh.
  destruct (wf_current_entry q Hwf) as [x Hx].
  destruct Hwf as (Hmax & Hcur & _).
  rewrite (current_unshuffled q x Hsh Hx). unfold Queue.move.
  destruct (N.leb_spec (Vec.size (Queue.tracks_ q)) fromIndex) as [|Hfrom];
    [now apply current_unshuffled|].
  destruct (N.leb_spec (Vec.size (Queue.tracks_ q)) toIndex) as [|Hto];
    [now apply current_unshuffled|]. cbn [orb].
  destruct (nth_error (Queue.tracks_ q) (N.to_nat fromIndex)) as [tr|] eqn:Etr;
    [|now apply current_unshuffled].
  unfold Vec.size in *.
  assert (Ht : (N.to_nat toIndex < length (Queue.tracks_ q))%nat) by lia.
  pose proof (moved_entry (Queue.tracks_ q) (N.to_nat fromIndex)
                (N.to_nat toIndex) (N.to_nat (Queue.currentIndex_ q)) x tr
                Hx Etr Ht) as Hmoved.
  rewrite <- (moved_cursor fromIndex toIndex (Queue.currentIndex_ q)) in Hmoved
    by lia.
  cbv zeta. qsimpl.
  destruct (fromIndex =? Queue.currentIndex_ q);
    [|destruct ((fromIndex <? Queue.currentIndex_ q)
                && (Queue.currentIndex_ q <=? toIndex));
      [|destruct ((Queue.currentIndex_ q <? fromIndex)
                  && (toIndex <=? Queue.currentIndex_ q))]];
    qsimpl; rewrite Hsh; cbn [Queue.shuffled_];
    (apply current_unshuffled; [reflexivity | exact Hmoved]).
Qed.

Lemma move_keeps_current_witness :
  Queue.current (Queue.move 0 2 (three trA trB trC []))
  = Queue.current (three trA trB trC []).
Proof.
  apply (move_keeps_current 0 2 (three trA trB trC [])).
  - unfold Queue.wf, Queue.order_ok. simpl.
    split; [reflexivity|]. split; [reflexivity | discriminate].
  - reflexivity.
Defined.

Lemma at_app_left {A : Type} (v w : list A) (i : N) :
  i < Vec.size v -> Vec.at_ (v ++ w) i = Vec.at_ v i.
Proof.
  intro H. unfold Vec.at_, Vec.size in *.
  rewrite nth_error_app1 by lia. reflexivity.
Qed.

(** Appending tracks (and, when shuffled, order entries) does not change
    what an existing position resolves to. *)
Lemma resolve_extended (q : Queue.t) (tracks : list TrackInfo)
      (order hist : list N) (c i : N) (g : Rng) :
  Queue.order_ok q -> i < Vec.size (Queue.tracks_ q) ->
  Queue.resolve
    (Queue.mk (Queue.tracks_ q ++ tracks)
              (if Queue.shuffled_ q then Queue.shuffleOrder_ q ++ order
               else Queue.shuffleOrder_ q)
              hist c (Queue.shuffled_ q) g) i
  = Queue.resolve q i.
Proof.
  intros Hord Hi. unfold Queue.resolve. qsimpl.
  destruct (Queue.shuffled_ q) eqn:Hsh.
  - destruct (Hord Hsh) as [Hlen Hall].
    assert (Hi' : i < Vec.size (Queue.shuffleOrder_ q))
      by (unfold Vec.size in *; rewrite Hlen; exact Hi).
    rewrite at_app_left by assumption.
    destruct (at_in_range _ _ Hi') as [k Hk]. rewrite Hk. cbn [bind].
    apply at_app_left.
    unfold Vec.at_ in Hk.
    destruct (nth_error (Queue.shuffleOrder_ q) (N.to_nat i)) eqn:E;
      [|discriminate].
    injection Hk as ->. rewrite Forall_forall in Hall. apply Hall.
    eapply nth_error_In; eassumption.
  - cbn [bind]. now apply at_app_left.
Qed.

(** [add] and [addAll] never change the track [current()] returns, also
    while shuffled; on the empty queue, the first track added becomes the
    current one. *)
Theorem appending_keeps_current (tr : TrackInfo) (trs : list TrackInfo)
        (q : Queue.t) :
  Queue.inv q ->
  (Queue.isEmpty q = false ->
     Queue.current (Queue.add tr q) = Queue.current q
     /\ Queue.current (Queue.addAll trs q) = Queue.current q
     /\ Queue.currentIndex (Queue.add tr q) = Queue.currentIndex q
     /\ Queue.currentIndex (Queue.addAll trs q) = Queue.currentIndex q)
  /\ (Queue.isEmpty q = true ->
        Queue.current (Queue.add tr q) = Ok (Some tr)).
Proof.
  intro Hinv. split.
  - intro Hne.
    destruct (inv_nonempty_wf q Hinv Hne) as (Hmax & Hcur & Hord).
    assert (Hadd : Queue.add tr q
                   = Queue.mk (Queue.tracks_ q ++ [tr])
                       (if Queue.shuffled_ q
                        then Queue.shuffleOrder_ q
                             ++ [SizeT.dec (Vec.size (Queue.tracks_ q ++ [tr]))]
                        else Queue.shuffleOrder_ q)
                       (Queue.history_ q) (Queue.currentIndex_ q)
                       (Queue.shuffled_ q) (Queue.rng_ q)).
    { unfold Queue.add. qsimpl. destruct (Queue.shuffled_ q); reflexivity. }
    assert (Hall : Queue.addAll trs q
                   = Queue.mk (Queue.tracks_ q ++ trs)
                       (if Queue.shuffled_ q
                        then Queue.shuffleOrder_ q
                             ++ map N.of_nat (seq (length (Queue.tracks_ q))
                                                  (length trs))
                        else Queue.shuffleOrder_ q)
                       (Queue.history_ q) (Queue.currentIndex_ q)
                       (Queue.shuffled_ q) (Queue.rng_ q)).
    { unfold Queue.addAll. qsimpl. destruct (Queue.shuffled_ q); reflexivity. }
    assert (Hnonempty : forall l, Queue.tracks_ q ++ l <> []).
    { intros l H. apply app_eq_nil in H as [H _].
      apply isEmpty_true_iff in H. congruence. }
    rewrite Hadd, Hall. unfold Queue.current, Queue.isEmpty in *. qsimpl.
    rewrite Hne.
    repeat split.
    + destruct (Queue.tracks_ q ++ [tr]) eqn:E;
        [now apply Hnonempty in E|]. rewrite <- E.
      now rewrite resolve_extended.
    + destruct (Queue.tracks_ q ++ trs) eqn:E;
        [now apply Hnonempty in E|]. rewrite <- E.
      now rewrite resolve_extended.
  - intro Hemp. apply isEmpty_true_iff in Hemp.
    destruct Hinv as (_ & Hcur & Hperm).
    destruct Hcur as [Hc | [_ Hc]];
      [rewrite Hemp in Hc; unfold Vec.size in Hc; simpl in Hc; lia|].
    destruct q as [tracks order hist cur sh g]. qsimpl. subst tracks cur.
    destruct sh.
    + specialize (Hperm eq_refl). simpl in Hperm.
      apply Permutation_sym, Permutation_nil in Hperm. subst order.
      reflexivity.
    + reflexivity.
Qed.

Lemma appending_keeps_current_witness :
  Queue.current (Queue.add trA shuffled_abc_state)
  = Queue.current shuffled_abc_state
  /\ Queue.current (Queue.add trA (Queue.empty [])) = Ok (Some trA).
Proof.
  split.
  - refine (proj1 (proj1 (appending_keeps_current trA [] shuffled_abc_state _)
                         _)).
    + unfold Queue.inv. simpl.
      split; [reflexivity|]. split; [left; reflexivity|].
      intros _. apply perm_skip. apply perm_swap.
    + reflexivity.
  - refine (proj2 (appending_keeps_current trA [] (Queue.empty []) _) _).
    + unfold Queue.inv. simpl.
      split; [reflexivity|]. split; [right; auto | discriminate].
    + reflexivity.
Defined.

(** ** [addNext] *)

Lemma peekNext_unshuffled (q : Queue.t) (x : TrackInfo) :
  Queue.shuffled_ q = false ->
  Vec.size (Queue.tracks_ q) < SizeT.modulus ->
  nth_error (Queue.tracks_ q) (S (N.to_nat (Queue.currentIndex_ q))) = Some x ->
  Queue.peekNext q = Ok (Some x).
Proof.
  intros Hsh Hmax Hx.
  assert (Hlt : (S (N.to_nat (Queue.currentIndex_ q))
                 < length (Queue.tracks_ q))%nat)
    by (apply nth_error_Some; congruence).
  unfold Queue.peekNext, Queue.isEmpty, Queue.resolve, Vec.size in *.
  destruct (Queue.tracks_ q) eqn:E; [simpl in Hlt; lia|]. rewrite <- E in *.
  rewrite inc_small by lia. cbn [orb].
  destruct (N.leb_spec (N.of_nat (length (Queue.tracks_ q)))
                       (Queue.currentIndex_ q + 1)); [lia|].
  rewrite Hsh. cbn [bind]. unfold Vec.at_.
  replace (N.to_nat (Queue.currentIndex_ q + 1))
    with (S (N.to_nat (Queue.currentIndex_ q))) by lia.
  now rewrite Hx.
Qed.

(** [addNext(track)] on an unshuffled queue with a valid cursor leaves
    [current()] as it was and makes [track] the one [peekNext()] shows:
    the track is queued to play next, not at the tail. *)
Theorem addNext_plays_next (tr : TrackInfo) (q : Queue.t) :
  Queue.wf q -> Queue.shuffled_ q = false ->
  Vec.size (Queue.tracks_ q) + 1 < SizeT.modulus ->
  Queue.current (Queue.addNext tr q) = Queue.current q
  /\ Queue.peekNext (Queue.addNext tr q) = Ok (Some tr)
  /\ Queue.size (Queue.addNext tr q) = Queue.size q + 1.
Proof.
  intros Hwf Hsh Hroom.
  destruct (wf_current_entry q Hwf) as [x Hx].
  destruct Hwf as (Hmax & Hcur & _).
  rewrite (current_unshuffled q x Hsh Hx).
  unfold Queue.addNext, Queue.size. cbv zeta.
  rewrite inc_small by lia. unfold Vec.size in *.
  destruct (N.leb_spec (N.of_nat (length (Queue.tracks_ q)))
                       (Queue.currentIndex_ q + 1)) as [Hlast | Hmid];
    qsimpl; rewrite Hsh; cbn [Queue.shuffled_].
  - assert (Hend : (N.to_nat (Queue.currentIndex_ q) + 1
                    = length (Queue.tracks_ q))%nat) by lia.
    split; [|split].
    + apply current_unshuffled; [reflexivity|]. qsimpl.
      unfold Vec.push_back. rewrite nth_error_app1 by lia. exact Hx.
    + apply peekNext_unshuffled; [reflexivity| |]; qsimpl.
      * vsize. lia.
      * unfold Vec.push_back. rewrite nth_error_app2 by lia.
        replace (S (N.to_nat (Queue.currentIndex_ q))
                 - length (Queue.tracks_ q))%nat with 0%nat by lia.
        reflexivity.
    + qsimpl. vsize. lia.
  - split; [|split].
    + apply current_unshuffled; [reflexivity|]. qsimpl.
      rewrite nth_error_insert by lia.
      destruct (Nat.ltb_spec (N.to_nat (Queue.currentIndex_ q))
                             (N.to_nat (Queue.currentIndex_ q + 1)));
        [exact Hx | lia].
    + apply peekNext_unshuffled; [reflexivity| |]; qsimpl.
      * unfold Vec.size. rewrite length_insert. lia.
      * rewrite nth_error_insert by lia.
        destruct (Nat.ltb_spec (S (N.to_nat (Queue.currentIndex_ q)))
                               (N.to_nat (Queue.currentIndex_ q + 1))); [lia|].
        destruct (Nat.eqb_spec (S (N.to_nat (Queue.currentIndex_ q)))
                               (N.to_nat (Queue.currentIndex_ q + 1)));
          [reflexivity | lia].
    + qsimpl. rewrite length_insert. lia.
Qed.

Lemma addNext_plays_next_witness :
  Queue.current (Queue.addNext trC (three trA trB trC []))
  = Queue.current (three trA trB trC [])
  /\ Queue.peekNext (Queue.addNext trC (three trA trB trC [])) = Ok (Some trC)
  /\ Queue.size (Queue.addNext trC (three trA trB trC []))
     = Queue.size (three trA trB trC []) + 1.
Proof.
  apply (addNext_plays_next trC (three trA trB trC [])).
  - unfold Queue.wf, Queue.order_ok. simpl.
    split; [reflexivity|]. split; [reflexivity | discriminate].
  - reflexivity.
  - reflexivity.
Defined.

(** ** Shuffle and unshuffle *)

(** [shuffle()] on a queue with a valid cursor returns; the new order is a
    permutation of the natural indices, so every track is visited exactly
    once, and it maps the cursor to itself; tracks, cursor and history are
    untouched. *)
Theorem shuffle_yields_pinned_permutation (q : Queue.t) :
  Queue.wf q ->
  exists q',
    Queue.shuffle q = Ok q'
    /\ Queue.isShuffled q' = true
    /\ Permutation (Queue.shuffleOrder_ q')
                   (Vec.iota (length (Queue.tracks_ q)))
    /\ NoDup (Queue.shuffleOrder_ q')
    /\ Vec.at_ (Queue.shuffleOrder_ q') (Queue.currentIndex_ q)
       = Ok (Queue.currentIndex_ q)
    /\ Queue.tracks_ q' = Queue.tracks_ q
    /\ Queue.currentIndex_ q' = Queue.currentIndex_ q
    /\ Queue.history_ q' = Queue.history_ q.
Proof.
  intro Hwf.
  destruct (wf_current_entry q Hwf) as [x Hx].
  pose proof Hwf as (Hmax & Hcur & _).
  pose proof (isEmpty_false_of_cursor q Hcur) as Hne.
  destruct (shuffle_resolves_cursor_naturally q x Hmax Hx)
    as (q' & Hq' & _ & _ & _ & Hpin & _).
  destruct (shuffle_fields q q' Hne Hq') as (Ht & Hc & Hh & Hs & Hp).
  exists q'. repeat split; try assumption.
  eapply Permutation_NoDup; [symmetry; exact Hp|].
  unfold Vec.iota. apply Finite.Injective_map_NoDup; [|apply seq_NoDup].
  intros a b H. now apply Nat2N.inj.
Qed.

Lemma shuffle_yields_pinned_permutation_witness :
  exists q',
    Queue.shuffle (three trA trB trC [1; 1; 0]) = Ok q'
    /\ Queue.isShuffled q' = true
    /\ Permutation (Queue.shuffleOrder_ q')
                   (Vec.iota (length (Queue.tracks_ (three trA trB trC [1; 1; 0]))))
    /\ NoDup (Queue.shuffleOrder_ q')
    /\ Vec.at_ (Queue.shuffleOrder_ q')
               (Queue.currentIndex_ (three trA trB trC [1; 1; 0]))
       = Ok (Queue.currentIndex_ (three trA trB trC [1; 1; 0]))
    /\ Queue.tracks_ q' = Queue.tracks_ (three trA trB trC [1; 1; 0])
    /\ Queue.currentIndex_ q'
       = Queue.currentIndex_ (three trA trB trC [1; 1; 0])
    /\ Queue.history_ q' = Queue.history_ (three trA trB trC [1; 1; 0]).
Proof.
  apply (shuffle_yields_pinned_permutation (three trA trB trC [1; 1; 0])).
  unfold Queue.wf, Queue.order_ok. simpl.
  split; [reflexivity|]. split; [reflexivity | discriminate].
Defined.

(** [unshuffle()] on a shuffled queue with a valid cursor and order returns
    a queue in natural order whose cursor is the natural index of the track
    that was current, so [current()] is unchanged. *)
Theorem unshuffle_keeps_current (q : Queue.t) :
  Queue.wf q -> Queue.shuffled_ q = true ->
  exists q' k,
    Queue.unshuffle q = Ok q'
    /\ Vec.at_ (Queue.shuffleOrder_ q) (Queue.currentIndex_ q) = Ok k
    /\ Queue.currentIndex q' = k
    /\ Queue.isShuffled q' = false
    /\ Queue.shuffleOrder_ q' = []
    /\ Queue.tracks_ q' = Queue.tracks_ q
    /\ Queue.current q' = Queue.current q.
Proof.
  intros (Hmax & Hcur & Hord) Hsh.
  destruct (resolve_total q (Queue.currentIndex_ q) Hord Hcur) as [tr Htr].
  pose proof (isEmpty_false_of_cursor q Hcur) as Hne.
  unfold Queue.unshuffle, Queue.current, Queue.resolve in *.
  rewrite Hsh, Hne in *. cbn [negb].
  destruct (Vec.at_ (Queue.shuffleOrder_ q) (Queue.currentIndex_ q))
    as [k|] eqn:Ek; [|discriminate].
  cbn [bind] in *.
  do 2 eexists. split; [reflexivity|]. split; [reflexivity|].
  unfold Queue.isEmpty in *. qsimpl. rewrite Hne, Htr.
  repeat split. cbn [bind]. now rewrite Htr.
Qed.

Lemma unshuffle_keeps_current_witness :
  exists q' k,
    Queue.unshuffle shuffled_abc_state = Ok q'
    /\ Vec.at_ (Queue.shuffleOrder_ shuffled_abc_state)
               (Queue.currentIndex_ shuffled_abc_state) = Ok k
    /\ Queue.currentIndex q' = k
    /\ Queue.isShuffled q' = false
    /\ Queue.shuffleOrder_ q' = []
    /\ Queue.tracks_ q' = Queue.tracks_ shuffled_abc_state
    /\ Queue.current q' = Queue.current shuffled_abc_state.
Proof.
  apply (unshuffle_keeps_current shuffled_abc_state).
  - unfold Queue.wf, Queue.order_ok. simpl.
    split; [reflexivity|]. split; [reflexivity|]. intros _.
    split; [reflexivity|]. repeat constructor.
  - reflexivity.
Defined.

(** On an unshuffled queue with a valid cursor, [shuffle()] followed by
    [unshuffle()] gives back the queue it started from: tracks, cursor and
    history are the same, and only the random engine has advanced. *)
Theorem unshuffle_undoes_shuffle (q : Queue.t) :
  Queue.wf q -> Queue.shuffled_ q = false -> Queue.shuffleOrder_ q = [] ->
  exists q1 g,
    Queue.shuffle q = Ok q1
    /\ Queue.unshuffle q1 = Ok (Queue.set_rng q g).
Proof.
  intros Hwf Hsh Hnil.
  destruct (wf_current_entry q Hwf) as [x Hx].
  pose proof Hwf as (Hmax & Hcur & _).
  destruct (shuffle_resolves_cursor_naturally q x Hmax Hx)
    as (q1 & Hq1 & _ & _ & _ & Hpin & _).
  destruct (shuffle_fields q q1 (isEmpty_false_of_cursor q Hcur) Hq1)
    as (Ht & Hc & Hh & Hs & _).
  exists q1, (Queue.rng_ q1). split; [assumption|].
  unfold Queue.unshuffle, Queue.isShuffled in *. rewrite Hs. cbn [negb].
  rewrite Hc, Hpin. cbn [bind].
  destruct q as [tracks order hist cur sh g].
  destruct q1 as [tracks1 order1 hist1 cur1 sh1 g1].
  qsimpl. now subst.
Qed.

Lemma unshuffle_undoes_shuffle_witness :
  exists q1 g,
    Queue.shuffle (three trA trB trC [1; 1; 0]) = Ok q1
    /\ Queue.unshuffle q1 = Ok (Queue.set_rng (three trA trB trC [1; 1; 0]) g).
Proof.
  apply (unshuffle_undoes_shuffle (three trA trB trC [1; 1; 0])).
  - unfold Queue.wf, Queue.order_ok. simpl.
    split; [reflexivity|]. split; [reflexivity | discriminate].
  - reflexivity.
  - reflexivity.
Defined.

(** [clear()] keeps the shuffle flag: after [clear()] on a shuffled queue,
    [unshuffle()] reads [shuffleOrder_[0]] of an empty vector. *)
Theorem unshuffle_after_clear_reads_out_of_range (q : Queue.t) :
  Queue.shuffled_ q = true ->
  Queue.isShuffled (Queue.clear q) = true
  /\ Queue.isEmpty (Queue.clear q) = true
  /\ Queue.unshuffle (Queue.clear q) = UB.
Proof.
  intro Hsh. unfold Queue.isShuffled, Queue.unshuffle, Queue.clear. qsimpl.
  rewrite Hsh. repeat split.
Qed.

Lemma unshuffle_after_clear_reads_out_of_range_witness :
  Queue.run [Queue.Add trA; Queue.Shuffle; Queue.Clear; Queue.Unshuffle]
            (Queue.empty []) = UB.
Proof.
  change (Queue.run [Queue.Add trA; Queue.Shuffle; Queue.Clear; Queue.Unshuffle]
                    (Queue.empty []))
    with (Queue.unshuffle
            (Queue.clear (Queue.mk [trA] [0] [] 0 true []))).
  apply (unshuffle_after_clear_reads_out_of_range
           (Queue.mk [trA] [0] [] 0 true [])).
  reflexivity.
Defined.

(** ** Jumps and peeks *)

(** After [jumpTo(index)] to a valid position, [previous()] returns to the
    position left, with the track that was current there, and restores the
    queue state; [jumpTo] past the end changes nothing. *)
Theorem previous_undoes_jumpTo (index : N) (q : Queue.t) :
  Queue.wf q ->
  (index < Queue.size q ->
     Queue.currentIndex (Queue.jumpTo index q) = index
     /\ exists tr,
          Queue.current q = Ok (Some tr)
          /\ Queue.previous (Queue.jumpTo index q) = Ok (q, Some tr))
  /\ (Queue.size q <= index -> Queue.jumpTo index q = q).
Proof.
  intros (Hmax & Hcur & Hord). unfold Queue.size, Queue.jumpTo. split.
  - intro Hin.
    destruct (N.ltb_spec index (Vec.size (Queue.tracks_ q))); [|lia].
    split; [reflexivity|].
    destruct (resolve_total q (Queue.currentIndex_ q) Hord Hcur) as [tr Htr].
    pose proof (isEmpty_false_of_cursor q Hcur) as Hne.
    exists tr. unfold Queue.current, Queue.previous, Queue.isEmpty in *.
    qsimpl. rewrite Hne, pop_back_push. qsimpl.
    unfold Queue.resolve in *. qsimpl. rewrite Htr. cbn [bind].
    split; [reflexivity|]. now destruct q.
  - intro Hout.
    destruct (N.ltb_spec index (Vec.size (Queue.tracks_ q))); [lia|reflexivity].
Qed.

Lemma previous_undoes_jumpTo_witness :
  Queue.currentIndex (Queue.jumpTo 2 (three trA trB trC [])) = 2
  /\ exists tr,
       Queue.current (three trA trB trC []) = Ok (Some tr)
       /\ Queue.previous (Queue.jumpTo 2 (three trA trB trC []))
          = Ok (three trA trB trC [], Some tr).
Proof.
  refine (proj1 (previous_undoes_jumpTo 2 (three trA trB trC []) _) _).
  - unfold Queue.wf, Queue.order_ok. simpl.
    split; [reflexivity|]. split; [reflexivity | discriminate].
  - reflexivity.
Defined.

(** On a queue with a valid cursor, [peekNext()] shows exactly what the
    next [next()] returns; [peekPrevious()] shows what [previous()] returns
    when the history stack is empty. *)
Theorem peeks_predict_navigation (q : Queue.t) :
  Queue.wf q ->
  (exists q' r, Queue.next q = Ok (q', r) /\ Queue.peekNext q = Ok r)
  /\ (Queue.history_ q = [] ->
      exists q' r,
        Queue.previous q = Ok (q', r) /\ Queue.peekPrevious q = Ok r).
Proof.
  intros (Hmax & Hcur & Hord).
  pose proof (isEmpty_false_of_cursor q Hcur) as Hne.
  split.
  - unfold Queue.next, Queue.peekNext. rewrite Hne. cbn [orb]. qsimpl.
    destruct (N.leb_spec (Vec.size (Queue.tracks_ q))
                         (SizeT.inc (Queue.currentIndex_ q))) as [|Hadv];
      [eauto|].
    destruct (resolve_total q (SizeT.inc (Queue.currentIndex_ q)) Hord Hadv)
      as [tr Htr].
    unfold Queue.resolve in *. qsimpl. rewrite Htr. cbn [bind]. eauto.
  - intro Hnil. unfold Queue.previous, Queue.peekPrevious.
    rewrite Hne, Hnil. cbn [orb Vec.pop_back].
    destruct (N.ltb_spec 0 (Queue.currentIndex_ q)) as [Hpos | Hzero];
      destruct (N.eqb_spec (Queue.currentIndex_ q) 0); try lia; [|eauto].
    assert (Hd : SizeT.dec (Queue.currentIndex_ q)
                 < Vec.size (Queue.tracks_ q))
      by (rewrite dec_small; lia).
    destruct (resolve_total q _ Hord Hd) as [tr Htr].
    unfold Queue.resolve in *. qsimpl. rewrite Htr. cbn [bind]. eauto.
Qed.

Lemma peeks_predict_navigation_witness :
  (exists q' r,
      Queue.next (three trA trB trC []) = Ok (q', r)
      /\ Queue.peekNext (three trA trB trC []) = Ok r)
  /\ (Queue.history_ (three trA trB trC []) = [] ->
      exists q' r,
        Queue.previous (three trA trB trC []) = Ok (q', r)
        /\ Queue.peekPrevious (three trA trB trC []) = Ok r).
Proof.
  apply (peeks_predict_navigation (three trA trB trC [])).
  unfold Queue.wf, Queue.order_ok. simpl.
  split; [reflexivity|]. split; [reflexivity | discriminate].
Defined.

(** On the empty queue every navigation returns [nullopt] and neither
    navigation, jump, removal, move nor shuffle changes the state. *)
Theorem empty_queue_is_inert (q : Queue.t) :
  Queue.isEmpty q = true ->
  Queue.current q = Ok None
  /\ Queue.next q = Ok (q, None)
  /\ Queue.previous q = Ok (q, None)
  /\ Queue.peekNext q = Ok None
  /\ Queue.peekPrevious q = Ok None
  /\ (forall index, Queue.jumpTo index q = q)
  /\ (forall trackId, Queue.jumpToId trackId q = Ok q)
  /\ (forall index, Queue.remove index q = q)
  /\ (forall trackId, Queue.remove_id trackId q = q)
  /\ (forall fromIndex toIndex, Queue.move fromIndex toIndex q = q)
  /\ Queue.shuffle q = Ok q.
Proof.
  intro Hemp. pose proof Hemp as Hnil. apply isEmpty_true_iff in Hnil.
  unfold Queue.current, Queue.next, Queue.previous, Queue.peekNext,
    Queue.peekPrevious, Queue.shuffle. rewrite Hemp. cbn [orb].
  repeat split.
  - intro index. unfold Queue.jumpTo. rewrite Hnil.
    destruct (N.ltb_spec index (Vec.size (@nil TrackInfo))) as [H|];
      [unfold Vec.size in H; simpl in H; lia | reflexivity].
  - intro trackId. unfold Queue.jumpToId. now rewrite Hnil.
  - intro index. unfold Queue.remove. rewrite Hnil.
    destruct (N.leb_spec (Vec.size (@nil TrackInfo)) index) as [|H];
      [reflexivity | unfold Vec.size in H; simpl in H; lia].
  - intro trackId. unfold Queue.remove_id. now rewrite Hnil.
  - intros fromIndex toIndex. unfold Queue.move. rewrite Hnil.
    destruct (N.leb_spec (Vec.size (@nil TrackInfo)) fromIndex) as [|H];
      [reflexivity | unfold Vec.size in H; simpl in H; lia].
Qed.

Lemma empty_queue_is_inert_witness :
  Queue.current (Queue.empty []) = Ok None
  /\ Queue.next (Queue.empty []) = Ok (Queue.empty [], None)
  /\ Queue.previous (Queue.empty []) = Ok (Queue.empty [], None)
  /\ Queue.peekNext (Queue.empty []) = Ok None
  /\ Queue.peekPrevious (Queue.empty []) = Ok None
  /\ (forall index, Queue.jumpTo index (Queue.empty []) = Queue.empty [])
  /\ (forall trackId, Queue.jumpToId trackId (Queue.empty [])
                      = Ok (Queue.empty []))
  /\ (forall index, Queue.remove index (Queue.empty []) = Queue.empty [])
  /\ (forall trackId, Queue.remove_id trackId (Queue.empty [])
                      = Queue.empty [])
  /\ (forall fromIndex toIndex,
        Queue.move fromIndex toIndex (Queue.empty []) = Queue.empty [])
  /\ Queue.shuffle (Queue.empty []) = Ok (Queue.empty []).
Proof.
  apply (empty_queue_is_inert (Queue.empty [])). reflexivity.
Defined.

Lemma jumpToId_loop_scan (trackId : string) (q : Queue.t) (k : nat) :
  forall i : nat,
    Queue.inv q -> (i + k = length (Queue.tracks_ q))%nat ->
    (forall j, (j < i)%nat ->
       exists tr, Queue.resolve q (N.of_nat j) = Ok tr /\ id tr <> trackId) ->
    exists q',
      Queue.jumpToId_loop trackId q i k = Ok q'
      /\ ((exists p tr,
              (p < length (Queue.tracks_ q))%nat
              /\ Queue.resolve q (N.of_nat p) = Ok tr /\ id tr = trackId
              /\ q' = Queue.set_currentIndex
                        (Queue.set_history q
                           (Vec.push_back (Queue.history_ q)
                                          (Queue.currentIndex_ q)))
                        (N.of_nat p))
          \/ (q' = q
              /\ forall j, (j < length (Queue.tracks_ q))%nat ->
                   exists tr, Queue.resolve q (N.of_nat j) = Ok tr
                              /\ id tr <> trackId)).
Proof.
  induction k as [|k IH]; intros i Hinv Hik Hseen.
  - exists q. split; [reflexivity|]. right. split; [reflexivity|].
    intros j Hj. apply Hseen. lia.
  - cbn [Queue.jumpToId_loop].
    assert (Hi : N.of_nat i < Vec.size (Queue.tracks_ q))
      by (unfold Vec.size; lia).
    destruct (resolve_total q (N.of_nat i) (inv_order_ok q Hinv) Hi)
      as [tr Htr].
    rewrite Htr. cbn [bind].
    destruct (String.eqb_spec (id tr) trackId) as [Heq | Hne].
    + eexists. split; [reflexivity|]. left. exists i, tr.
      repeat split; auto. lia.
    + apply IH; [assumption | lia |].
      intros j Hj. destruct (Nat.eq_dec j i) as [-> | Hji].
      * eauto.
      * apply Hseen. lia.
Qed.

(** [jumpToId(id)] on a queue satisfying the invariant returns.  If some
    track has the id, the cursor moves to a position of the visible order
    that resolves to such a track, the former cursor is pushed on the
    history, and [current()] then has that id; if no track has the id, the
    queue is unchanged. *)
Theorem jumpToId_finds_the_track (trackId : string) (q : Queue.t) :
  Queue.inv q ->
  exists q',
    Queue.jumpToId trackId q = Ok q'
    /\ ((exists tr,
            Queue.current q' = Ok (Some tr) /\ id tr = trackId
            /\ Queue.history_ q'
               = Vec.push_back (Queue.history_ q) (Queue.currentIndex_ q)
            /\ Queue.tracks_ q' = Queue.tracks_ q)
        \/ (q' = q
            /\ Forall (fun tr => id tr <> trackId) (Queue.tracks_ q))).
Proof.
  intro Hinv.
  destruct (jumpToId_loop_scan trackId q (length (Queue.tracks_ q)) 0 Hinv)
    as (q' & Hq' & Hcase); [reflexivity | intros j Hj; lia |].
  exists q'. split; [exact Hq'|].
  destruct Hcase as [(p & tr & Hp & Hres & Hid & ->) | [-> Hnone]].
  - left. exists tr. repeat split; auto.
    unfold Queue.current, Queue.isEmpty, Queue.resolve in *. qsimpl.
    destruct (Queue.tracks_ q) eqn:E; [simpl in Hp; lia|].
    rewrite <- E in *. now rewrite Hres.
  - right. split; [reflexivity|].
    apply Forall_forall. intros tr Hin.
    apply In_nth_error in Hin as [m Hm].
    assert (Hmlt : (m < length (Queue.tracks_ q))%nat)
      by (apply nth_error_Some; congruence).
    destruct (Queue.shuffled_ q) eqn:Hsh.
    + destruct Hinv as (_ & _ & Hperm). specialize (Hperm Hsh).
      assert (Hin : In (N.of_nat m) (Queue.shuffleOrder_ q)).
      { eapply Permutation_in; [symmetry; exact Hperm|].
        unfold Vec.iota. apply in_map, in_seq. lia. }
      apply In_nth_error in Hin as [j Hj].
      assert (Hjlt : (j < length (Queue.tracks_ q))%nat).
      { rewrite <- (length_iota (length (Queue.tracks_ q))).
        rewrite <- (Permutation_length Hperm).
        apply nth_error_Some. congruence. }
      destruct (Hnone j Hjlt) as (tr' & Hres & Hid).
      unfold Queue.resolve, Vec.at_ in Hres. rewrite Hsh in Hres.
      rewrite Nat2N.id, Hj in Hres. cbn [bind] in Hres.
      rewrite Nat2N.id, Hm in Hres. now injection Hres as <-.
    + destruct (Hnone m Hmlt) as (tr' & Hres & Hid).
      unfold Queue.resolve, Vec.at_ in Hres. rewrite Hsh in Hres.
      cbn [bind] in Hres. rewrite Nat2N.id, Hm in Hres.
      now injection Hres as <-.
Qed.

Lemma jumpToId_finds_the_track_witness :
  exists q',
    Queue.jumpToId "c" shuffled_abc_state = Ok q'
    /\ ((exists tr,
            Queue.current q' = Ok (Some tr) /\ id tr = "c"%string
            /\ Queue.history_ q'
               = Vec.push_back (Queue.history_ shuffled_abc_state)
                               (Queue.currentIndex_ shuffled_abc_state)
            /\ Queue.tracks_ q' = Queue.tracks_ shuffled_abc_state)
        \/ (q' = shuffled_abc_state
            /\ Forall (fun tr => id tr <> "c"%string)
                      (Queue.tracks_ shuffled_abc_state))).
Proof.
  apply (jumpToId_finds_the_track "c" shuffled_abc_state).
  unfold Queue.inv. simpl.
  split; [reflexivity|]. split; [left; reflexivity|].
  intros _. apply perm_skip. apply perm_swap.
Defined.


(** * Further properties of the engine *)

(** ** [stop()] *)

(** [stop()] on an engine that is not [Stopped] closes the session, zeroes
    the frame counters, clears the current track, stops device and timer,
    delivers exactly one playback-stopped event and leaves queue and volume
    alone; on a [Stopped] engine it changes nothing.  Calling it twice is
    the same as calling it once. *)
Theorem stop_releases_the_session (e : AudioEngine.t) :
  (AudioEngine.state_ e = Stopped -> AudioEngine.stop e = (e, Success))
  /\ (AudioEngine.state_ e <> Stopped ->
      snd (AudioEngine.stop e) = Success
      /\ AudioEngine.state (fst (AudioEngine.stop e)) = Stopped
      /\ AudioEngine.decoder_ (fst (AudioEngine.stop e))
         = AudioDecoder.close (AudioEngine.decoder_ e)
      /\ AudioDecoder.isOpen (AudioEngine.decoder_ (fst (AudioEngine.stop e)))
         = false
      /\ AudioEngine.currentFrame_ (fst (AudioEngine.stop e)) = 0
      /\ AudioEngine.totalFrames_ (fst (AudioEngine.stop e)) = 0
      /\ AudioEngine.currentTrack_ (fst (AudioEngine.stop e)) = None
      /\ AudioEngine.deviceStarted (fst (AudioEngine.stop e)) = false
      /\ AudioEngine.progressRunning_ (fst (AudioEngine.stop e)) = false
      /\ EventBus.delivered (AudioEngine.eventBus_ (fst (AudioEngine.stop e)))
         = EventBus.delivered (AudioEngine.eventBus_ e)
           ++ [mkEvent PlaybackStopped NoData]
      /\ AudioEngine.queue_ (fst (AudioEngine.stop e)) = AudioEngine.queue_ e
      /\ AudioEngine.volume_ (fst (AudioEngine.stop e)) = AudioEngine.volume_ e)
  /\ AudioEngine.stop (fst (AudioEngine.stop e))
     = (fst (AudioEngine.stop e), Success).
Proof.
  destruct e as [bus q d [[started]|] st vol cf tf rm sh ct cb tap pr ini].
  all: split; [|split].
  all: try (cbn [AudioEngine.state_]; intros ->; reflexivity).
  all: try (cbn [AudioEngine.state_]; intro Hst;
            destruct st; try contradiction; destruct pr;
            try destruct started; ecompute; repeat split; reflexivity).
  all: destruct st; destruct pr; try destruct started; ecompute; reflexivity.
Qed.

Lemma stop_releases_the_session_witness :
  snd (AudioEngine.stop streaming_engine) = Success
  /\ AudioEngine.state (fst (AudioEngine.stop streaming_engine)) = Stopped
  /\ AudioDecoder.isOpen
       (AudioEngine.decoder_ (fst (AudioEngine.stop streaming_engine))) = false.
Proof.
  destruct (proj1 (proj2 (stop_releases_the_session streaming_engine)))
    as (H1 & H2 & _ & H3 & _).
  - (vm_compute; discriminate).
  - exact (conj H1 (conj H2 H3)).
Defined.

(** ** [playTrack] *)

(** [playTrack(track)] succeeds exactly when the file exists, miniaudio
    opens it and the device starts, which takes a device (an engine that
    was never initialised has none) and an audio thread.  Then the engine
    is [Playing] the track from frame 0 and has delivered track-changed
    followed by playback-started.  When the file cannot be opened the call
    fails, whatever [sourceId] says, without delivering an event and
    without changing state or current track, and no session is left open.
    When only the device fails, the track is loaded but the state is
    unchanged and nothing is delivered. *)
Theorem playTrack_outcome (w : World) (tr : TrackInfo) (e : AudioEngine.t) :
  (exists_ w (filePath tr) = false
   \/ ma_decoder_init_file w (filePath tr) = None ->
   ok (snd (AudioEngine.playTrack w tr e)) = false
   /\ AudioDecoder.isOpen
        (AudioEngine.decoder_ (fst (AudioEngine.playTrack w tr e))) = false
   /\ AudioEngine.state_ (fst (AudioEngine.playTrack w tr e))
      = AudioEngine.state_ e
   /\ AudioEngine.currentTrack_ (fst (AudioEngine.playTrack w tr e))
      = AudioEngine.currentTrack_ e
   /\ AudioEngine.eventBus_ (fst (AudioEngine.playTrack w tr e))
      = AudioEngine.eventBus_ e)
  /\ (forall dec,
        exists_ w (filePath tr) = true ->
        ma_decoder_init_file w (filePath tr) = Some dec ->
        AudioDecoder.isOpen
          (AudioEngine.decoder_ (fst (AudioEngine.playTrack w tr e))) = true
        /\ AudioDecoder.currentFrame
             (AudioEngine.decoder_ (fst (AudioEngine.playTrack w tr e))) = 0
        /\ AudioEngine.currentFrame_ (fst (AudioEngine.playTrack w tr e)) = 0
        /\ AudioEngine.totalFrames_ (fst (AudioEngine.playTrack w tr e))
           = ma_decoder_get_length_in_pcm_frames dec
        /\ AudioEngine.currentTrack_ (fst (AudioEngine.playTrack w tr e))
           = Some tr
        /\ (AudioEngine.device_ e <> None -> pthread_create w = true ->
            snd (AudioEngine.playTrack w tr e) = Success
            /\ AudioEngine.state_ (fst (AudioEngine.playTrack w tr e)) = Playing
            /\ AudioEngine.deviceStarted (fst (AudioEngine.playTrack w tr e))
               = true
            /\ EventBus.delivered
                 (AudioEngine.eventBus_ (fst (AudioEngine.playTrack w tr e)))
               = EventBus.delivered (AudioEngine.eventBus_ e)
                 ++ [mkEvent TrackChanged (TrackData tr);
                     mkEvent PlaybackStarted (TrackData tr)])
        /\ (AudioEngine.device_ e = None \/ pthread_create w = false ->
            snd (AudioEngine.playTrack w tr e)
            = Failure "Failed to start audio device"
            /\ AudioEngine.state_ (fst (AudioEngine.playTrack w tr e))
               = AudioEngine.state_ e
            /\ AudioEngine.deviceStarted (fst (AudioEngine.playTrack w tr e))
               = false
            /\ AudioEngine.eventBus_ (fst (AudioEngine.playTrack w tr e))
               = AudioEngine.eventBus_ e)).
Proof.
  destruct e as [bus q d dev st vol cf tf rm sh ct cb tap pr ini].
  split.
  - intros [Hex | Hinit]; ecompute.
    + rewrite Hex. ecompute.
      destruct (String.eqb (sourceId tr) ""); ecompute; repeat split.
    + rewrite Hinit.
      destruct (exists_ w (filePath tr)); ecompute;
        destruct (String.eqb (sourceId tr) ""); ecompute; repeat split.
  - intros dec Hex Hinit. ecompute. rewrite Hex, Hinit. ecompute.
    assert (Hno : forall (P : Prop) (dev0 : ma_device),
               Some dev0 = None \/ true = false -> P)
      by (intros P dev0 [H | H]; discriminate).
    destruct dev as [[started]|]; ecompute.
    + destruct started; ecompute; destruct (pthread_create w) eqn:Hth;
        ecompute; try destruct pr; ecompute; rewrite <- ?app_assoc;
        repeat split; intros; try discriminate; try match goal with H : _ \/ _ |- _ => exact (Hno _ _ H) end;
        repeat split.
    + repeat split; intros; try discriminate; try congruence; repeat split.
Qed.

Lemma playTrack_outcome_witness :
  AudioEngine.state_
    (fst (AudioEngine.playTrack streaming_world trA (initialized_engine [])))
  = Playing
  /\ snd (AudioEngine.playTrack streaming_world trA (AudioEngine.init []))
     = Failure "Failed to start audio device"
  /\ ok (snd (AudioEngine.playTrack empty_world trA (initialized_engine [])))
     = false.
Proof.
  split; [|split].
  - destruct (proj2 (playTrack_outcome streaming_world trA
                       (initialized_engine [])) two_frames)
      as (_ & _ & _ & _ & _ & Hstart & _); [reflexivity | reflexivity |].
    destruct Hstart as (_ & Hst & _);
      [vm_compute; discriminate | reflexivity | exact Hst].
  - destruct (proj2 (playTrack_outcome streaming_world trA
                       (AudioEngine.init [])) two_frames)
      as (_ & _ & _ & _ & _ & _ & Hfail); [reflexivity | reflexivity |].
    destruct Hfail as (Hres & _); [left; reflexivity | exact Hres].
  - destruct (proj1 (playTrack_outcome empty_world trA
                       (initialized_engine [])))
      as (Hok & _); [left; reflexivity | exact Hok].
Defined.

(** ** [play()], [pause()], [togglePlayPause()] *)

(** [play()] refuses without touching the engine: on an engine that was
    never initialised, and on a stopped engine whose queue is empty; on a
    playing engine it succeeds without doing anything. *)
Lemma play_refusals (w : World) (e : AudioEngine.t) :
  (AudioEngine.initialized_ e = false ->
     AudioEngine.play w e = Ok (e, Failure "Audio engine not initialized"))
  /\ (AudioEngine.initialized_ e = true ->
      AudioEngine.state_ e = Playing ->
      AudioEngine.play w e = Ok (e, Success))
  /\ (AudioEngine.initialized_ e = true ->
      AudioEngine.state_ e = Stopped ->
      Queue.isEmpty (AudioEngine.queue_ e) = true ->
      AudioEngine.play w e = Ok (e, Failure "Queue is empty")).
Proof.
  unfold AudioEngine.play. repeat split.
  - intros ->. reflexivity.
  - intros -> ->. reflexivity.
  - intros -> -> Hemp. cbn [negb PlaybackState_eqb].
    unfold Queue.current. rewrite Hemp. reflexivity.
Qed.

(** On a playing, initialised engine with its device, when the audio
    thread can be started again, [togglePlayPause()] pauses and a second
    [togglePlayPause()] resumes: the session, the frame counters and the
    queue are those of the start (nothing is reopened), and the bus has
    delivered playback-paused, then playback-started for the current
    track. *)
Theorem toggle_twice_resumes (w : World) (tr : TrackInfo) (e : AudioEngine.t) :
  AudioEngine.initialized_ e = true ->
  AudioEngine.device_ e <> None ->
  AudioEngine.state_ e = Playing ->
  AudioEngine.currentTrack_ e = Some tr ->
  pthread_create w = true ->
  exists e1 e2,
    AudioEngine.togglePlayPause w e = Ok (e1, Success)
    /\ AudioEngine.state e1 = Paused
    /\ AudioEngine.deviceStarted e1 = false
    /\ AudioEngine.togglePlayPause w e1 = Ok (e2, Success)
    /\ AudioEngine.state e2 = Playing
    /\ AudioEngine.deviceStarted e2 = true
    /\ AudioEngine.decoder_ e2 = AudioEngine.decoder_ e
    /\ AudioEngine.currentFrame_ e2 = AudioEngine.currentFrame_ e
    /\ AudioEngine.queue_ e2 = AudioEngine.queue_ e
    /\ AudioEngine.currentTrack_ e2 = Some tr
    /\ EventBus.delivered (AudioEngine.eventBus_ e2)
       = EventBus.delivered (AudioEngine.eventBus_ e)
         ++ [mkEvent PlaybackPaused NoData;
             mkEvent PlaybackStarted (TrackData tr)].
Proof.
  intros Hini Hdev Hst Hct Hth.
  destruct e as [bus q d dev st vol cf tf rm sh ct cb tap pr ini].
  cbn [AudioEngine.initialized_ AudioEngine.state_ AudioEngine.currentTrack_
       AudioEngine.device_] in Hini, Hdev, Hst, Hct.
  subst ini st ct.
  destruct dev as [[started]|]; [|contradiction].
  destruct started, pr.
  all: do 2 eexists; split; [ecompute; reflexivity|].
  all: split; [reflexivity|]; split; [reflexivity|].
  all: split; [ecompute; rewrite Hth; ecompute; reflexivity|].
  all: ecompute; rewrite <- app_assoc; repeat split.
Qed.

Lemma toggle_twice_resumes_witness :
  exists e1 e2,
    AudioEngine.togglePlayPause streaming_world streaming_engine
    = Ok (e1, Success)
    /\ AudioEngine.state e1 = Paused
    /\ AudioEngine.deviceStarted e1 = false
    /\ AudioEngine.togglePlayPause streaming_world e1 = Ok (e2, Success)
    /\ AudioEngine.state e2 = Playing
    /\ AudioEngine.deviceStarted e2 = true
    /\ AudioEngine.decoder_ e2 = AudioEngine.decoder_ streaming_engine
    /\ AudioEngine.currentFrame_ e2
       = AudioEngine.currentFrame_ streaming_engine
    /\ AudioEngine.queue_ e2 = AudioEngine.queue_ streaming_engine
    /\ AudioEngine.currentTrack_ e2 = Some trA
    /\ EventBus.delivered (AudioEngine.eventBus_ e2)
       = EventBus.delivered (AudioEngine.eventBus_ streaming_engine)
         ++ [mkEvent PlaybackPaused NoData;
             mkEvent PlaybackStarted (TrackData trA)].
Proof.
  apply (toggle_twice_resumes streaming_world trA streaming_engine);
    solve [vm_compute; reflexivity | vm_compute; discriminate].
Defined.

(** [play()] on a stopped, initialised engine with its device, whose
    current queue entry opens and whose audio thread starts, ends [Playing]
    that entry, and delivers track-changed once and playback-started twice:
    once from [playTrack], once from [play] itself. *)
Theorem play_from_stopped_announces_twice
        (w : World) (tr : TrackInfo) (dec : ma_decoder) (e : AudioEngine.t) :
  AudioEngine.initialized_ e = true ->
  AudioEngine.device_ e <> None ->
  AudioEngine.state_ e = Stopped ->
  Queue.current (AudioEngine.queue_ e) = Ok (Some tr) ->
  exists_ w (filePath tr) = true ->
  ma_decoder_init_file w (filePath tr) = Some dec ->
  pthread_create w = true ->
  exists e',
    AudioEngine.play w e = Ok (e', Success)
    /\ AudioEngine.state e' = Playing
    /\ AudioEngine.currentTrack_ e' = Some tr
    /\ AudioDecoder.isOpen (AudioEngine.decoder_ e') = true
    /\ EventBus.delivered (AudioEngine.eventBus_ e')
       = EventBus.delivered (AudioEngine.eventBus_ e)
         ++ [mkEvent TrackChanged (TrackData tr);
             mkEvent PlaybackStarted (TrackData tr);
             mkEvent PlaybackStarted (TrackData tr)].
Proof.
  intros Hini Hdev Hst Hcur Hex Hinit Hth.
  destruct e as [bus q d dev st vol cf tf rm sh ct cb tap pr ini].
  cbn [AudioEngine.initialized_ AudioEngine.state_ AudioEngine.queue_
       AudioEngine.device_] in Hini, Hdev, Hst, Hcur.
  subst ini st.
  destruct dev as [[started]|]; [|contradiction].
  unfold AudioEngine.play.
  cbn [AudioEngine.initialized_ AudioEngine.state_ AudioEngine.queue_
       negb PlaybackState_eqb].
  rewrite Hcur. cbn [bind].
  destruct started, pr.
  all: ecompute; rewrite Hex, Hinit; ecompute; rewrite Hth; ecompute.
  all: eexists; split; [reflexivity|]; ecompute.
  all: rewrite <- !app_assoc; repeat split.
Qed.

Lemma play_from_stopped_announces_twice_witness :
  exists e',
    AudioEngine.play streaming_world
      (AudioEngine.set_queue (initialized_engine []) (three trA trB trC []))
    = Ok (e', Success)
    /\ AudioEngine.state e' = Playing
    /\ AudioEngine.currentTrack_ e' = Some trA
    /\ AudioDecoder.isOpen (AudioEngine.decoder_ e') = true
    /\ EventBus.delivered (AudioEngine.eventBus_ e')
       = EventBus.delivered
           (AudioEngine.eventBus_
              (AudioEngine.set_queue (initialized_engine [])
                                     (three trA trB trC [])))
         ++ [mkEvent TrackChanged (TrackData trA);
             mkEvent PlaybackStarted (TrackData trA);
             mkEvent PlaybackStarted (TrackData trA)].
Proof.
  apply (play_from_stopped_announces_twice streaming_world trA two_frames
           (AudioEngine.set_queue (initialized_engine [])
                                  (three trA trB trC [])));
    solve [vm_compute; reflexivity | vm_compute; discriminate].
Defined.

(** ** [seek] *)

(** [seek(position)] without an open session fails with "No track loaded"
    and changes nothing.  When it succeeds for a non-negative position on
    a session of at least 1000 Hz, [position()] afterwards is at most one
    millisecond below the requested position and never above it.  On a
    WAV session it does succeed for every such position whose byte offset
    fits a [long], whether or not the file is that long: the frame index
    is not compared with the length of the stream. *)
Theorem seek_then_position (p : Z) (e : AudioEngine.t) :
  (AudioDecoder.isOpen (AudioEngine.decoder_ e) = false ->
     AudioEngine.seek p e = Ok (e, Failure "No track loaded"))
  /\ (forall e',
        (0 <= p)%Z ->
        1000 <= AudioDecoder.sampleRate (AudioEngine.decoder_ e) ->
        (p * Z.of_N (AudioDecoder.sampleRate (AudioEngine.decoder_ e))
         < 2 ^ 63)%Z ->
        AudioEngine.seek p e = Ok (e', Success) ->
        exists ms,
          AudioEngine.position e' = Ok ms /\ (ms <= p <= ms + 1)%Z)
  /\ (forall dec f,
        AudioDecoder.isOpen (AudioEngine.decoder_ e) = true ->
        AudioDecoder.decoder_ (AudioEngine.decoder_ e) = Some dec ->
        file (pBackend dec) = Some f ->
        (0 <= p)%Z ->
        (p * Z.of_N (AudioDecoder.sampleRate (AudioEngine.decoder_ e))
         < 2 ^ 63)%Z ->
        dataOffset (pBackend dec)
        + Z.to_N (p * Z.of_N (AudioDecoder.sampleRate (AudioEngine.decoder_ e))
                  / 1000)
          * bytesPerFrame (pBackend dec) < 2 ^ 63 ->
        exists e',
          AudioEngine.seek p e = Ok (e', Success)
          /\ AudioEngine.currentFrame_ e'
             = Z.to_N (p * Z.of_N (AudioDecoder.sampleRate
                                     (AudioEngine.decoder_ e)) / 1000)
          /\ AudioDecoder.currentFrame (AudioEngine.decoder_ e')
             = AudioEngine.currentFrame_ e').
Proof.
  assert (H63 : (2 ^ 63 = 9223372036854775808)%Z) by reflexivity.
  assert (H64 : (2 ^ 64 = 18446744073709551616)%Z) by reflexivity.
  assert (Hquot : forall r : N,
    (0 <= p)%Z -> (p * Z.of_N r < 2 ^ 63)%Z ->
    ((p * Z.of_N r <? - 2 ^ 63) || (2 ^ 63 <=? p * Z.of_N r))%Z = false
    /\ (Z.quot (p * Z.of_N r) 1000 = p * Z.of_N r / 1000)%Z
    /\ (0 <= p * Z.of_N r / 1000)%Z
    /\ (1000 * (p * Z.of_N r / 1000) <= p * Z.of_N r)%Z
    /\ (p * Z.of_N r < 1000 * (p * Z.of_N r / 1000) + 1000)%Z
    /\ ((p * Z.of_N r / 1000) mod 2 ^ 64 = p * Z.of_N r / 1000)%Z).
  { intros r Hp Hfit.
    assert (Hlo : (p * Z.of_N r <? - 2 ^ 63)%Z = false)
      by (apply Z.ltb_ge; lia).
    assert (Hhi : (2 ^ 63 <=? p * Z.of_N r)%Z = false)
      by (apply Z.leb_gt; lia).
    rewrite Hlo, Hhi.
    pose proof (Z.div_mod (p * Z.of_N r) 1000 ltac:(lia)).
    pose proof (Z.mod_pos_bound (p * Z.of_N r) 1000 ltac:(lia)).
    pose proof (Z.div_pos (p * Z.of_N r) 1000).
    split; [reflexivity|].
    split; [apply Z.quot_div_nonneg; lia|].
    repeat split; try lia.
    apply Z.mod_small. lia. }
  split; [|split].
  - unfold AudioEngine.seek. intros ->. reflexivity.
  - intros e' Hp Hrate Hfit. unfold AudioEngine.seek.
    destruct (AudioDecoder.isOpen (AudioEngine.decoder_ e)); cbn [negb];
      [|discriminate].
    set (r := AudioDecoder.sampleRate (AudioEngine.decoder_ e)) in *.
    destruct (Hquot r Hp Hfit) as (Hrange & Hq & Hq0 & Hq1 & Hq2 & Hmod).
    rewrite Hrange, Hq, Hmod.
    set (f := (p * Z.of_N r / 1000)%Z) in *.
    unfold AudioDecoder.seek.
    destruct (AudioDecoder.isOpen_ (AudioEngine.decoder_ e));
      [|discriminate].
    destruct (AudioDecoder.decoder_ (AudioEngine.decoder_ e)) as [dec|];
      [|discriminate].
    destruct (ma_decoder_seek_to_pcm_frame dec (Z.to_N f)) as [dec'|];
      [|discriminate].
    intros [= <-]. unfold AudioEngine.position.
    replace (AudioDecoder.sampleRate
               (AudioEngine.decoder_
                  (AudioEngine.set_currentFrame
                     (AudioEngine.set_decoder e _) (Z.to_N f))))
      with r by reflexivity.
    replace (AudioEngine.currentFrame_
               (AudioEngine.set_currentFrame
                  (AudioEngine.set_decoder e _) (Z.to_N f)))
      with (Z.to_N f) by reflexivity.
    destruct (N.eqb_spec r 0); [lia|].
    unfold udiv. destruct (N.eqb_spec r 0); [lia|]. cbn [bind].
    eexists. split; [reflexivity|].
    assert (Hw : SizeT.wrap (Z.to_N f * 1000) = Z.to_N f * 1000)
      by (apply wrap_small; rewrite modulus_value; lia).
    rewrite Hw.
    assert (Hsmall : Z.to_N f * 1000 / r < 2 ^ 63).
    { change (2 ^ 63) with 9223372036854775808.
      assert (Z.to_N f * 1000 / r <= Z.to_N f * 1000)
        by (apply N.Div0.div_le_upper_bound; nia).
      lia. }
    rewrite to_int64_small by exact Hsmall.
    rewrite N2Z.inj_div, N2Z.inj_mul, Z2N.id by lia.
    change (Z.of_N 1000) with 1000%Z.
    pose proof (Z.div_mod (f * 1000) (Z.of_N r) ltac:(lia)).
    pose proof (Z.mod_pos_bound (f * 1000) (Z.of_N r) ltac:(lia)).
    nia.
  - intros dec f Hop Hdec Hfile Hp Hfit Hoff. unfold AudioEngine.seek.
    rewrite Hop. cbn [negb].
    set (r := AudioDecoder.sampleRate (AudioEngine.decoder_ e)) in *.
    destruct (Hquot r Hp Hfit) as (Hrange & Hq & Hq0 & Hq1 & Hq2 & Hmod).
    rewrite Hrange, Hq, Hmod.
    set (k := Z.to_N (p * Z.of_N r / 1000)%Z) in *.
    unfold AudioDecoder.seek. unfold AudioDecoder.isOpen in Hop.
    rewrite Hop, Hdec.
    unfold ma_decoder_seek_to_pcm_frame. rewrite Hfile.
    change (2 ^ 63) with 9223372036854775808 in Hoff.
    rewrite (wrap_small (k * bytesPerFrame (pBackend dec)))
      by (rewrite modulus_value; lia).
    rewrite wrap_small by (rewrite modulus_value; lia).
    rewrite to_int64_small
      by (change (2 ^ 63) with 9223372036854775808; lia).
    unfold fseek.
    destruct (Z.ltb_spec
                (Z.of_N (dataOffset (pBackend dec)
                         + k * bytesPerFrame (pBackend dec))) 0); [lia|].
    eexists. split; [reflexivity|]. split; reflexivity.
Qed.

Lemma seek_then_position_witness :
  exists e' ms,
    AudioEngine.seek 1000%Z streaming_engine = Ok (e', Success)
    /\ AudioEngine.currentFrame_ e' = 44100
    /\ AudioEngine.position e' = Ok ms
    /\ (ms <= 1000 <= ms + 1)%Z.
Proof.
  assert (Hs : exists e',
             AudioEngine.seek 1000%Z streaming_engine = Ok (e', Success)
             /\ AudioEngine.currentFrame_ e' = 44100).
  { eexists. split; vm_compute; reflexivity. }
  destruct Hs as (e' & Hs & Hf). exists e'.
  destruct (proj1 (proj2 (seek_then_position 1000%Z streaming_engine)) e')
    as [ms Hms].
  - vm_compute. discriminate.
  - vm_compute. discriminate.
  - vm_compute. reflexivity.
  - exact Hs.
  - exists ms. split; [exact Hs|]. split; [exact Hf | exact Hms].
Defined.

(** ** The audio callback and the end of a track *)

(** When the frames of the session are between 1 and 8 bytes wide, and
    either exactly 8 bytes wide or read into a buffer that holds values
    throughout, the callback returns, whatever the state, and leaves
    exactly [2 * frameCount] samples: it neither overruns the buffer nor
    reads what was never stored. *)
Theorem callback_fills_the_buffer
        (e : AudioEngine.t) (output : list Byte.byte) (frameCount : N) :
  Queue.navigable (AudioEngine.queue_ e) ->
  frameCount < uint32_max ->
  frames_fit (AudioEngine.decoder_ e) ->
  frames_fill (AudioEngine.decoder_ e)
  \/ AudioEngine.capacity frameCount <= N.of_nat (length output) ->
  exists e' out,
    AudioEngine.audioCallback e output frameCount = Ok (e', out)
    /\ length out = (2 * N.to_nat frameCount)%nat.
Proof.
  intros Hnav Hn Hfit Hroom.
  destruct (PlaybackState_eqb (AudioEngine.state_ e) Playing
            && AudioDecoder.isOpen (AudioEngine.decoder_ e)) eqn:Hplay.
  - apply andb_true_iff in Hplay as [Hst Hop].
    assert (Hst' : AudioEngine.state_ e = Playing)
      by (destruct (AudioEngine.state_ e); now try discriminate).
    destruct (readFrames_fit (AudioEngine.decoder_ e) frameCount Hfit)
      as (w & fr & d1 & Hread & Hfr & Hsize & Hfull).
    destruct (length_buffer_view w output) as [Hstored Hheld].
    assert (Hview : (2 * N.to_nat fr <= length (buffer_view w output))%nat).
    { assert (Hdiv : forall m, (8 * N.to_nat fr <= m)%nat ->
                               (2 * N.to_nat fr <= m / 4)%nat).
      { intros m Hm.
        replace (2 * N.to_nat fr)%nat with ((2 * N.to_nat fr) * 4 / 4)%nat
          by (apply Nat.div_mul; discriminate).
        apply Nat.Div0.div_le_mono. lia. }
      destruct Hroom as [Hfill | Hout].
      - specialize (Hfull Hfill).
        specialize (Hdiv (N.to_nat (written_size w)) ltac:(lia)). lia.
      - unfold AudioEngine.capacity in Hout.
        specialize (Hdiv (length output) ltac:(lia)). lia. }
    destruct (render_output e output frameCount fr w d1 Hn Hread Hfr Hsize
                            Hview) as [e1 Hr].
    destruct (audioCallback_output e e1 output frameCount _ Hst' Hop Hnav Hr)
      as [e' He'].
    do 2 eexists. split; [exact He'|].
    rewrite length_app, length_map, repeat_length, length_firstn. lia.
  - exists e, (AudioEngine.memset_zero
                 (SizeT.wrap (SizeT.wrap (frameCount * 2) * 4))).
    split.
    + unfold AudioEngine.audioCallback.
      destruct (PlaybackState_eqb (AudioEngine.state_ e) Playing);
        destruct (AudioDecoder.isOpen (AudioEngine.decoder_ e));
        try discriminate; reflexivity.
    + unfold AudioEngine.memset_zero.
      rewrite uint32_max_value in Hn.
      rewrite (wrap_small (frameCount * 2)) by (rewrite modulus_value; lia).
      rewrite wrap_small by (rewrite modulus_value; lia).
      rewrite N.div_mul by discriminate.
      rewrite repeat_length. lia.
Qed.

Lemma callback_fills_the_buffer_witness :
  exists e' out,
    AudioEngine.audioCallback mono_engine
      (bytes_one ++ bytes_one ++ bytes_one ++ bytes_one) 2 = Ok (e', out)
    /\ length out = (2 * N.to_nat 2)%nat.
Proof.
  apply (callback_fills_the_buffer mono_engine
           (bytes_one ++ bytes_one ++ bytes_one ++ bytes_one) 2).
  - right. unfold Queue.wf, Queue.order_ok. simpl.
    split; [reflexivity|]. split; [reflexivity | discriminate].
  - reflexivity.
  - intros dec Hdec. vm_compute in Hdec.
    injection Hdec as <-. vm_compute. split; discriminate.
  - right. vm_compute. discriminate.
Defined.

(** At the end of a track with [repeatMode = All], when the queue has a
    valid cursor on its last position, the handler moves the cursor to 0
    and queues a track-changed event for the track now current, leaving
    the playback state as it is; the old cursor has been pushed on the
    history twice, once by [next()] and once by [jumpTo(0)]. *)
Theorem repeat_all_wraps_to_the_start (e : AudioEngine.t) :
  AudioEngine.repeatMode_ e = All ->
  Queue.wf (AudioEngine.queue_ e) ->
  Queue.size (AudioEngine.queue_ e)
  <= SizeT.inc (Queue.currentIndex (AudioEngine.queue_ e)) ->
  exists e' tr,
    AudioEngine.onTrackEnded e = Ok e'
    /\ Queue.currentIndex (AudioEngine.queue_ e') = 0
    /\ Queue.current (AudioEngine.queue_ e') = Ok (Some tr)
    /\ Queue.history_ (AudioEngine.queue_ e')
       = Queue.history_ (AudioEngine.queue_ e)
         ++ [Queue.currentIndex (AudioEngine.queue_ e);
             Queue.currentIndex (AudioEngine.queue_ e)]
    /\ EventBus.eventQueue_ (AudioEngine.eventBus_ e')
       = EventBus.eventQueue_ (AudioEngine.eventBus_ e)
         ++ [mkEvent TrackChanged (TrackData tr)]
    /\ AudioEngine.state_ e' = AudioEngine.state_ e
    /\ AudioEngine.decoder_ e' = AudioEngine.decoder_ e.
Proof.
  intros Hrm (Hmax & Hcur & Hord) Hend.
  pose proof (isEmpty_false_of_cursor _ Hcur) as Hne.
  assert (H0 : 0 < Vec.size (Queue.tracks_ (AudioEngine.queue_ e))) by lia.
  destruct (resolve_total _ 0 Hord H0) as [tr Htr].
  exists (AudioEngine.set_eventBus
            (AudioEngine.set_queue e
               (Queue.jumpTo 0
                  (Queue.set_history (AudioEngine.queue_ e)
                     (Vec.push_back (Queue.history_ (AudioEngine.queue_ e))
                        (Queue.currentIndex_ (AudioEngine.queue_ e))))))
            (EventBus.publishAsync (mkEvent TrackChanged (TrackData tr))
                                   (AudioEngine.eventBus_ e))), tr.
  unfold AudioEngine.onTrackEnded. rewrite Hrm.
  unfold Queue.size, Queue.currentIndex in *.
  unfold Queue.next. rewrite Hne. qsimpl.
  destruct (N.leb_spec (Vec.size (Queue.tracks_ (AudioEngine.queue_ e)))
                       (SizeT.inc (Queue.currentIndex_ (AudioEngine.queue_ e))));
    [|lia].
  cbn [bind fst snd]. esimpl.
  unfold Queue.isEmpty in *. qsimpl. rewrite Hne.
  unfold Queue.jumpTo. qsimpl.
  destruct (N.ltb_spec 0 (Vec.size (Queue.tracks_ (AudioEngine.queue_ e))));
    [|lia].
  unfold Queue.current, Queue.isEmpty, Queue.resolve in *. qsimpl.
  rewrite Hne, Htr. cbn [bind]. esimpl.
  unfold Vec.push_back. rewrite <- app_assoc.
  repeat split.
Qed.

Lemma repeat_all_wraps_to_the_start_witness :
  exists e' tr,
    AudioEngine.onTrackEnded
      (AudioEngine.setRepeatMode All
         (AudioEngine.set_queue streaming_engine
            (Queue.jumpTo 2 (three trA trB trC [])))) = Ok e'
    /\ Queue.currentIndex (AudioEngine.queue_ e') = 0
    /\ Queue.current (AudioEngine.queue_ e') = Ok (Some tr)
    /\ Queue.history_ (AudioEngine.queue_ e') = [0] ++ [2; 2]
    /\ EventBus.eventQueue_ (AudioEngine.eventBus_ e')
       = [] ++ [mkEvent TrackChanged (TrackData tr)]
    /\ AudioEngine.state_ e' = Playing
    /\ AudioEngine.decoder_ e' = AudioEngine.decoder_ streaming_engine.
Proof.
  apply (repeat_all_wraps_to_the_start
           (AudioEngine.setRepeatMode All
              (AudioEngine.set_queue streaming_engine
                 (Queue.jumpTo 2 (three trA trB trC []))))).
  - reflexivity.
  - unfold Queue.wf, Queue.order_ok. simpl.
    split; [reflexivity|]. split; [reflexivity | discriminate].
  - vm_compute. discriminate.
Defined.

(** At the end of the last track with [repeatMode = Off] the handler sets
    the state to [Stopped] and queues playback-stopped, but the session
    stays open and the current track stays set; because the state is
    already [Stopped], a later [stop()] returns without closing the
    session. *)
Theorem end_of_queue_leaves_the_session_open (e : AudioEngine.t) :
  AudioEngine.repeatMode_ e = Off ->
  Queue.navigable (AudioEngine.queue_ e) ->
  Queue.size (AudioEngine.queue_ e)
  <= SizeT.inc (Queue.currentIndex (AudioEngine.queue_ e)) ->
  exists e',
    AudioEngine.onTrackEnded e = Ok e'
    /\ AudioEngine.state e' = Stopped
    /\ AudioEngine.decoder_ e' = AudioEngine.decoder_ e
    /\ AudioEngine.currentTrack_ e' = AudioEngine.currentTrack_ e
    /\ AudioEngine.deviceStarted e' = AudioEngine.deviceStarted e
    /\ EventBus.eventQueue_ (AudioEngine.eventBus_ e')
       = EventBus.eventQueue_ (AudioEngine.eventBus_ e)
         ++ [mkEvent PlaybackStopped NoData]
    /\ EventBus.delivered (AudioEngine.eventBus_ e')
       = EventBus.delivered (AudioEngine.eventBus_ e)
    /\ AudioEngine.stop e' = (e', Success).
Proof.
  intros Hrm Hnav Hend.
  unfold AudioEngine.onTrackEnded. rewrite Hrm.
  unfold Queue.size, Queue.currentIndex in *.
  assert (Hnext : exists q',
             Queue.next (AudioEngine.queue_ e) = Ok (q', None)).
  { unfold Queue.next.
    destruct (Queue.isEmpty (AudioEngine.queue_ e)); [eauto|]. qsimpl.
    destruct (N.leb_spec (Vec.size (Queue.tracks_ (AudioEngine.queue_ e)))
                (SizeT.inc (Queue.currentIndex_ (AudioEngine.queue_ e))));
      [eauto | lia]. }
  destruct Hnext as [q' Hq']. rewrite Hq'. cbn [bind fst snd].
  eexists. split; [reflexivity|].
  destruct e as [bus q d dev st vol cf tf rm sh ct cb tap pr ini].
  esimpl. repeat split.
Qed.

Lemma end_of_queue_leaves_the_session_open_witness :
  exists e',
    AudioEngine.onTrackEnded
      (AudioEngine.set_queue streaming_engine
         (Queue.jumpTo 2 (three trA trB trC []))) = Ok e'
    /\ AudioEngine.state e' = Stopped
    /\ AudioEngine.decoder_ e' = AudioEngine.decoder_ streaming_engine
    /\ AudioEngine.currentTrack_ e' = Some trA
    /\ AudioEngine.deviceStarted e' = true
    /\ EventBus.eventQueue_ (AudioEngine.eventBus_ e')
       = [] ++ [mkEvent PlaybackStopped NoData]
    /\ EventBus.delivered (AudioEngine.eventBus_ e')
       = EventBus.delivered (AudioEngine.eventBus_ streaming_engine)
    /\ AudioEngine.stop e' = (e', Success).
Proof.
  apply (end_of_queue_leaves_the_session_open
           (AudioEngine.set_queue streaming_engine
              (Queue.jumpTo 2 (three trA trB trC [])))).
  - reflexivity.
  - right. unfold Queue.wf, Queue.order_ok. simpl.
    split; [reflexivity|]. split; [reflexivity | discriminate].
  - vm_compute. discriminate.
Defined.

(** * Further properties of the decoder *)

Lemma tolower_idempotent (c : ascii) :
  AudioDecoder.tolower (AudioDecoder.tolower c) = AudioDecoder.tolower c.
Proof.
  destruct c as [[] [] [] [] [] [] [] []]; reflexivity.
Qed.

Lemma lowercase_idempotent (s : string) :
  AudioDecoder.lowercase (AudioDecoder.lowercase s) = AudioDecoder.lowercase s.
Proof.
  induction s as [|c s IH]; simpl; [reflexivity|].
  now rewrite tolower_idempotent, IH.
Qed.

(** [stringToFormat] undoes [formatToString]: every format, [Unknown]
    included, is read back from its own name. *)
Theorem stringToFormat_formatToString (format : AudioFormat) :
  AudioDecoder.stringToFormat (AudioDecoder.formatToString format) = format.
Proof. destruct format; reflexivity. Qed.

(** [detectFormat] on an extension (the dot followed by a suffix) gives
    what [stringToFormat] gives on the suffix, and neither depends on the
    case of the letters: they agree on a string and on its lower-case
    form. *)
Theorem detectFormat_agrees_with_stringToFormat (suffix : string) :
  AudioDecoder.detectFormat (String "." suffix)
  = AudioDecoder.stringToFormat suffix
  /\ AudioDecoder.stringToFormat (AudioDecoder.lowercase suffix)
     = AudioDecoder.stringToFormat suffix
  /\ AudioDecoder.detectFormat (AudioDecoder.lowercase (String "." suffix))
     = AudioDecoder.detectFormat (String "." suffix).
Proof.
  unfold AudioDecoder.detectFormat, AudioDecoder.stringToFormat.
  rewrite !lowercase_idempotent.
  split; [|split; reflexivity].
  change (AudioDecoder.lowercase (String "." suffix))
    with (String "." (AudioDecoder.lowercase suffix)).
  cbn [String.eqb Ascii.eqb Bool.eqb andb].
  reflexivity.
Qed.



(** * Properties of the event bus *)


Lemma fold_publish (evs : list Event) (b : EventBus.t) :
  fold_left (fun b' ev => EventBus.publish ev b') evs b
  = EventBus.mk (EventBus.delivered b ++ evs) (EventBus.eventQueue_ b).
Proof.
  revert b; induction evs as [|ev evs IH]; intro b; simpl.
  - rewrite app_nil_r. now destruct b.
  - rewrite IH. unfold EventBus.publish. simpl.
    now rewrite <- app_assoc.
Qed.

(** Events published asynchronously are delivered by [processQueue()] in
    the order they were queued, after everything delivered before, and the
    queue is empty afterwards. *)
Theorem processQueue_delivers_in_order (evs : list Event) (b : EventBus.t) :
  let queued := fold_left (fun b' ev => EventBus.publishAsync ev b') evs b in
  EventBus.delivered queued = EventBus.delivered b
  /\ EventBus.eventQueue_ queued = EventBus.eventQueue_ b ++ evs
  /\ EventBus.delivered (EventBus.processQueue queued)
     = EventBus.delivered b ++ EventBus.eventQueue_ b ++ evs
  /\ EventBus.eventQueue_ (EventBus.processQueue queued) = []
  /\ EventBus.processQueue (EventBus.processQueue queued)
     = EventBus.processQueue queued.
Proof.
  cbv zeta.
  assert (Hq : fold_left (fun b' ev => EventBus.publishAsync ev b') evs b
               = EventBus.mk (EventBus.delivered b)
                             (EventBus.eventQueue_ b ++ evs)).
  { revert b; induction evs as [|ev evs IH]; intro b; simpl.
    - rewrite app_nil_r. now destruct b.
    - rewrite IH. unfold EventBus.publishAsync. simpl.
      now rewrite <- app_assoc. }
  rewrite Hq. unfold EventBus.processQueue. rewrite !fold_publish. simpl.
  rewrite app_nil_r. repeat split.
Qed.

Lemma EventType_eqb_eq (a b : EventType) : EventType_eqb a b = true <-> a = b.
Proof. destruct a, b; simpl; split; congruence. Qed.

Lemma callbacksToCall_push (ev : Event) (subs : list Subscriptions.Subscription)
      (sub : Subscriptions.Subscription) (n : N) :
  Subscriptions.callbacksToCall ev
    (Subscriptions.mk (Vec.push_back subs sub) n)
  = Subscriptions.callbacksToCall ev (Subscriptions.mk subs n)
    ++ (if Subscriptions.accepts ev sub
        then [Subscriptions.sub_id sub] else []).
Proof.
  unfold Subscriptions.callbacksToCall, Vec.push_back. simpl.
  rewrite filter_app, map_app. simpl.
  now destruct (Subscriptions.accepts ev sub).
Qed.

(** While the id counter has not wrapped, [subscribe] and [subscribeAll]
    hand out an id no current subscription has and keep that property; the
    new subscriber is called last, for exactly the events of its type (for
    every event after [subscribeAll]), and the calls to the earlier
    subscribers are unchanged. *)
Theorem subscribe_hands_out_a_fresh_id (ty : EventType) (b : Subscriptions.t) :
  Subscriptions.ids_issued b ->
  Subscriptions.nextId_ b + 1 < SizeT.modulus ->
  ~ In (fst (Subscriptions.subscribe ty b))
       (map Subscriptions.sub_id (Subscriptions.subscriptions_ b))
  /\ fst (Subscriptions.subscribeAll b) = fst (Subscriptions.subscribe ty b)
  /\ Subscriptions.ids_issued (snd (Subscriptions.subscribe ty b))
  /\ Subscriptions.ids_issued (snd (Subscriptions.subscribeAll b))
  /\ (forall ev,
        Subscriptions.callbacksToCall ev (snd (Subscriptions.subscribe ty b))
        = Subscriptions.callbacksToCall ev b
          ++ (if EventType_eqb ty (type ev)
              then [fst (Subscriptions.subscribe ty b)] else []))
  /\ (forall ev,
        Subscriptions.callbacksToCall ev (snd (Subscriptions.subscribeAll b))
        = Subscriptions.callbacksToCall ev b
          ++ [fst (Subscriptions.subscribeAll b)]).
Proof.
  intros (Hmax & Hall) Hroom.
  destruct b as [subs next].
  unfold Subscriptions.subscribe, Subscriptions.subscribeAll,
    Subscriptions.ids_issued in *. cbn [fst snd] in *.
  cbn [Subscriptions.subscriptions_ Subscriptions.nextId_] in *.
  assert (Hgrow : forall sub,
             Subscriptions.sub_id sub = next ->
             Forall (fun s => Subscriptions.sub_id s < SizeT.inc next)
                    (Vec.push_back subs sub)).
  { intros sub Hid. rewrite inc_small by lia.
    unfold Vec.push_back. apply Forall_app. split.
    - eapply Forall_impl; [|exact Hall]. cbn. intros; lia.
    - constructor; [lia | constructor]. }
  split; [|split; [reflexivity|]].
  - intro Hin. apply in_map_iff in Hin as (sub & Hid & Hsub).
    rewrite Forall_forall in Hall. specialize (Hall sub Hsub). lia.
  - split; [|split; [|split]].
    + split; [rewrite inc_small; lia | now apply Hgrow].
    + split; [rewrite inc_small; lia | now apply Hgrow].
    + intro ev. now rewrite callbacksToCall_push.
    + intro ev. now rewrite callbacksToCall_push.
Qed.

Lemma subscribe_hands_out_a_fresh_id_witness :
  ~ In (fst (Subscriptions.subscribe TrackChanged
               (snd (Subscriptions.subscribeAll Subscriptions.init))))
       (map Subscriptions.sub_id
            (Subscriptions.subscriptions_
               (snd (Subscriptions.subscribeAll Subscriptions.init)))).
Proof.
  apply (subscribe_hands_out_a_fresh_id TrackChanged
           (snd (Subscriptions.subscribeAll Subscriptions.init))).
  - split; [reflexivity|]. repeat constructor.
  - reflexivity.
Defined.

(** After [unsubscribe(id)] no event calls a subscription with that id,
    and every other subscription is called exactly as before, in the same
    order; unsubscribing an id nobody holds changes nothing. *)
Theorem unsubscribe_silences_exactly_that_id (id : N) (b : Subscriptions.t) :
  (forall ev,
     Subscriptions.callbacksToCall ev (Subscriptions.unsubscribe id b)
     = filter (fun i => negb (i =? id)) (Subscriptions.callbacksToCall ev b))
  /\ (forall ev,
        ~ In id (Subscriptions.callbacksToCall ev
                   (Subscriptions.unsubscribe id b)))
  /\ (~ In id (map Subscriptions.sub_id (Subscriptions.subscriptions_ b)) ->
      Subscriptions.unsubscribe id b = b)
  /\ Subscriptions.nextId_ (Subscriptions.unsubscribe id b)
     = Subscriptions.nextId_ b.
Proof.
  assert (Hcalls : forall ev,
    Subscriptions.callbacksToCall ev (Subscriptions.unsubscribe id b)
    = filter (fun i => negb (i =? id)) (Subscriptions.callbacksToCall ev b)).
  { intro ev. unfold Subscriptions.callbacksToCall, Subscriptions.unsubscribe.
    cbn [Subscriptions.subscriptions_].
    induction (Subscriptions.subscriptions_ b) as [|sub subs IH];
      [reflexivity|].
    cbn [filter].
    destruct (Subscriptions.sub_id sub =? id) eqn:Eid;
      destruct (Subscriptions.accepts ev sub) eqn:Eacc;
      cbn [negb filter map]; rewrite ?Eacc, ?Eid; cbn [negb map];
      now rewrite IH. }
  split; [exact Hcalls|]. split; [|split].
  - intros ev Hin. rewrite Hcalls in Hin.
    apply filter_In in Hin as [_ Hneq]. now rewrite N.eqb_refl in Hneq.
  - clear Hcalls. intro Hnot. destruct b as [subs next].
    unfold Subscriptions.unsubscribe.
    cbn [Subscriptions.subscriptions_ Subscriptions.nextId_] in *.
    f_equal. induction subs as [|sub subs IH]; [reflexivity|].
    cbn [filter map In] in *.
    destruct (N.eqb_spec (Subscriptions.sub_id sub) id) as [Heq | Hne].
    + exfalso. apply Hnot. now left.
    + cbn [negb]. f_equal. apply IH. intro H. apply Hnot. now right.
  - reflexivity.
Qed.

Lemma unsubscribe_silences_exactly_that_id_witness :
  Subscriptions.unsubscribe 7 Subscriptions.init = Subscriptions.init.
Proof.
  apply (unsubscribe_silences_exactly_that_id 7 Subscriptions.init).
  intros [].
Defined.


(** * Remaining operations *)

(** [updateShuffleOrder()], which [addNext], [remove] and [move] call on a
    shuffled queue, replaces the order by a permutation of the natural
    indices of the tracks (the empty order on the empty queue) and leaves
    tracks, cursor, history and shuffle flag as they are: the cursor is
    not re-pinned. *)
Theorem updateShuffleOrder_yields_a_permutation (q : Queue.t) :
  Permutation (Queue.shuffleOrder_ (Queue.updateShuffleOrder q))
              (Vec.iota (length (Queue.tracks_ q)))
  /\ NoDup (Queue.shuffleOrder_ (Queue.updateShuffleOrder q))
  /\ Queue.tracks_ (Queue.updateShuffleOrder q) = Queue.tracks_ q
  /\ Queue.currentIndex_ (Queue.updateShuffleOrder q) = Queue.currentIndex_ q
  /\ Queue.history_ (Queue.updateShuffleOrder q) = Queue.history_ q
  /\ Queue.shuffled_ (Queue.updateShuffleOrder q) = Queue.shuffled_ q.
Proof.
  destruct (updateShuffleOrder_fields q) as (Ht & Hc & Hs & Hh & Hp).
  repeat split; try assumption.
  eapply Permutation_NoDup; [symmetry; exact Hp|].
  unfold Vec.iota. apply Finite.Injective_map_NoDup; [|apply seq_NoDup].
  intros a b H. now apply Nat2N.inj.
Qed.

Lemma closed_session_is_silent (e : AudioEngine.t) (output : list Byte.byte)
      (n : N) :
  AudioDecoder.isOpen (AudioEngine.decoder_ e) = false ->
  n < uint32_max ->
  AudioEngine.audioCallback e output n
  = Ok (e, repeat F32.zero (2 * N.to_nat n)).
Proof.
  intros Hop Hn. unfold AudioEngine.audioCallback. rewrite Hop.
  cbn [negb]. rewrite orb_true_r. unfold AudioEngine.memset_zero.
  rewrite uint32_max_value in Hn.
  rewrite (wrap_small (n * 2)) by (rewrite modulus_value; lia).
  rewrite wrap_small by (rewrite modulus_value; lia).
  rewrite N.div_mul by discriminate.
  do 3 f_equal. lia.
Qed.

(** [playUrl(url)] never plays: it stops the device, closes the session
    that was open, and fails with the placeholder error of [openUrl],
    without changing the playback state or delivering an event.  An engine
    that was [Playing] therefore stays [Playing] with no session, and its
    callback writes silence. *)
Theorem playUrl_closes_the_session_and_fails
        (w : World) (url : string) (e : AudioEngine.t)
        (output : list Byte.byte) (frameCount : N) :
  frameCount < uint32_max ->
  snd (AudioEngine.playUrl w url e)
  = Failure "URL streaming not yet implemented"
  /\ AudioDecoder.isOpen (AudioEngine.decoder_ (fst (AudioEngine.playUrl w url e)))
     = false
  /\ AudioEngine.deviceStarted (fst (AudioEngine.playUrl w url e)) = false
  /\ AudioEngine.state_ (fst (AudioEngine.playUrl w url e))
     = AudioEngine.state_ e
  /\ AudioEngine.currentTrack_ (fst (AudioEngine.playUrl w url e))
     = AudioEngine.currentTrack_ e
  /\ AudioEngine.eventBus_ (fst (AudioEngine.playUrl w url e))
     = AudioEngine.eventBus_ e
  /\ AudioEngine.audioCallback (fst (AudioEngine.playUrl w url e)) output
                               frameCount
     = Ok (fst (AudioEngine.playUrl w url e),
           repeat F32.zero (2 * N.to_nat frameCount)).
Proof.
  intro Hn.
  assert (Hclosed : AudioDecoder.isOpen
                      (AudioEngine.decoder_ (fst (AudioEngine.playUrl w url e)))
                    = false)
    by (destruct e; reflexivity).
  repeat split;
    try (destruct e as [bus q d [[[]]|] st vol cf tf rm sh ct cb tap pr ini];
         reflexivity).
  now apply closed_session_is_silent.
Qed.

Lemma playUrl_closes_the_session_and_fails_witness :
  snd (AudioEngine.playUrl streaming_world "http://host/stream"
                           streaming_engine)
  = Failure "URL streaming not yet implemented"
  /\ AudioEngine.state_
       (fst (AudioEngine.playUrl streaming_world "http://host/stream"
                                 streaming_engine)) = Playing.
Proof.
  destruct (playUrl_closes_the_session_and_fails streaming_world
              "http://host/stream" streaming_engine [] 4)
    as (H1 & _ & _ & H2 & _).
  - reflexivity.
  - exact (conj H1 H2).
Defined.

(** [playPrevious()] on the first position with an empty history returns
    success and leaves the whole engine as it is: the current track is
    neither restarted nor stopped, and no event is published (where
    [playNext()] at the last position stops playback). *)
Theorem playPrevious_at_the_start_changes_nothing
        (w : World) (e : AudioEngine.t) :
  Queue.history_ (AudioEngine.queue_ e) = [] ->
  Queue.currentIndex (AudioEngine.queue_ e) = 0 ->
  AudioEngine.playPrevious w e = Ok (e, Success).
Proof.
  intros Hh Hc.
  destruct e as [bus q d dev st vol cf tf rm sh ct cb tap pr ini].
  unfold AudioEngine.playPrevious, Queue.previous, Queue.currentIndex in *.
  cbn [AudioEngine.queue_] in *.
  destruct (Queue.isEmpty q); [reflexivity|].
  rewrite Hh, Hc. reflexivity.
Qed.

Lemma playPrevious_at_the_start_changes_nothing_witness :
  AudioEngine.playPrevious streaming_world streaming_engine
  = Ok (streaming_engine, Success).
Proof.
  apply (playPrevious_at_the_start_changes_nothing streaming_world
                                                     streaming_engine);
    reflexivity.
Defined.
